(** * Readability metrics of spacy-textdescriptives

    A shallow embedding of [components/readability.py]: the eight
    readability formulas, the derivation of the hard-word and long-word
    counts, the assembly of the result dictionary and the registration of
    the [readability] extension on [Doc].

    Python numbers are modelled as they are at run time: [int] is an
    unbounded integer ([Z]), [float] is an IEEE-754 binary64 number (the
    primitive [float] of the Standard Library, specified by [SpecFloat]),
    and an operation that raises in Python returns [Raise] here.  The one
    operation that Python hands to the C library, [pow], is a parameter
    ([Py.Libm]): what is proved holds for every library that meets its
    accuracy law. *)

From Stdlib Require Import ZArith List String Floats Bool Lia.
From Stdlib Require Uint63.
From stdpp Require Import gmap strings.

Set Warnings "-inexact-float".

Local Open Scope Z_scope.

(** ** Outcomes of Python evaluation *)

(** The ways an evaluation ends without a float: the three exceptions
    that the component's arithmetic and its registration can raise, and
    [ComplexResult], which is no exception: it marks the one evaluation
    that goes on with a [complex] number in Python ([x ** 0.5] on a
    negative [x]); the scores of this embedding are floats, and it does not
    follow the evaluation from there. *)
Inductive exn : Type :=
  | ZeroDivisionError
  | OverflowError
  | ValueError
  | ComplexResult.

Inductive outcome (A : Type) : Type :=
  | Return (a : A)
  | Raise (e : exn).

Arguments Return {A} a.
Arguments Raise {A} e.

(** The error monad; [x ← m; k] is stdpp's notation for [mbind]. *)
#[global] Instance outcome_ret : MRet outcome := fun A a => Return a.
#[global] Instance outcome_bind : MBind outcome := fun A B k m =>
  match m with
  | Return a => k a
  | Raise e => Raise e
  end.

Definition returns {A : Type} (m : outcome A) : bool :=
  match m with Return _ => true | Raise _ => false end.

(** A positive finite [float], such as the constants of the formulas. *)
Definition pos_finite (c : float) : bool :=
  match Prim2SF c with
  | S754_finite false _ _ => true
  | _ => false
  end.

(** ** Python arithmetic on [int] and [float] *)

Module Py.

(** An [int] as the exact (not yet rounded) binary number it denotes. *)
Definition exact_of_int (n : Z) : spec_float :=
  match n with
  | Z0 => S754_zero false
  | Zpos p => S754_finite false p 0
  | Zneg p => S754_finite true p 0
  end.

Definition SF_is_finite (x : spec_float) : bool :=
  match x with
  | S754_zero _ | S754_finite _ _ _ => true
  | S754_infinity _ | S754_nan => false
  end.

(** [float(n)]: the integer rounded to the nearest binary64 number, ties
    to even; [OverflowError] when it is too large for a float. *)
Definition float_of_int (n : Z) : outcome float :=
  let x := binary_normalize prec emax n 0 false in
  if SF_is_finite x then Return (SF2Prim x) else Raise OverflowError.

(** [a / b] on two ints ([long_true_divide]): the correctly rounded
    quotient, [ZeroDivisionError] for a zero divisor, [OverflowError] when
    the quotient is too large for a float. *)
Definition int_truediv (a b : Z) : outcome float :=
  if b =? 0 then Raise ZeroDivisionError
  else
    let q := SFdiv prec emax (exact_of_int a) (exact_of_int b) in
    if SF_is_finite q then Return (SF2Prim q) else Raise OverflowError.

(** [a / b] on two floats ([float_div]): a zero divisor of either sign
    raises, every other case is the IEEE-754 quotient. *)
Definition float_truediv (a b : float) : outcome float :=
  if PrimFloat.eqb b 0%float then Raise ZeroDivisionError
  else Return (a / b)%float.

(** [n / b] with an int on the left: the int is converted first. *)
Definition int_float_truediv (n : Z) (b : float) : outcome float :=
  a ← float_of_int n; float_truediv a b.

(** [y] is [x] or one of the two floats next to [x]. *)
Definition adjacent (x y : float) : Prop :=
  y = x \/ y = next_up x \/ y = next_down x.

(** The C library.  CPython evaluates [x ** 0.5] on a positive finite [x]
    other than [1.0] by the C call [pow(x, 0.5)], here [c_pow_half x].
    The C standard does not fix the accuracy of [pow], and the libraries
    in use do not round it correctly: glibc 2.36 answers
    [12.792042981336625] at [163.63636363636363], where the correctly
    rounded root is [12.792042981336627].  What is assumed of the library
    is [c_pow_half_root]: its answer is the correctly rounded root of a
    positive finite float that is [x] or next to [x].  An error below
    three quarters of a unit in the last place gives that, since the root
    moves by more than a quarter of a unit when the base moves to the
    next float; [pow] reports no range error on such a base. *)
Class Libm : Type := {
  c_pow_half : float -> float;
  c_pow_half_root (x : float) :
    pos_finite x = true ->
    exists y, adjacent x y /\ pos_finite y = true /\ c_pow_half x = sqrt y
}.

(** [x ** 0.5] ([float_pow]): NaN stays NaN, an infinite base gives
    [+inf], a zero base of either sign gives [+0.0], a negative base makes
    Python answer with a [complex], the base [1.0] gives [1.0], and every
    other base goes to the C library's [pow]. *)
Definition pow_half {libm : Libm} (x : float) : outcome float :=
  if is_nan x then Return nan
  else if is_infinity x then Return infinity
  else if PrimFloat.eqb x 0%float then Return 0%float
  else if PrimFloat.ltb x 0%float then Raise ComplexResult
  else if PrimFloat.eqb x 1%float then Return 1%float
  else Return (c_pow_half x).

(** The bases at which the correctly rounded root does not move when the
    base moves to a float next to it: there every library answers with
    the correctly rounded root (lemma [pow_half_stable] below). *)
Definition root_stable (x : float) : bool :=
  PrimFloat.Leibniz.eqb (sqrt (next_down x)) (sqrt x) &&
  PrimFloat.Leibniz.eqb (sqrt (next_up x)) (sqrt x).

End Py.

(** ** The document statistics read by the component *)

(** Modelled from the spec: the extension attributes of [Doc] that the
    component reads ([doc._.sentence_length], [doc._.syllables],
    [doc._.token_length], [doc._._n_sentences], [doc._._n_tokens],
    [doc._._n_syllables], [doc._._filtered_tokens]) are set by other
    components; section 3 of the specification gives their types: the
    three means are floats, the two counts are ints, the syllable counts
    are a sequence of ints and the filtered tokens a sequence of texts.
    They are taken as Python's own [float] and [int]. *)
Record Doc : Type := mkDoc {
  sentence_length_mean : float;
  syllables_per_token_mean : float;
  token_length_mean : float;
  _n_sentences : Z;
  _n_tokens : Z;
  _n_syllables : list Z;
  _filtered_tokens : list string
}.

(** [len] of a Python list or of a token. *)
Definition len {A : Type} (l : list A) : Z := Z.of_nat (List.length l).
Definition token_len (t : string) : Z := Z.of_nat (String.length t).

(** ** The component *)

Module Readability.

Local Open Scope float_scope.

(** [Doc.has_extension] and [Doc.set_extension] are spaCy's: the registry
    of extension attributes of [Doc] maps a name to its getter, and
    [set_extension] (without [force]) raises [ValueError] for a name that
    is already registered.  The getter registered here is the bound method
    [self.readability], recorded as the identity of [self]. *)
Definition has_extension (reg : gmap string nat) (name : string) : bool :=
  bool_decide (is_Some (reg !! name)).

Definition set_extension (reg : gmap string nat) (name : string) (getter : nat)
  : outcome (gmap string nat) :=
  if has_extension reg name then Raise ValueError
  else Return (<[name := getter]> reg).

Definition __init__ (self : nat) (reg : gmap string nat) : outcome (gmap string nat) :=
  if negb (has_extension reg "readability") then
    set_extension reg "readability" self
  else Return reg.

Definition __call__ (doc : Doc) : Doc := doc.

(** The factory registered with the pipeline builds the component, that is,
    runs [__init__] on a new instance [self]. *)
Definition create_readability_component (self : nat) (reg : gmap string nat)
  : outcome (gmap string nat) :=
  __init__ self reg.

Definition hard_words (doc : Doc) : Z :=
  len (List.filter (fun syllable => (3 <=? syllable)%Z) (_n_syllables doc)).

Definition long_words (doc : Doc) : Z :=
  len (List.filter (fun t => (6 <? token_len t)%Z) (_filtered_tokens doc)).

Definition _flesch_reading_ease (doc : Doc) : outcome float :=
  let score :=
    206.835
    - (1.015 * sentence_length_mean doc)
    - (84.6 * syllables_per_token_mean doc) in
  Return score.

Definition _flesch_kincaid_grade (doc : Doc) : outcome float :=
  let score :=
    0.39 * sentence_length_mean doc
    + 11.8 * syllables_per_token_mean doc
    - 15.59 in
  Return score.

Definition _smog {libm : Py.Libm} (doc : Doc) (hard_words : Z) : outcome float :=
  if (3 <=? _n_sentences doc)%Z then
    q ← Py.int_truediv hard_words (_n_sentences doc);
    r ← Py.pow_half (30 * q);
    let smog := (1.043 * r) + 3.1291 in
    Return smog
  else Return 0.

Definition _gunning_fog (doc : Doc) (hard_words : Z) : outcome float :=
  let avg_sent_len := sentence_length_mean doc in
  q ← Py.int_truediv hard_words (_n_tokens doc);
  let percent_hard_words := q * 100 in
  Return (0.4 * (avg_sent_len + percent_hard_words)).

Definition _automated_readability_index (doc : Doc) : outcome float :=
  let score :=
    4.71 * token_length_mean doc
    + 0.5 * sentence_length_mean doc
    - 21.43 in
  Return score.

Definition _coleman_liau_index (doc : Doc) : outcome float :=
  let l := token_length_mean doc * 100 in
  q ← Py.int_float_truediv (_n_sentences doc) (sentence_length_mean doc);
  let s := q * 100 in
  Return (0.0588 * l - 0.296 * s - 15.8).

Definition _lix (doc : Doc) (long_words : Z) : outcome float :=
  q ← Py.int_truediv long_words (_n_tokens doc);
  let percent_long_words := q * 100 in
  Return (sentence_length_mean doc + percent_long_words).

Definition _rix (doc : Doc) (long_words : Z) : outcome float :=
  Py.int_truediv long_words (_n_sentences doc).

(** The dictionary display of [readability]: it is evaluated left to
    right, entry by entry, and the first exception ends the evaluation. *)
Definition scores {libm : Py.Libm} (doc : Doc) (hard_words long_words : Z)
  : outcome (list (string * float)) :=
  v1 ← _flesch_reading_ease doc;
  v2 ← _flesch_kincaid_grade doc;
  v3 ← _smog doc hard_words;
  v4 ← _gunning_fog doc hard_words;
  v5 ← _automated_readability_index doc;
  v6 ← _coleman_liau_index doc;
  v7 ← _lix doc long_words;
  v8 ← _rix doc long_words;
  Return [ ("flesch_reading_ease"%string, v1);
           ("flesch_kincaid_grade"%string, v2);
           ("smog"%string, v3);
           ("gunning_fog"%string, v4);
           ("automated_readability_index"%string, v5);
           ("coleman_liau_index"%string, v6);
           ("lix"%string, v7);
           ("rix"%string, v8) ].

Definition readability {libm : Py.Libm} (doc : Doc) : outcome (list (string * float)) :=
  let hard_words := hard_words doc in
  let long_words := long_words doc in
  scores doc hard_words long_words.

End Readability.

(** ** The specification's wording *)

Module Spec.

Local Open Scope float_scope.

(** Section 3: a count ([n_sentences], [hard_words]) as the float it
    denotes in a formula; the conversion is the machine's, from an
    unsigned integer below [2 ^ 63]. *)
Definition float_of_count (n : Z) : float := of_uint63 (Uint63.of_Z n).

(** Section 4.1: [smog] is [1.043 * sqrt (30 * (hw / ns)) + 3.1291] from
    three sentences on, and the sentinel [0.0] below. *)
Definition smog (hw ns : Z) : float :=
  if (3 <=? ns)%Z then
    1.043 * sqrt (30 * (float_of_count hw / float_of_count ns)) + 3.1291
  else 0.

(** Section 4.1: [automated_readability_index] is
    [4.71 * tl + 0.5 * sl - 21.43]. *)
Definition automated_readability_index (tl sl : float) : float :=
  4.71 * tl + 0.5 * sl - 21.43.

(** Section 4.1: [coleman_liau_index] is [0.0588 * L - 0.296 * S - 15.8]
    with [L = tl * 100] and [S = (ns / sl) * 100]. *)
Definition coleman_liau_index (tl sl : float) (ns : Z) : float :=
  let L := tl * 100 in
  let S := (float_of_count ns / sl) * 100 in
  0.0588 * L - 0.296 * S - 15.8.

(** Section 3: the number of entries of a sequence that satisfy [p]. *)
Fixpoint count {A : Type} (p : A -> bool) (l : list A) : Z :=
  match l with
  | [] => 0
  | x :: l' => ((if p x then 1 else 0) + count p l')%Z
  end.

(** Section 4.1: the eight keys of the result. *)
Definition keys : list string :=
  [ "flesch_reading_ease"; "flesch_kincaid_grade"; "smog"; "gunning_fog";
    "automated_readability_index"; "coleman_liau_index"; "lix"; "rix" ]%string.

(** The entry of a result under a key, when there is a result. *)
Definition entry (key : string) (r : outcome (list (string * float))) : option float :=
  match r with
  | Return m => snd <$> List.find (fun kv => String.eqb (fst kv) key) m
  | Raise _ => None
  end.

(** A float that is neither infinite nor NaN. *)
Definition finite (x : float) : bool := is_finite x.

(** Section 8, the concrete scenario. *)
Definition scenario (doc : Doc) : Prop :=
  sentence_length_mean doc = 10.0 /\
  syllables_per_token_mean doc = 1.5 /\
  token_length_mean doc = 5.0 /\
  _n_sentences doc = 4%Z /\
  _n_tokens doc = 40%Z /\
  Readability.hard_words doc = 4%Z /\
  Readability.long_words doc = 6%Z.

(** Counts that are lengths of Python lists: below [2 ^ 63] in magnitude. *)
Definition counts_in_range (doc : Doc) : Prop :=
  (Z.abs (_n_sentences doc) < 2 ^ 63)%Z /\
  (Z.abs (_n_tokens doc) < 2 ^ 63)%Z /\
  (len (_n_syllables doc) < 2 ^ 63)%Z /\
  (len (_filtered_tokens doc) < 2 ^ 63)%Z.

(** A well-formed, non-degenerate document: counts in range, the three
    divisors nonzero, the means at most [2 ^ 64] in magnitude and the
    sentence length mean at least [2 ^ -64]. *)
Definition ordinary (doc : Doc) : Prop :=
  counts_in_range doc /\
  _n_sentences doc <> 0%Z /\
  _n_tokens doc <> 0%Z /\
  (abs (sentence_length_mean doc) <=? 0x1p64) = true /\
  (0x1p-64 <=? abs (sentence_length_mean doc)) = true /\
  (abs (syllables_per_token_mean doc) <=? 0x1p64) = true /\
  (abs (token_length_mean doc) <=? 0x1p64) = true.

(** The document with one more token, of [s] syllables, and the document
    with one more filtered token [t]. *)
Definition with_syllables (s : Z) (doc : Doc) : Doc :=
  mkDoc (sentence_length_mean doc) (syllables_per_token_mean doc) (token_length_mean doc)
        (_n_sentences doc) (_n_tokens doc) (s :: _n_syllables doc) (_filtered_tokens doc).

Definition with_token (t : string) (doc : Doc) : Doc :=
  mkDoc (sentence_length_mean doc) (syllables_per_token_mean doc) (token_length_mean doc)
        (_n_sentences doc) (_n_tokens doc) (_n_syllables doc) (t :: _filtered_tokens doc).

(** Two documents that differ at most in [sentence_length_mean]. *)
Definition same_but_sentence_length (d d' : Doc) : Prop :=
  syllables_per_token_mean d' = syllables_per_token_mean d /\
  token_length_mean d' = token_length_mean d /\
  _n_sentences d' = _n_sentences d /\
  _n_tokens d' = _n_tokens d /\
  _n_syllables d' = _n_syllables d /\
  _filtered_tokens d' = _filtered_tokens d.

End Spec.

(** ** The component in a program state

    The methods again, as Python runs them: on an instance [self], in a
    state that a method can read and write. *)

Module Stateful.

(** What a method can reach besides its arguments: the registry of the
    extension attributes of [Doc], which belongs to the class and is
    shared by every component and document, and the attributes of the
    [Readability] instances (the [__dict__] of each [self]). *)
Record state : Type := mkState {
  doc_extensions : gmap string nat;
  attributes : gmap nat (gmap string Z)
}.

(** A method body takes the state before to an outcome and the state
    after; an exception leaves the state as it was when it was raised. *)
Definition method (A : Type) : Type := state -> outcome A * state.

#[global] Instance method_ret : MRet method := fun A a st => (Return a, st).
#[global] Instance method_bind : MBind method := fun A B k m st =>
  match m st with
  | (Return a, st') => k a st'
  | (Raise e, st') => (Raise e, st')
  end.

(** A body that is one expression over the arguments: it names no
    attribute of [self] and no global, so that it reads and writes
    nothing of the state. *)
Definition expression {A : Type} (r : outcome A) : method A := fun st => (r, st).

(** [__init__] reads the registry and, when [readability] is not in it,
    writes the getter [self.readability] to it. *)
Definition __init__ (self : nat) : method unit := fun st =>
  match Readability.__init__ self (doc_extensions st) with
  | Return reg => (Return tt, mkState reg (attributes st))
  | Raise e => (Raise e, st)
  end.

(** [Readability(nlp)] in the factory: a new instance, without
    attributes, on which [__init__] runs. *)
Definition create_readability_component : method nat := fun st =>
  let self := fresh (dom (attributes st)) in
  (_ ← __init__ self; mret self) (mkState (doc_extensions st) (<[self := ∅]> (attributes st))).

Definition __call__ (self : nat) (doc : Doc) : method Doc := mret doc.

Definition _flesch_reading_ease (self : nat) (doc : Doc) : method float :=
  expression (Readability._flesch_reading_ease doc).

Definition _flesch_kincaid_grade (self : nat) (doc : Doc) : method float :=
  expression (Readability._flesch_kincaid_grade doc).

Definition _smog {libm : Py.Libm} (self : nat) (doc : Doc) (hard_words : Z) : method float :=
  expression (Readability._smog doc hard_words).

Definition _gunning_fog (self : nat) (doc : Doc) (hard_words : Z) : method float :=
  expression (Readability._gunning_fog doc hard_words).

Definition _automated_readability_index (self : nat) (doc : Doc) : method float :=
  expression (Readability._automated_readability_index doc).

Definition _coleman_liau_index (self : nat) (doc : Doc) : method float :=
  expression (Readability._coleman_liau_index doc).

Definition _lix (self : nat) (doc : Doc) (long_words : Z) : method float :=
  expression (Readability._lix doc long_words).

Definition _rix (self : nat) (doc : Doc) (long_words : Z) : method float :=
  expression (Readability._rix doc long_words).

(** [readability]: two local variables, then eight calls on [self], in
    the order of the dictionary display; the state goes from each call to
    the next. *)
Definition readability {libm : Py.Libm} (self : nat) (doc : Doc)
  : method (list (string * float)) :=
  let hard_words := Readability.hard_words doc in
  let long_words := Readability.long_words doc in
  v1 ← _flesch_reading_ease self doc;
  v2 ← _flesch_kincaid_grade self doc;
  v3 ← _smog self doc hard_words;
  v4 ← _gunning_fog self doc hard_words;
  v5 ← _automated_readability_index self doc;
  v6 ← _coleman_liau_index self doc;
  v7 ← _lix self doc long_words;
  v8 ← _rix self doc long_words;
  mret [ ("flesch_reading_ease"%string, v1);
         ("flesch_kincaid_grade"%string, v2);
         ("smog"%string, v3);
         ("gunning_fog"%string, v4);
         ("automated_readability_index"%string, v5);
         ("coleman_liau_index"%string, v6);
         ("lix"%string, v7);
         ("rix"%string, v8) ].

(** A state without components, and one in which a component [7] with an
    attribute of its own has registered. *)
Definition initial : state := mkState ∅ ∅.
Definition busy : state :=
  mkState (<["readability"%string := 7%nat]> ∅) (<[7%nat := <["calls"%string := 3%Z]> ∅]> ∅).

End Stateful.

(** ** A C library for the examples

    The closed examples below are evaluated with this library: it
    answers as glibc 2.36 does at the two bases named, one float below
    the correctly rounded root, and with the correctly rounded root
    elsewhere; the other bases that the examples reach are [0], where
    Python does not call the library, and [30], where every library
    answers alike. *)
Definition sample_pow_half (x : float) : float :=
  if PrimFloat.Leibniz.eqb x 163.63636363636363 then 12.792042981336625
  else if PrimFloat.Leibniz.eqb x 23.47826086956522 then 4.845437118523489
  else sqrt x.

Lemma sample_pow_half_root (x : float) :
  pos_finite x = true ->
  exists y, Py.adjacent x y /\ pos_finite y = true /\ sample_pow_half x = sqrt y.
Proof.
  intros Hx. unfold sample_pow_half.
  destruct (PrimFloat.Leibniz.eqb x 163.63636363636363) eqn:H1.
  { apply FloatAxioms.Leibniz.eqb_spec in H1. subst x.
    exists (next_down 163.63636363636363).
    split; [right; right; reflexivity|]. split; vm_compute; reflexivity. }
  destruct (PrimFloat.Leibniz.eqb x 23.47826086956522) eqn:H2.
  { apply FloatAxioms.Leibniz.eqb_spec in H2. subst x.
    exists (next_down 23.47826086956522).
    split; [right; right; reflexivity|]. split; vm_compute; reflexivity. }
  exists x. split; [left; reflexivity|]. split; [exact Hx|reflexivity].
Qed.

#[global] Instance sample_libm : Py.Libm :=
  {| Py.c_pow_half := sample_pow_half; Py.c_pow_half_root := sample_pow_half_root |}.

(** A document of the scenario: four hard words among six syllable counts,
    six long words among seven tokens. *)
Definition scenario_doc : Doc :=
  mkDoc 10.0 1.5 5.0 4 40 [3; 4; 1; 3; 2; 5]%Z
        ["reading"; "ability"; "measure"; "because"; "letters"; "without"; "tokens"]%string.

(** An empty document: no token, no sentence. *)
Definition empty_doc : Doc := mkDoc 0 0 0 0 0 [] [].

(** A scored document without tokens. *)
Definition tokenless_doc : Doc := mkDoc 10.0 1.5 5.0 4 0 [] [].

(** Two documents that differ only in [sentence_length_mean], by one unit
    in the last place. *)
Definition short_doc : Doc := mkDoc 0.001 1.5 5.0 4 40 [] [].
Definition near_doc : Doc := mkDoc (next_up 0.001) 1.5 5.0 4 40 [] [].

(** Two documents that differ only in [sentence_length_mean], by a lot. *)
Definition long_doc : Doc :=
  mkDoc 20.0 1.5 5.0 4 40 (_n_syllables scenario_doc) (_filtered_tokens scenario_doc).

(** A document whose divisors are all nonzero and whose statistics are all
    finite, with a sentence length mean of [5e-324]. *)
Definition tiny_doc : Doc := mkDoc 5e-324 1.5 5.0 4 40 [] [].

(** Sixty hard words in eleven sentences: the base of the root,
    [30 * (60 / 11)], is [163.63636363636363]. *)
Definition tie_doc : Doc := mkDoc 20.0 1.5 5.0 11 220 (List.repeat 3%Z 60) [].

(** A document on which the order of the operations shows in the last
    digits of the scores. *)
Definition order_doc : Doc := mkDoc 9.8 1.5 3.0 5 49 [] [].

(** ** Rounding to nearest, ties to even

    [SpecFloat] rounds by shifting a mantissa right bit by bit, keeping a
    round bit and a sticky bit.  The definitions below restate that as
    arithmetic on integers: [rnd_shift m k] is [m / 2 ^ k] rounded to the
    nearest integer, ties to even, and [Rnd L s N] is the float nearest to
    [N * 2 ^ L] with sign [s]. *)

Module Round.

(** The record after [k >= 1] one-bit shifts of an exact mantissa. *)
Definition shifted (m k : Z) : shr_record :=
  {| shr_m := m / 2 ^ k;
     shr_r := Z.testbit m (k - 1);
     shr_s := negb (m mod 2 ^ (k - 1) =? 0) |}.

Definition rnd_shift (m k : Z) : Z :=
  if k <=? 0 then m
  else
    let q := m / 2 ^ k in
    let r := m mod 2 ^ k in
    let h := 2 ^ (k - 1) in
    if r <? h then q
    else if h <? r then q + 1
    else if Z.even q then q else q + 1.

Definition SF_sign_is (s : bool) (x : spec_float) : Prop :=
  match x with
  | S754_zero s' | S754_infinity s' | S754_finite s' _ _ => s' = s
  | S754_nan => False
  end.

Definition SF_nan (x : spec_float) : bool :=
  match x with S754_nan => true | _ => false end.

Definition SF_fz (x : spec_float) : bool :=
  match x with
  | S754_zero _ | S754_finite _ _ _ => true
  | S754_infinity _ | S754_nan => false
  end.

Definition unsign_zero (x : spec_float) : spec_float :=
  match x with S754_zero _ => S754_zero false | _ => x end.

(** A zero, or a finite number below [2 ^ K] in magnitude. *)
Definition SF_mag_le (K : Z) (x : spec_float) : Prop :=
  match x with
  | S754_zero _ => True
  | S754_finite _ m e => Zdigits2 (Z.pos m) + e <= K
  | _ => False
  end.

(** A finite number of magnitude at least [2 ^ (K - 1)]. *)
Definition SF_mag_ge (K : Z) (x : spec_float) : Prop :=
  match x with
  | S754_finite _ m e => K <= Zdigits2 (Z.pos m) + e
  | _ => False
  end.

(** Order on (mantissa, exponent) pairs of canonical numbers. *)
Definition lexle (a b : Z * Z) : Prop :=
  snd a < snd b \/ (snd a = snd b /\ fst a <= fst b).

(** The two bits below a mantissa that a location stands for. *)
Definition loc_code (l : location) : Z :=
  match l with
  | loc_Exact => 0
  | loc_Inexact Lt => 1
  | loc_Inexact Eq => 2
  | loc_Inexact Gt => 3
  end.

(** [N] stands for the quotient [2 * A / B]: an even [N] is the quotient
    itself, an odd [N] a quotient strictly between [N - 1] and [N + 1]. *)
Definition stands_div (N A B : Z) : Prop :=
  if Z.even N then N * B = 2 * A else (N - 1) * B < 2 * A < (N + 1) * B.

(** The stand-in that a division with remainder gives. *)
Definition sticky_div (A B : Z) : Z :=
  2 * (A / B) + (if A mod B =? 0 then 0 else 1).

Section Format.
Variables prec emax : Z.

Definition fin_or_inf (s : bool) (M E : Z) : spec_float :=
  match M with
  | Z0 => S754_zero s
  | Zpos m => if E <=? emax - prec then S754_finite s m E else S754_infinity s
  | Zneg _ => S754_nan
  end.

(** The second stage of [binary_round_aux]. *)
Definition finish (s : bool) (M E : Z) : spec_float :=
  let '(mrs, e) := shr_fexp prec emax M E loc_Exact in
  fin_or_inf s (shr_m mrs) e.

(** Exponent and mantissa of the rounding of [N * 2 ^ L], before the carry
    is normalised. *)
Definition rnd_exp (L N : Z) : Z := fexp prec emax (Zdigits2 N + L).

Definition rnd_man (L N : Z) : Z :=
  let E := rnd_exp L N in
  if L <=? E then rnd_shift N (E - L) else N * 2 ^ (L - E).

Definition norm_pair (M E : Z) : Z * Z :=
  if M =? 2 ^ prec then (2 ^ (prec - 1), E + 1) else (M, E).

Definition rnd_pair (L N : Z) : Z * Z :=
  norm_pair (rnd_man L N) (rnd_exp L N).

Definition Rnd (L : Z) (s : bool) (N : Z) : spec_float :=
  fin_or_inf s (fst (rnd_pair L N)) (snd (rnd_pair L N)).

Definition RndZ (L V : Z) : spec_float :=
  match V with
  | Z0 => S754_zero false
  | Zpos m => Rnd L false (Zpos m)
  | Zneg m => Rnd L true (Zpos m)
  end.

(** What the first stage of a rounding leaves: a mantissa of at most
    [prec] bits (or the carry [2 ^ prec]) at an exponent no smaller than
    [emin], normal above [emin]. *)
Definition rounded (M E : Z) : Prop :=
  0 <= M <= 2 ^ prec /\ SpecFloat.emin prec emax <= E /\
  (SpecFloat.emin prec emax < E -> 2 ^ (prec - 1) <= M).

(** The value of a finite number, in units of [2 ^ emin]. *)
Definition SFval (x : spec_float) : Z :=
  match x with
  | S754_finite s m e => cond_Zopp s (Z.pos m * 2 ^ (e - SpecFloat.emin prec emax))
  | _ => 0
  end.

End Format.

End Round.

(** A [float] that is zero or finite and below [2 ^ K] in magnitude, and a
    finite [float] of magnitude at least [2 ^ (K - 1)]. *)
Definition mag_le (K : Z) (x : float) : Prop := Round.SF_mag_le K (Prim2SF x).
Definition mag_ge (K : Z) (x : float) : Prop := Round.SF_mag_ge K (Prim2SF x).

(** A constant below [2 ^ 8] in magnitude: every constant of the formulas. *)
Definition small_const (c : float) : bool :=
  match Prim2SF c with
  | S754_zero _ => true
  | S754_finite _ m e => (Zdigits2 (Z.pos m) + e <=? 8)%Z
  | _ => false
  end.

(** * Facts about [SpecFloat]'s rounding *)

Local Open Scope Z_scope.
Import Round.

(** ** Number of bits *)

Lemma digits2_pos_size (p : positive) : digits2_pos p = Pos.size p.
Proof. induction p; simpl; congruence. Qed.

Lemma Zdigits2_log2 (m : Z) : 0 < m -> Zdigits2 m = Z.log2 m + 1.
Proof.
  destruct m as [|p|p]; try lia. intros _. simpl.
  rewrite digits2_pos_size. induction p; simpl; try lia.
Qed.

Lemma Zdigits2_nonneg (m : Z) : 0 <= Zdigits2 m.
Proof. destruct m; simpl; lia. Qed.

(** [Zdigits2 m] is the number of bits of [m]. *)
Lemma Zdigits2_bounds (m : Z) : 0 < m -> 2 ^ (Zdigits2 m - 1) <= m < 2 ^ Zdigits2 m.
Proof.
  intros H. rewrite Zdigits2_log2 by done.
  replace (Z.log2 m + 1 - 1) with (Z.log2 m) by lia.
  replace (Z.log2 m + 1) with (Z.succ (Z.log2 m)) by lia.
  apply Z.log2_spec; done.
Qed.

Lemma Zdigits2_unique (m d : Z) : 0 < d -> 2 ^ (d - 1) <= m < 2 ^ d -> Zdigits2 m = d.
Proof.
  intros Hd [H1 H2].
  assert (0 < m) by (pose proof (Z.pow_pos_nonneg 2 (d - 1)); lia).
  rewrite Zdigits2_log2 by done.
  assert (Z.log2 m = d - 1); [|lia].
  apply Z.log2_unique; [lia|]. replace (Z.succ (d - 1)) with d by lia. done.
Qed.

Lemma Zdigits2_le (m d : Z) : 0 <= d -> 0 <= m < 2 ^ d -> Zdigits2 m <= d.
Proof.
  intros Hd [H1 H2]. destruct (Z.eq_dec m 0) as [->|]; [simpl; lia|].
  pose proof (Zdigits2_bounds m ltac:(lia)) as [Hb _].
  destruct (Z_lt_le_dec d (Zdigits2 m)); [|lia].
  assert (2 ^ d <= 2 ^ (Zdigits2 m - 1)) by (apply Z.pow_le_mono_r; lia). lia.
Qed.

Lemma Zdigits2_ge (m d : Z) : 2 ^ d <= m -> 0 <= d -> d + 1 <= Zdigits2 m.
Proof.
  intros H Hd.
  assert (0 < m) by (pose proof (Z.pow_pos_nonneg 2 d); lia).
  pose proof (Zdigits2_bounds m ltac:(lia)) as [_ Hb].
  destruct (Z_lt_le_dec (Zdigits2 m) (d + 1)); [|lia].
  assert (2 ^ Zdigits2 m <= 2 ^ d) by (apply Z.pow_le_mono_r; lia). lia.
Qed.

Lemma Zdigits2_mono (a b : Z) : 0 <= a <= b -> Zdigits2 a <= Zdigits2 b.
Proof.
  intros [Ha Hab]. destruct (Z.eq_dec a 0) as [->|]; [apply Zdigits2_nonneg|].
  rewrite !Zdigits2_log2 by lia. pose proof (Z.log2_le_mono a b Hab). lia.
Qed.

Lemma Zdigits2_mul_pow2 (m k : Z) : 0 < m -> 0 <= k -> Zdigits2 (m * 2 ^ k) = Zdigits2 m + k.
Proof.
  intros Hm Hk. 
  assert (0 < 2 ^ k) by (apply Z.pow_pos_nonneg; lia).
  rewrite !Zdigits2_log2 by nia.
  rewrite Z.log2_mul_pow2 by lia. lia.
Qed.

Lemma Zdigits2_div_pow2 (m k : Z) : 0 <= m -> 0 <= k -> Zdigits2 (m / 2 ^ k) = Z.max 0 (Zdigits2 m - k).
Proof.
  intros Hm Hk.
  destruct (Z.eq_dec m 0) as [->|]. { rewrite Z.div_0_l; [simpl; lia|]. pose proof (Z.pow_pos_nonneg 2 k); lia. }
  pose proof (Zdigits2_bounds m ltac:(lia)) as [Hb1 Hb2].
  assert (0 < 2 ^ k) by (apply Z.pow_pos_nonneg; lia).
  destruct (Z_lt_le_dec k (Zdigits2 m)).
  - rewrite Z.max_r by lia. apply Zdigits2_unique; [lia|]. split.
    + apply Z.div_le_lower_bound; [lia|]. rewrite <- Z.pow_add_r by lia.
      replace (k + (Zdigits2 m - k - 1)) with (Zdigits2 m - 1) by lia. done.
    + apply Z.div_lt_upper_bound; [lia|]. rewrite <- Z.pow_add_r by lia.
      replace (k + (Zdigits2 m - k)) with (Zdigits2 m) by lia. done.
  - rewrite Z.max_l by lia. rewrite Z.div_small; [done|]. split; [lia|].
    assert (2 ^ Zdigits2 m <= 2 ^ k) by (apply Z.pow_le_mono_r; lia). lia.
Qed.

(** ** Shifting a mantissa right *)

(** [SpecFloat] iterates over a binary positive; here over a [nat]. *)
Lemma iter_pos_nat {A} (f : A -> A) (p : positive) (x : A) :
  SpecFloat.iter_pos f p x = Nat.iter (Pos.to_nat p) f x.
Proof.
  revert x. induction p as [p IH|p IH|]; intros x; cbn [SpecFloat.iter_pos].
  - rewrite !IH. rewrite Pos2Nat.inj_xI. rewrite Nat.iter_succ_r, <- Nat.iter_add.
    f_equal. lia.
  - rewrite !IH. rewrite Pos2Nat.inj_xO. rewrite <- Nat.iter_add. f_equal. lia.
  - done.
Qed.

Lemma shr_1_m (r : shr_record) : 0 <= shr_m r -> shr_m (shr_1 r) = shr_m r / 2.
Proof.
  destruct r as [m r s]. simpl. intros H.
  destruct m as [|[p|p|]|]; try lia; cbn [shr_m].
  - done.
  - rewrite Pos2Z.inj_xI. apply (Z.div_unique_pos _ _ _ 1); lia.
  - rewrite Pos2Z.inj_xO. apply (Z.div_unique_pos _ _ _ 0); lia.
  - done.
Qed.

Lemma shr_1_r (r : shr_record) : 0 <= shr_m r -> shr_r (shr_1 r) = Z.odd (shr_m r).
Proof. destruct r as [m r s]. simpl. intros H. destruct m as [|[p|p|]|]; simpl; try lia; done. Qed.

Lemma shr_1_s (r : shr_record) : 0 <= shr_m r -> shr_s (shr_1 r) = shr_r r || shr_s r.
Proof. destruct r as [m r s]. simpl. intros H. destruct m as [|[p|p|]|]; simpl; try lia; done. Qed.

Lemma shr_iter_m (n : nat) (r : shr_record) :
  0 <= shr_m r -> shr_m (Nat.iter n shr_1 r) = shr_m r / 2 ^ Z.of_nat n.
Proof.
  intros H. induction n as [|n IH].
  - simpl. rewrite Z.div_1_r. done.
  - rewrite Nat.iter_succ. rewrite shr_1_m.
    + rewrite IH. rewrite Nat2Z.inj_succ, Z.pow_succ_r by lia.
      rewrite Z.div_div by (try apply Z.pow_pos_nonneg; lia). f_equal. lia.
    + rewrite IH. apply Z.div_pos; [lia|]. apply Z.pow_pos_nonneg; lia.
Qed.

Lemma mod_pow2_succ (m k : Z) : 0 <= k ->
  m mod 2 ^ (k + 1) = m mod 2 ^ k + (if Z.testbit m k then 2 ^ k else 0).
Proof.
  intros Hk. pose proof (Z.testbit_spec' m k Hk) as Hb.
  assert (0 < 2 ^ k) by (apply Z.pow_pos_nonneg; lia).
  rewrite Z.pow_add_r by lia. change (2 ^ 1) with 2.
  rewrite Z.rem_mul_r by lia. rewrite <- Hb.
  destruct (Z.testbit m k); simpl; lia.
Qed.

Lemma shr_record_ext (a b : shr_record) :
  shr_m a = shr_m b -> shr_r a = shr_r b -> shr_s a = shr_s b -> a = b.
Proof. destruct a, b; simpl; congruence. Qed.

Lemma shr_1_shifted (m k : Z) : 0 <= m -> 1 <= k -> shr_1 (shifted m k) = shifted m (k + 1).
Proof.
  intros Hm Hk.
  assert (0 < 2 ^ k) by (apply Z.pow_pos_nonneg; lia).
  assert (0 < 2 ^ (k - 1)) by (apply Z.pow_pos_nonneg; lia).
  assert (Hq : 0 <= shr_m (shifted m k)) by (apply Z.div_pos; lia).
  apply shr_record_ext.
  - rewrite shr_1_m by done. simpl.
    rewrite Z.pow_add_r by lia. rewrite Z.div_div by lia. done.
  - rewrite shr_1_r by done. simpl.
    replace (k + 1 - 1) with k by lia. rewrite Z.testbit_odd, Z.shiftr_div_pow2 by lia. done.
  - rewrite shr_1_s by done. simpl.
    replace (k + 1 - 1) with k by lia.
    pose proof (mod_pow2_succ m (k - 1) ltac:(lia)) as Hs.
    replace (k - 1 + 1) with k in Hs by lia. rewrite Hs.
    pose proof (Z.mod_pos_bound m (2 ^ (k - 1)) ltac:(lia)).
    destruct (Z.testbit m (k - 1)); simpl.
    + symmetry. apply negb_true_iff. apply Z.eqb_neq. lia.
    + rewrite Z.add_0_r. done.
Qed.

(** After [n + 1] one-bit shifts the mantissa is the quotient by
    [2 ^ (n + 1)], the round bit is bit [n] and the sticky bit says whether
    a lower bit was set. *)
Lemma shr_iter_exact (n : nat) (m : Z) : 0 <= m ->
  Nat.iter (S n) shr_1 {| shr_m := m; shr_r := false; shr_s := false |} = shifted m (Z.of_nat (S n)).
Proof.
  intros Hm. induction n as [|n IH].
  - cbn [Nat.iter]. apply shr_record_ext.
    + rewrite shr_1_m by done. cbn [shr_m shifted].
      change (Z.of_nat 1) with 1. rewrite Z.pow_1_r. done.
    + rewrite shr_1_r by done. cbn [shr_m shr_r shifted].
      change (Z.of_nat 1 - 1) with 0. rewrite Z.bit0_odd. done.
    + rewrite shr_1_s by done. cbn [shr_r shr_s shifted].
      change (Z.of_nat 1 - 1) with 0. rewrite Z.pow_0_r, Z.mod_1_r. done.
  - rewrite Nat.iter_succ, IH. rewrite shr_1_shifted by lia. f_equal. lia.
Qed.

Lemma shr_exact (m e n : Z) : 0 <= m ->
  shr {| shr_m := m; shr_r := false; shr_s := false |} e n =
  if 0 <? n then (shifted m n, e + n) else ({| shr_m := m; shr_r := false; shr_s := false |}, e).
Proof.
  intros Hm. destruct n as [|p|p]; cbn [shr Z.ltb Z.compare]; try done.
  rewrite iter_pos_nat.
  destruct (Pos2Nat.is_succ p) as [n Hn]. rewrite Hn, shr_iter_exact by done.
  rewrite <- Hn, positive_nat_Z. done.
Qed.

Lemma shr_gen_m (r : shr_record) (e n : Z) : 0 <= shr_m r ->
  shr_m (fst (shr r e n)) = (if 0 <? n then shr_m r / 2 ^ n else shr_m r) /\
  snd (shr r e n) = (if 0 <? n then e + n else e).
Proof.
  intros Hm. destruct n as [|p|p]; cbn [shr Z.ltb Z.compare fst snd]; try done.
  rewrite iter_pos_nat, shr_iter_m by done. rewrite positive_nat_Z. done.
Qed.

(** Rounding the shifted record to nearest even is [rnd_shift]. *)
Lemma rne_shifted (m k : Z) : 0 <= m -> 1 <= k ->
  round_nearest_even (shr_m (shifted m k)) (loc_of_shr_record (shifted m k)) = rnd_shift m k.
Proof.
  intros Hm Hk. unfold rnd_shift.
  destruct (Z.leb_spec k 0); [lia|]. cbn [shifted shr_m loc_of_shr_record].
  pose proof (mod_pow2_succ m (k - 1) ltac:(lia)) as Hs.
  replace (k - 1 + 1) with k in Hs by lia.
  assert (0 < 2 ^ (k - 1)) by (apply Z.pow_pos_nonneg; lia).
  pose proof (Z.mod_pos_bound m (2 ^ (k - 1)) ltac:(lia)) as Hb.
  cbv zeta. rewrite Hs.
  destruct (Z.testbit m (k - 1)), (Z.eqb_spec (m mod 2 ^ (k - 1)) 0) as [Hz|Hz];
    cbn [negb round_nearest_even].
  - rewrite Hz. rewrite Z.add_0_l. rewrite Z.ltb_irrefl. done.
  - destruct (Z.ltb_spec (m mod 2 ^ (k - 1) + 2 ^ (k - 1)) (2 ^ (k - 1))); [lia|].
    destruct (Z.ltb_spec (2 ^ (k - 1)) (m mod 2 ^ (k - 1) + 2 ^ (k - 1))); [done|lia].
  - destruct (Z.ltb_spec (m mod 2 ^ (k - 1) + 0) (2 ^ (k - 1))); [done|lia].
  - destruct (Z.ltb_spec (m mod 2 ^ (k - 1) + 0) (2 ^ (k - 1))); [done|lia].
Qed.

Lemma rnd_shift_bounds (m k : Z) : 0 <= m -> 0 <= k ->
  m / 2 ^ k <= rnd_shift m k <= m / 2 ^ k + 1.
Proof.
  intros Hm Hk. unfold rnd_shift. destruct (Z.leb_spec k 0).
  - replace k with 0 by lia. rewrite Z.pow_0_r, Z.div_1_r. lia.
  - cbv zeta. repeat case_match; lia.
Qed.

Lemma rnd_shift_0 (m : Z) : rnd_shift m 0 = m.
Proof. done. Qed.

Lemma rnd_shift_exact (m j : Z) : 0 <= j -> rnd_shift (m * 2 ^ j) j = m.
Proof.
  intros Hj. unfold rnd_shift. destruct (Z.leb_spec j 0).
  - replace j with 0 by lia. rewrite Z.pow_0_r. lia.
  - cbv zeta. assert (0 < 2 ^ j) by (apply Z.pow_pos_nonneg; lia).
    assert (0 < 2 ^ (j - 1)) by (apply Z.pow_pos_nonneg; lia).
    rewrite Z.mod_mul, Z.div_mul by lia.
    destruct (Z.ltb_spec 0 (2 ^ (j - 1))); [done|lia].
Qed.

Lemma rnd_shift_scale (m k j : Z) : 0 <= k -> 0 <= j ->
  rnd_shift (m * 2 ^ j) (k + j) = rnd_shift m k.
Proof.
  intros Hk Hj. destruct (Z.eq_dec k 0) as [->|Hk0].
  { rewrite Z.add_0_l, rnd_shift_exact by done. done. }
  unfold rnd_shift.
  destruct (Z.leb_spec (k + j) 0); [lia|]. destruct (Z.leb_spec k 0); [lia|].
  cbv zeta.
  assert (0 < 2 ^ j) by (apply Z.pow_pos_nonneg; lia).
  assert (0 < 2 ^ k) by (apply Z.pow_pos_nonneg; lia).
  assert (0 < 2 ^ (k - 1)) by (apply Z.pow_pos_nonneg; lia).
  rewrite (Z.pow_add_r 2 k j) by lia.
  replace (k + j - 1) with ((k - 1) + j) by lia. rewrite (Z.pow_add_r 2 (k - 1) j) by lia.
  rewrite Z.div_mul_cancel_r by lia.
  rewrite Z.mul_mod_distr_r by lia.
  set (r := m mod 2 ^ k). set (h := 2 ^ (k - 1)). set (t := 2 ^ j) in *.
  destruct (Z.ltb_spec (r * t) (h * t)), (Z.ltb_spec r h); try nia; try done.
  destruct (Z.ltb_spec (h * t) (r * t)), (Z.ltb_spec h r); try nia; done.
Qed.

(** Rounding to nearest even is monotone. *)
Lemma rnd_shift_mono (m1 m2 k : Z) : 0 <= m1 <= m2 -> rnd_shift m1 k <= rnd_shift m2 k.
Proof.
  intros [H1 H2]. unfold rnd_shift. destruct (Z.leb_spec k 0); [done|]. cbv zeta.
  assert (Hp : 0 < 2 ^ k) by (apply Z.pow_pos_nonneg; lia).
  pose proof (Z.div_le_mono m1 m2 (2 ^ k) Hp H2) as Hq.
  pose proof (Z.div_mod m1 (2 ^ k) ltac:(lia)) as E1.
  pose proof (Z.div_mod m2 (2 ^ k) ltac:(lia)) as E2.
  pose proof (Z.mod_pos_bound m1 (2 ^ k) Hp) as B1.
  pose proof (Z.mod_pos_bound m2 (2 ^ k) Hp) as B2.
  set (q1 := m1 / 2 ^ k) in *. set (q2 := m2 / 2 ^ k) in *.
  set (r1 := m1 mod 2 ^ k) in *. set (r2 := m2 mod 2 ^ k) in *.
  set (h := 2 ^ (k - 1)).
  destruct (Z.eq_dec q1 q2) as [Heq|Hne].
  - rewrite <- Heq in *. assert (r1 <= r2) by nia.
    destruct (Z.ltb_spec r1 h), (Z.ltb_spec r2 h), (Z.ltb_spec h r1), (Z.ltb_spec h r2);
      try lia; destruct (Z.even q1); lia.
  - assert (q1 + 1 <= q2) by lia.
    repeat case_match; lia.
Qed.

Lemma pow2_pos (k : Z) : 0 <= k -> 0 < 2 ^ k.
Proof. intros. apply Z.pow_pos_nonneg; lia. Qed.

Lemma Zdigits2_pow2 (k : Z) : 0 <= k -> Zdigits2 (2 ^ k) = k + 1.
Proof.
  intros Hk. apply Zdigits2_unique; [lia|]. replace (k + 1 - 1) with k by lia.
  split; [lia|]. apply Z.pow_lt_mono_r; lia.
Qed.

Lemma rne_cases (x : Z) (l : location) :
  round_nearest_even x l = x \/ round_nearest_even x l = x + 1.
Proof. destruct l as [|[]]; simpl; try destruct (Z.even x); auto. Qed.

Lemma iter_xO (m d : positive) : Z.pos (Pos.iter xO m d) = Z.pos m * 2 ^ Z.pos d.
Proof.
  induction d as [|d IH] using Pos.peano_ind.
  - simpl. lia.
  - rewrite Pos.iter_succ, Pos2Z.inj_xO, IH. rewrite Pos2Z.inj_succ, Z.pow_succ_r by lia. lia.
Qed.

Lemma SFleb_signs (a b : spec_float) :
  SF_sign_is true a \/ a = S754_zero false ->
  SF_sign_is false b \/ b = S754_zero true ->
  SFleb a b = true.
Proof.
  intros Ha Hb.
  destruct a as [[]|[]| |[] ? ?], b as [[]|[]| |[] ? ?]; try done;
    destruct Ha as [Ha|Ha]; try done; destruct Hb as [Hb|Hb]; done.
Qed.

Lemma shl_align_fst (mx : positive) (ex ez : Z) :
  ez <= ex -> Z.pos (fst (shl_align mx ex ez)) = Z.pos mx * 2 ^ (ex - ez).
Proof.
  intros H. unfold shl_align. destruct (ez - ex) as [|d|d] eqn:Hd; try lia; cbn [fst].
  - replace (ex - ez) with 0 by lia. lia.
  - rewrite iter_xO. do 2 f_equal. lia.
Qed.

Lemma SFcompare_refl (r : spec_float) : SF_nan r = false -> SFcompare r r = Some Eq.
Proof.
  destruct r as [[]|[]| |[] m e]; try done; intros _; cbn [SFcompare];
    rewrite Z.compare_refl, Pos.compare_cont_refl; done.
Qed.

Lemma SFleb_refl (r : spec_float) : SF_nan r = false -> SFleb r r = true.
Proof. intros H. unfold SFleb. rewrite SFcompare_refl by done. done. Qed.

Lemma SFleb_ninf (r : spec_float) : SF_nan r = false -> SFleb (S754_infinity true) r = true.
Proof. destruct r as [[]|[]| |[] m e]; done. Qed.

Lemma SFleb_pinf (r : spec_float) : SF_nan r = false -> SFleb r (S754_infinity false) = true.
Proof. destruct r as [[]|[]| |[] m e]; done. Qed.

Lemma SFleb_unsign (a b : spec_float) : SFleb a b = SFleb (unsign_zero a) (unsign_zero b).
Proof. destruct a as [[]|[]| |[] ? ?], b as [[]|[]| |[] ? ?]; done. Qed.

Lemma SFleb_not_nan (a b : spec_float) : SFleb a b = true -> SF_nan a = false /\ SF_nan b = false.
Proof. destruct a as [[]|[]| |[] ? ?], b as [[]|[]| |[] ? ?]; done. Qed.

Lemma SFltb_leb (a b : spec_float) : SFltb a b = true -> SFleb a b = true.
Proof. unfold SFltb, SFleb. destruct (SFcompare a b) as [[]|]; done. Qed.

Lemma SFcompare_opp (x y : spec_float) : SFcompare (SFopp y) (SFopp x) = SFcompare x y.
Proof.
  destruct x as [[]|[]| |[] mx ex], y as [[]|[]| |[] my ey]; try done; cbn [SFopp SFcompare negb].
  - rewrite (Z.compare_antisym ex ey). destruct (ex ?= ey); cbn [CompOpp]; try done.
    rewrite Pos.compare_cont_antisym. done.
  - rewrite (Z.compare_antisym ex ey). destruct (ex ?= ey); cbn [CompOpp]; try done.
    rewrite Pos.compare_cont_antisym. done.
Qed.

Lemma SFopp_antitone (x y : spec_float) : SFleb x y = true -> SFleb (SFopp y) (SFopp x) = true.
Proof. unfold SFleb. rewrite SFcompare_opp. done. Qed.

Lemma sign_not_nan (s : bool) (r : spec_float) : SF_sign_is s r -> SF_nan r = false.
Proof. destruct r; done. Qed.

Lemma cond_Zopp_negb (s : bool) (v : Z) : cond_Zopp (negb s) v = - cond_Zopp s v.
Proof. destruct s; cbn [negb cond_Zopp]; lia. Qed.

(** ** A format with [prec] bits of precision and exponents below [emax] *)

Section Format.
Variables prec emax : Z.
Hypothesis Hprec : 0 < prec.
Hypothesis Hemax : prec < emax.

Local Abbreviation emin := (SpecFloat.emin prec emax).
Local Abbreviation fexp := (SpecFloat.fexp prec emax).
Local Abbreviation valid := (SpecFloat.valid_binary prec emax).
Local Abbreviation norm_pair := (Round.norm_pair prec).
Local Abbreviation rounded := (Round.rounded prec emax).
Local Abbreviation fin_or_inf := (Round.fin_or_inf prec emax).
Local Abbreviation finish := (Round.finish prec emax).
Local Abbreviation Rnd := (Round.Rnd prec emax).
Local Abbreviation RndZ := (Round.RndZ prec emax).
Local Abbreviation rnd_pair := (Round.rnd_pair prec emax).
Local Abbreviation rnd_man := (Round.rnd_man prec emax).
Local Abbreviation rnd_exp := (Round.rnd_exp prec emax).
Local Abbreviation SFval := (Round.SFval prec emax).

Lemma fexp_eq (z : Z) : fexp z = Z.max (z - prec) emin.
Proof. done. Qed.

Lemma emin_eq : emin = 3 - emax - prec.
Proof. done. Qed.

Lemma fexp_ge_emin (z : Z) : emin <= fexp z.
Proof. rewrite fexp_eq. lia. Qed.

Lemma fexp_mono (a b : Z) : a <= b -> fexp a <= fexp b.
Proof. rewrite !fexp_eq. lia. Qed.

Lemma pow2_prec_split : 2 ^ prec = 2 * 2 ^ (prec - 1).
Proof using Hprec. rewrite <- Z.pow_succ_r by lia. f_equal. lia. Qed.

Lemma finish_small (s : bool) (M E : Z) :
  0 <= M -> Zdigits2 M <= prec -> emin <= E ->
  finish s M E = fin_or_inf s M E.
Proof.
  intros HM Hd HE. unfold finish, shr_fexp. cbn [shr_record_of_loc].
  rewrite shr_exact by done. rewrite fexp_eq.
  destruct (Z.ltb_spec 0 (Z.max (Zdigits2 M + E - prec) emin - E)); [lia|]. done.
Qed.

Lemma finish_carry (s : bool) (E : Z) :
  emin <= E ->
  finish s (2 ^ prec) E = fin_or_inf s (2 ^ (prec - 1)) (E + 1).
Proof using Hprec.
  intros HE. unfold finish, shr_fexp. cbn [shr_record_of_loc].
  pose proof (pow2_pos prec ltac:(lia)).
  rewrite shr_exact by lia. rewrite fexp_eq, Zdigits2_pow2 by lia.
  replace (Z.max (prec + 1 + E - prec) emin - E) with 1 by lia.
  cbn [Z.ltb Z.compare shifted shr_m]. rewrite Z.pow_1_r.
  rewrite pow2_prec_split. rewrite Z.mul_comm, Z.div_mul by lia. done.
Qed.

(** The second stage only normalises a carry. *)
Lemma finish_rounded (s : bool) (M E : Z) :
  rounded M E ->
  finish s M E =
  fin_or_inf s (fst (norm_pair M E)) (snd (norm_pair M E)).
Proof using Hprec.
  intros ([HM1 HM2] & HE & _). unfold norm_pair.
  destruct (Z.eqb_spec M (2 ^ prec)) as [->|Hne]; cbn [fst snd].
  - apply finish_carry; done.
  - apply finish_small; try done. apply Zdigits2_le; lia.
Qed.

Lemma div_pow2_rounded (m e : Z) :
  0 <= m -> e <= fexp (Zdigits2 m + e) ->
  let E := fexp (Zdigits2 m + e) in
  let q := m / 2 ^ (E - e) in
  0 <= q < 2 ^ prec /\ (emin < E -> 2 ^ (prec - 1) <= q).
Proof using Hprec.
  intros Hm He E q.
  assert (Hk : 0 <= E - e) by lia.
  pose proof (pow2_pos (E - e) Hk).
  assert (Hq : 0 <= q) by (apply Z.div_pos; lia).
  pose proof (Zdigits2_div_pow2 m (E - e) Hm Hk) as Hd. fold q in Hd.
  assert (HE : E = Z.max (Zdigits2 m + e - prec) emin) by done.
  pose proof (Zdigits2_nonneg m).
  split; [split; [done|]|].
  - destruct (Z.eq_dec q 0) as [->|]; [apply pow2_pos; lia|].
    pose proof (Zdigits2_bounds q ltac:(lia)) as [_ Hb].
    assert (2 ^ Zdigits2 q <= 2 ^ prec) by (apply Z.pow_le_mono_r; lia). lia.
  - intros HEm.
    assert (Zdigits2 q = prec) by lia.
    assert (0 < q). { destruct (Z.eq_dec q 0) as [Hq0|]; [|lia]. rewrite Hq0 in *. simpl in *. lia. }
    pose proof (Zdigits2_bounds q ltac:(lia)) as [Hb _]. congruence.
Qed.

(** Any rounding with [e] below the target exponent. *)
Lemma round_aux_gen (s : bool) (m e : Z) (l : location) :
  0 <= m -> e <= fexp (Zdigits2 m + e) ->
  exists M1,
    let E := fexp (Zdigits2 m + e) in
    (M1 = m / 2 ^ (E - e) \/ M1 = m / 2 ^ (E - e) + 1) /\
    rounded M1 E /\
    binary_round_aux prec emax s m e l =
    fin_or_inf s (fst (norm_pair M1 E)) (snd (norm_pair M1 E)).
Proof using Hprec.
  intros Hm He. set (E := fexp (Zdigits2 m + e)).
  pose proof (div_pow2_rounded m e Hm He) as [Hq1 Hq2]. fold E in Hq1, Hq2.
  unfold binary_round_aux, shr_fexp. fold E.
  assert (Hr : 0 <= shr_m (shr_record_of_loc m l)) by (destruct l as [|[]]; done).
  pose proof (shr_gen_m (shr_record_of_loc m l) e (E - e) Hr) as [H1 H2].
  destruct (shr (shr_record_of_loc m l) e (E - e)) as [r1 e1]. cbn [fst snd] in H1, H2.
  assert (Hrm : shr_m (shr_record_of_loc m l) = m) by (destruct l as [|[]]; done).
  rewrite Hrm in H1.
  assert (Hm1 : shr_m r1 = m / 2 ^ (E - e)).
  { rewrite H1. destruct (Z.ltb_spec 0 (E - e)); [done|].
    replace (E - e) with 0 by lia. rewrite Z.pow_0_r, Z.div_1_r. done. }
  assert (He1 : e1 = E) by (rewrite H2; destruct (Z.ltb_spec 0 (E - e)); lia).
  clear H2. rewrite He1. clear He1 e1.
  exists (round_nearest_even (shr_m r1) (loc_of_shr_record r1)).
  assert (Hrd : rounded (round_nearest_even (shr_m r1) (loc_of_shr_record r1)) E).
  { unfold rounded. pose proof (fexp_ge_emin (Zdigits2 m + e)). fold E in H.
    destruct (rne_cases (shr_m r1) (loc_of_shr_record r1)) as [->| ->]; rewrite Hm1; lia. }
  split; [|split; [done|]].
  - cbv zeta. rewrite <- Hm1. apply rne_cases.
  - change (finish s (round_nearest_even (shr_m r1) (loc_of_shr_record r1)) E = 
      fin_or_inf s (fst (norm_pair (round_nearest_even (shr_m r1) (loc_of_shr_record r1)) E))
       (snd (norm_pair (round_nearest_even (shr_m r1) (loc_of_shr_record r1)) E))).
    apply finish_rounded. done.
Qed.

Lemma rnd_man_rounded (L N : Z) :
  0 <= N -> 0 < N \/ L <= rnd_exp L N ->
  rounded (rnd_man L N) (rnd_exp L N).
Proof using Hprec.
  intros HN HNL. unfold rnd_man, rnd_exp in *.
  pose proof (fexp_ge_emin (Zdigits2 N + L)) as HE.
  pose proof (fexp_eq (Zdigits2 N + L)) as HEq.
  pose proof (div_pow2_rounded N L HN) as Hq. cbv zeta in Hq.
  remember (fexp (Zdigits2 N + L)) as E eqn:HeqE. clear HeqE.
  destruct (Z.leb_spec L E) as [HL|HL].
  - destruct (Hq HL) as [Hq1 Hq2].
    pose proof (rnd_shift_bounds N (E - L) HN ltac:(lia)). unfold rounded. lia.
  - clear Hq.
    assert (0 < N) by lia.
    pose proof (Zdigits2_mul_pow2 N (L - E) ltac:(lia) ltac:(lia)) as Hd.
    assert (0 < 2 ^ (L - E)) by (apply pow2_pos; lia).
    assert (0 < N * 2 ^ (L - E)) by nia.
    pose proof (Zdigits2_bounds (N * 2 ^ (L - E)) ltac:(lia)) as [Hb1 Hb2].
    unfold rounded. split; [split; [lia|]|split; [done|]].
    + assert (2 ^ Zdigits2 (N * 2 ^ (L - E)) <= 2 ^ prec) by (apply Z.pow_le_mono_r; lia). lia.
    + intros. assert (Zdigits2 (N * 2 ^ (L - E)) = prec) by lia. congruence.
Qed.

Lemma round_aux_finish (s : bool) (m e : Z) (l : location) :
  binary_round_aux prec emax s m e l =
  finish s
    (round_nearest_even (shr_m (fst (shr_fexp prec emax m e l)))
                        (loc_of_shr_record (fst (shr_fexp prec emax m e l))))
    (snd (shr_fexp prec emax m e l)).
Proof. unfold binary_round_aux, finish. destruct (shr_fexp prec emax m e l). done. Qed.

(** [binary_round_aux] on an exact mantissa is [Rnd]. *)
Lemma round_aux_exact (s : bool) (m e : Z) :
  0 <= m -> e <= fexp (Zdigits2 m + e) ->
  binary_round_aux prec emax s m e loc_Exact = Rnd e s m.
Proof using Hprec.
  intros Hm He. rewrite round_aux_finish.
  pose proof (rnd_man_rounded e m Hm (or_intror He)) as Hr.
  unfold Rnd, rnd_pair. rewrite <- (finish_rounded s _ _ Hr). clear Hr.
  unfold shr_fexp, rnd_man, rnd_exp. cbn [shr_record_of_loc].
  rewrite shr_exact by done.
  remember (fexp (Zdigits2 m + e)) as E eqn:HeqE. clear HeqE.
  destruct (Z.leb_spec e E); [|lia].
  destruct (Z.ltb_spec 0 (E - e)); cbn [fst snd].
  - rewrite rne_shifted by lia. f_equal. lia.
  - replace (E - e) with 0 by lia. cbn [shr_m loc_of_shr_record round_nearest_even].
    rewrite rnd_shift_0. f_equal. lia.
Qed.

(** [Rnd] depends on the number, not on the way it is written. *)
Lemma Rnd_scale (L j : Z) (s : bool) (N : Z) :
  0 < N -> 0 <= j -> Rnd (L - j) s (N * 2 ^ j) = Rnd L s N.
Proof.
  intros HN Hj. unfold Rnd, rnd_pair.
  assert (HE : rnd_exp (L - j) (N * 2 ^ j) = rnd_exp L N).
  { unfold rnd_exp. rewrite Zdigits2_mul_pow2 by lia. f_equal. lia. }
  assert (HM : rnd_man (L - j) (N * 2 ^ j) = rnd_man L N).
  { unfold rnd_man. rewrite HE. set (E := rnd_exp L N).
    destruct (Z.leb_spec L E), (Z.leb_spec (L - j) E); try lia.
    - replace (E - (L - j)) with ((E - L) + j) by lia. apply rnd_shift_scale; lia.
    - replace (N * 2 ^ j) with ((N * 2 ^ (L - E)) * 2 ^ (E - (L - j))).
      + apply rnd_shift_exact. lia.
      + rewrite <- Z.mul_assoc, <- Z.pow_add_r by lia. do 2 f_equal. lia.
    - rewrite <- Z.mul_assoc, <- Z.pow_add_r by lia. do 2 f_equal. lia. }
  rewrite HE, HM. done.
Qed.

(** [binary_round] is [Rnd], whatever the exponent. *)
Lemma binary_round_spec (s : bool) (mx : positive) (ex : Z) :
  binary_round prec emax s mx ex = Rnd ex s (Z.pos mx).
Proof using Hprec.
  unfold binary_round, shl_align.
  change (Z.pos (digits2_pos mx)) with (Zdigits2 (Z.pos mx)).
  set (E := fexp (Zdigits2 (Z.pos mx) + ex)).
  destruct (E - ex) as [|d|d] eqn:Hd.
  - apply round_aux_exact; [lia|]. fold E. lia.
  - apply round_aux_exact; [lia|]. fold E. lia.
  - rewrite round_aux_exact; [| lia |].
    + rewrite iter_xO. replace E with (ex - Z.pos d) by lia. apply Rnd_scale; lia.
    + rewrite iter_xO, Zdigits2_mul_pow2 by lia.
      replace (Zdigits2 (Z.pos mx) + Z.pos d + E) with (Zdigits2 (Z.pos mx) + ex) by lia.
      fold E. lia.
Qed.

Lemma fin_or_inf_sign (s : bool) (M E : Z) : 0 <= M -> SF_sign_is s (fin_or_inf s M E).
Proof.
  intros HM. unfold Round.fin_or_inf. destruct M; try lia; simpl; try done.
  destruct (_ <=? _); done.
Qed.

Lemma round_aux_sign (s : bool) (m e : Z) (l : location) :
  0 <= m -> SF_sign_is s (binary_round_aux prec emax s m e l).
Proof.
  intros Hm. rewrite round_aux_finish. unfold finish, shr_fexp.
  set (M := round_nearest_even _ _).
  assert (HM : 0 <= M).
  { unfold M.
    assert (Hr : 0 <= shr_m (shr_record_of_loc m l)) by (destruct l as [|[]]; done).
    pose proof (shr_gen_m (shr_record_of_loc m l) e (fexp (Zdigits2 m + e) - e) Hr) as [H1 _].
    assert (0 <= shr_m (shr (shr_record_of_loc m l) e (fexp (Zdigits2 m + e) - e)).1).
    { rewrite H1. case_match; [|done]. apply Z.div_pos; [done|]. apply pow2_pos. lia. }
    destruct (rne_cases (shr_m (shr (shr_record_of_loc m l) e (fexp (Zdigits2 m + e) - e)).1)
      (loc_of_shr_record (shr (shr_record_of_loc m l) e (fexp (Zdigits2 m + e) - e)).1)) as [-> | ->]; lia. }
  clearbody M. cbn [shr_record_of_loc].
  pose proof (shr_gen_m {| shr_m := M; shr_r := false; shr_s := false |}
    (shr (shr_record_of_loc m l) e (fexp (Zdigits2 m + e) - e)).2
    (fexp (Zdigits2 M + (shr (shr_record_of_loc m l) e (fexp (Zdigits2 m + e) - e)).2) -
       (shr (shr_record_of_loc m l) e (fexp (Zdigits2 m + e) - e)).2) HM) as [H1 _].
  destruct (shr {| shr_m := M; shr_r := false; shr_s := false |} _ _) as [r2 e2].
  cbn [fst shr_m] in H1. apply fin_or_inf_sign. rewrite H1.
  case_match; [|done]. apply Z.div_pos; [done|]. apply pow2_pos. lia.
Qed.

Lemma rounded_out_sign (s : bool) (M E : Z) :
  rounded M E -> SF_sign_is s (fin_or_inf s (norm_pair M E).1 (norm_pair M E).2).
Proof using Hprec.
  intros ([H1 H2] & _). apply fin_or_inf_sign. unfold Round.norm_pair.
  case_match; cbn [fst]; [|done]. pose proof (pow2_pos (prec - 1)). lia.
Qed.

(** What a rounding returns is a valid float. *)
Lemma rounded_out_valid (s : bool) (M E : Z) :
  rounded M E -> valid (fin_or_inf s (norm_pair M E).1 (norm_pair M E).2) = true.
Proof using Hprec.
  intros ([H1 H2] & HE & Hn). unfold Round.norm_pair.
  pose proof (pow2_pos (prec - 1) ltac:(lia)) as Hp.
  destruct (Z.eqb_spec M (2 ^ prec)) as [HM|HM]; cbn [fst snd]; unfold Round.fin_or_inf.
  - destruct (2 ^ (prec - 1)) as [|m|m] eqn:Hm; try lia.
    destruct (Z.leb_spec (E + 1) (emax - prec)); [|done].
    cbn [SpecFloat.valid_binary bounded]. apply andb_true_iff. split; [|lia].
    unfold canonical_mantissa. apply Z.eqb_eq.
    change (Z.pos (digits2_pos m)) with (Zdigits2 (Z.pos m)).
    rewrite <- Hm, Zdigits2_pow2 by lia. rewrite fexp_eq. lia.
  - destruct M as [|m|m]; try lia; [done|].
    destruct (Z.leb_spec E (emax - prec)); [|done].
    cbn [SpecFloat.valid_binary bounded]. apply andb_true_iff. split; [|lia].
    unfold canonical_mantissa. apply Z.eqb_eq.
    change (Z.pos (digits2_pos m)) with (Zdigits2 (Z.pos m)).
    assert (Zdigits2 (Z.pos m) <= prec) by (apply Zdigits2_le; lia).
    rewrite fexp_eq.
    destruct (Z.eq_dec E emin) as [->|]; [lia|].
    assert (prec <= Zdigits2 (Z.pos m)); [|lia].
    replace prec with ((prec - 1) + 1) at 1 by lia. apply Zdigits2_ge; lia.
Qed.

Lemma Rnd_sign (L : Z) (s : bool) (N : Z) : 0 < N -> SF_sign_is s (Rnd L s N).
Proof using Hprec.
  intros HN. apply rounded_out_sign. apply rnd_man_rounded; [lia|lia].
Qed.

Lemma Rnd_valid (L : Z) (s : bool) (N : Z) : 0 < N -> valid (Rnd L s N) = true.
Proof using Hprec.
  intros HN. apply rounded_out_valid. apply rnd_man_rounded; [lia|lia].
Qed.

Lemma rnd_exp_mono (L N1 N2 : Z) : 0 <= N1 <= N2 -> rnd_exp L N1 <= rnd_exp L N2.
Proof.
  intros H. unfold Round.rnd_exp. apply fexp_mono.
  pose proof (Zdigits2_mono N1 N2 H). lia.
Qed.

Lemma rnd_man_mono (L N1 N2 : Z) :
  0 <= N1 <= N2 -> rnd_exp L N1 = rnd_exp L N2 -> rnd_man L N1 <= rnd_man L N2.
Proof.
  intros H HE. unfold Round.rnd_man. rewrite HE.
  case_match.
  - apply rnd_shift_mono. done.
  - apply Z.mul_le_mono_nonneg_r; [|lia]. apply Z.pow_nonneg. lia.
Qed.

(** On positive numbers, a larger number rounds to a pair that is larger
    in the order of canonical pairs. *)
Lemma rnd_pair_mono (L N1 N2 : Z) :
  0 < N1 <= N2 -> lexle (rnd_pair L N1) (rnd_pair L N2).
Proof using Hprec.
  intros [H1 H2].
  pose proof (rnd_man_rounded L N1 ltac:(lia) ltac:(lia)) as ([Ha1 Ha2] & Ha3 & Ha4).
  pose proof (rnd_man_rounded L N2 ltac:(lia) ltac:(lia)) as ([Hb1 Hb2] & Hb3 & Hb4).
  pose proof (rnd_exp_mono L N1 N2 ltac:(lia)) as HE.
  pose proof (rnd_man_mono L N1 N2 ltac:(lia)) as HM.
  pose proof (pow2_prec_split) as Hs.
  pose proof (pow2_pos (prec - 1) ltac:(lia)) as Hp.
  unfold Round.rnd_pair, Round.norm_pair, lexle.
  destruct (Z.eqb_spec (rnd_man L N1) (2 ^ prec)), (Z.eqb_spec (rnd_man L N2) (2 ^ prec));
    cbn [fst snd]; lia.
Qed.

Lemma Rnd_mono_pos (L N1 N2 : Z) :
  0 < N1 <= N2 -> SFleb (Rnd L false N1) (Rnd L false N2) = true.
Proof using Hprec.
  intros H. pose proof (rnd_pair_mono L N1 N2 H) as Hl.
  pose proof (rnd_man_rounded L N1 ltac:(lia) ltac:(lia)) as Hr1.
  pose proof (rnd_man_rounded L N2 ltac:(lia) ltac:(lia)) as Hr2.
  unfold Round.Rnd. unfold Round.rnd_pair in *.
  destruct Hr1 as ([Ha1 Ha2] & Ha3 & Ha4). destruct Hr2 as ([Hb1 Hb2] & Hb3 & Hb4).
  pose proof (pow2_prec_split) as Hs.
  pose proof (pow2_pos (prec - 1) ltac:(lia)) as Hp.
  revert Hl. unfold Round.norm_pair, lexle.
  destruct (Z.eqb_spec (rnd_man L N1) (2 ^ prec)) as [Hc1|Hc1],
           (Z.eqb_spec (rnd_man L N2) (2 ^ prec)) as [Hc2|Hc2]; cbn [fst snd]; intros Hl;
    unfold Round.fin_or_inf.
  all: repeat match goal with
       | |- context [match ?M with Z0 => _ | Zpos _ => _ | Zneg _ => _ end] =>
           let H := fresh "HM" in destruct M eqn:H; try lia
       end.
  all: repeat match goal with
       | |- context [?a <=? ?b] => destruct (Z.leb_spec a b); try lia
       end.
  all: try done.
  all: unfold SFleb, SFcompare.
  all: repeat match goal with
       | |- context [?a ?= ?b] => 
           let H := fresh "HC" in destruct (Z.compare_spec a b); try lia
       end.
  all: try done.
  all: rewrite Pos.compare_cont_spec; cbn [Pos.switch_Eq];
       match goal with |- context [(?a ?= ?b)%positive] => destruct (Pos.compare_spec a b) end; try done; lia.
Qed.

Lemma Rnd_mono_neg (L N1 N2 : Z) :
  0 < N1 <= N2 -> SFleb (Rnd L true N2) (Rnd L true N1) = true.
Proof using Hprec.
  intros H. pose proof (rnd_pair_mono L N1 N2 H) as Hl.
  pose proof (rnd_man_rounded L N1 ltac:(lia) ltac:(lia)) as Hr1.
  pose proof (rnd_man_rounded L N2 ltac:(lia) ltac:(lia)) as Hr2.
  unfold Round.Rnd. unfold Round.rnd_pair in *.
  destruct Hr1 as ([Ha1 Ha2] & Ha3 & Ha4). destruct Hr2 as ([Hb1 Hb2] & Hb3 & Hb4).
  pose proof (pow2_prec_split) as Hs.
  pose proof (pow2_pos (prec - 1) ltac:(lia)) as Hp.
  revert Hl. unfold Round.norm_pair, lexle.
  destruct (Z.eqb_spec (rnd_man L N1) (2 ^ prec)) as [Hc1|Hc1],
           (Z.eqb_spec (rnd_man L N2) (2 ^ prec)) as [Hc2|Hc2]; cbn [fst snd]; intros Hl;
    unfold Round.fin_or_inf.
  all: repeat match goal with
       | |- context [match ?M with Z0 => _ | Zpos _ => _ | Zneg _ => _ end] =>
           let H := fresh "HM" in destruct M eqn:H; try lia
       end.
  all: repeat match goal with
       | |- context [?a <=? ?b] => destruct (Z.leb_spec a b); try lia
       end.
  all: try done.
  all: unfold SFleb, SFcompare.
  all: repeat match goal with
       | |- context [?a ?= ?b] => 
           let H := fresh "HC" in destruct (Z.compare_spec a b); try lia
       end.
  all: try done.
  all: rewrite Pos.compare_cont_spec; cbn [Pos.switch_Eq];
       match goal with |- context [(?a ?= ?b)%positive] => destruct (Pos.compare_spec a b) end; try done; lia.
Qed.

Lemma bounded_canonical (m : positive) (e : Z) :
  bounded prec emax m e = true ->
  emin <= e <= emax - prec /\ Zdigits2 (Z.pos m) <= prec /\
  (emin < e -> Zdigits2 (Z.pos m) = prec) /\ fexp (Zdigits2 (Z.pos m) + e) = e.
Proof.
  unfold bounded, canonical_mantissa. intros H. apply andb_true_iff in H as [H1 H2].
  apply Z.eqb_eq in H1. apply Z.leb_le in H2.
  change (Z.pos (digits2_pos m)) with (Zdigits2 (Z.pos m)) in H1.
  pose proof H1 as H1'. rewrite fexp_eq in H1. lia.
Qed.

Lemma mag_compare (m1 m2 : positive) (e1 e2 : Z) :
  bounded prec emax m1 e1 = true -> bounded prec emax m2 e2 = true ->
  match e1 ?= e2 with
  | Lt => Lt
  | Gt => Gt
  | Eq => Pos.compare_cont Eq m1 m2
  end = (Z.pos m1 * 2 ^ (e1 - emin) ?= Z.pos m2 * 2 ^ (e2 - emin)).
Proof using Hprec.
  intros H1 H2.
  apply bounded_canonical in H1 as (Ha1 & Ha2 & Ha3 & _).
  apply bounded_canonical in H2 as (Hb1 & Hb2 & Hb3 & _).
  pose proof (Zdigits2_bounds (Z.pos m1) ltac:(lia)) as [Hc1 Hc2].
  pose proof (Zdigits2_bounds (Z.pos m2) ltac:(lia)) as [Hd1 Hd2].
  pose proof (pow2_pos (e1 - emin) ltac:(lia)) as Hp1.
  pose proof (pow2_pos (e2 - emin) ltac:(lia)) as Hp2.
  symmetry. destruct (Z.compare_spec e1 e2) as [He|He|He].
  - subst e2. change (Pos.compare_cont Eq m1 m2) with (Z.pos m1 ?= Z.pos m2).
    rewrite <- Zmult_compare_compat_r by lia. done.
  - apply Z.compare_lt_iff.
    assert (Z.pos m1 < 2 ^ prec).
    { assert (2 ^ Zdigits2 (Z.pos m1) <= 2 ^ prec) by (apply Z.pow_le_mono_r; lia). lia. }
    rewrite Hb3 in Hd1 by lia.
    replace (e2 - emin) with ((e2 - e1 - 1) + (1 + (e1 - emin))) by lia.
    rewrite Z.pow_add_r, Z.pow_add_r by lia. change (2 ^ 1) with 2.
    pose proof (pow2_pos (e2 - e1 - 1) ltac:(lia)).
    pose proof (pow2_prec_split).
    set (P := 2 ^ (e1 - emin)) in *. set (T := 2 ^ (e2 - e1 - 1)) in *.
    assert (Z.pos m1 * P < 2 * 2 ^ (prec - 1) * P) by nia.
    assert (2 * 2 ^ (prec - 1) * P <= 2 * Z.pos m2 * P) by nia.
    assert (1 * (2 * Z.pos m2 * P) <= T * (2 * Z.pos m2 * P)) by (apply Z.mul_le_mono_nonneg_r; nia).
    lia.
  - apply Z.compare_gt_iff.
    assert (Z.pos m2 < 2 ^ prec).
    { assert (2 ^ Zdigits2 (Z.pos m2) <= 2 ^ prec) by (apply Z.pow_le_mono_r; lia). lia. }
    rewrite Ha3 in Hc1 by lia.
    replace (e1 - emin) with ((e1 - e2 - 1) + (1 + (e2 - emin))) by lia.
    rewrite Z.pow_add_r, Z.pow_add_r by lia. change (2 ^ 1) with 2.
    pose proof (pow2_pos (e1 - e2 - 1) ltac:(lia)).
    pose proof (pow2_prec_split).
    set (P := 2 ^ (e2 - emin)) in *. set (T := 2 ^ (e1 - e2 - 1)) in *.
    assert (Z.pos m2 * P < 2 * 2 ^ (prec - 1) * P) by nia.
    assert (2 * 2 ^ (prec - 1) * P <= 2 * Z.pos m1 * P) by nia.
    assert (1 * (2 * Z.pos m1 * P) <= T * (2 * Z.pos m1 * P)) by (apply Z.mul_le_mono_nonneg_r; nia).
    lia.
Qed.

Lemma SFval_pos (m : positive) (e : Z) : emin <= e -> 0 < Z.pos m * 2 ^ (e - emin).
Proof. intros. pose proof (pow2_pos (e - emin) ltac:(lia)). nia. Qed.

(** On valid finite numbers, [SFcompare] compares the values. *)
Lemma SFcompare_val (x y : spec_float) :
  valid x = true -> valid y = true -> SF_fz x = true -> SF_fz y = true ->
  SFcompare x y = Some (SFval x ?= SFval y).
Proof using Hprec.
  intros Hx Hy Fx Fy.
  destruct x as [sx|sx| |sx mx ex], y as [sy|sy| |sy my ey]; try done; cbn [SpecFloat.valid_binary] in *.
  - apply bounded_canonical in Hy as (Hy & _).
    pose proof (SFval_pos my ey ltac:(lia)).
    cbn [SFcompare SFval]. destruct sy; cbn [cond_Zopp]; f_equal; symmetry.
    + apply Z.compare_gt_iff. lia.
    + apply Z.compare_lt_iff. lia.
  - apply bounded_canonical in Hx as (Hx & _).
    pose proof (SFval_pos mx ex ltac:(lia)).
    cbn [SFcompare SFval]. destruct sx; cbn [cond_Zopp]; f_equal; symmetry.
    + apply Z.compare_lt_iff. lia.
    + apply Z.compare_gt_iff. lia.
  - pose proof (mag_compare mx my ex ey Hx Hy) as Hc.
    pose proof (mag_compare my mx ey ex Hy Hx) as Hc'.
    apply bounded_canonical in Hx as (Hx & _). apply bounded_canonical in Hy as (Hy & _).
    pose proof (SFval_pos mx ex ltac:(lia)). pose proof (SFval_pos my ey ltac:(lia)).
    cbn [SFcompare SFval]. destruct sx, sy; cbn [cond_Zopp]; f_equal.
    + rewrite Z.compare_opp. rewrite <- Hc'.
      rewrite (Z.compare_antisym ey ex).
      destruct (ey ?= ex); cbn [CompOpp]; try done.
      rewrite Pos.compare_cont_antisym. done.
    + symmetry. apply Z.compare_lt_iff. lia.
    + symmetry. apply Z.compare_gt_iff. lia.
    + done.
Qed.

Lemma SFleb_val (x y : spec_float) :
  valid x = true -> valid y = true -> SF_fz x = true -> SF_fz y = true ->
  SFleb x y = (SFval x <=? SFval y).
Proof using Hprec.
  intros. unfold SFleb. rewrite SFcompare_val by done. unfold Z.leb.
  destruct (SFval x ?= SFval y); done.
Qed.

(** Rounding a representable number changes nothing. *)
Lemma Rnd_id (s : bool) (m : positive) (e : Z) :
  bounded prec emax m e = true ->
  Rnd emin s (Z.pos m * 2 ^ (e - emin)) = S754_finite s m e.
Proof using Hprec.
  intros H. apply bounded_canonical in H as (He & Hd & _ & Hf).
  replace emin with (e - (e - emin)) at 1 by lia.
  rewrite Rnd_scale by lia.
  unfold Round.Rnd, Round.rnd_pair, Round.rnd_man, Round.rnd_exp. rewrite Hf.
  rewrite Z.leb_refl, Z.sub_diag, rnd_shift_0.
  unfold Round.norm_pair.
  pose proof (Zdigits2_bounds (Z.pos m) ltac:(lia)) as [_ Hb].
  assert (2 ^ Zdigits2 (Z.pos m) <= 2 ^ prec) by (apply Z.pow_le_mono_r; lia).
  destruct (Z.eqb_spec (Z.pos m) (2 ^ prec)); [lia|]. cbn [fst snd Round.fin_or_inf].
  destruct (Z.leb_spec e (emax - prec)); [done|lia].
Qed.

Lemma RndZ_pos (L V : Z) : 0 < V -> RndZ L V = Rnd L false V.
Proof. destruct V; try lia. done. Qed.

Lemma RndZ_neg (L V : Z) : V < 0 -> RndZ L V = Rnd L true (- V).
Proof. destruct V; try lia. done. Qed.

Lemma RndZ_cond (L : Z) (s : bool) (N : Z) : 0 < N -> RndZ L (cond_Zopp s N) = Rnd L s N.
Proof.
  intros. destruct s; cbn [cond_Zopp].
  - rewrite RndZ_neg by lia. f_equal. lia.
  - apply RndZ_pos. done.
Qed.

Lemma RndZ_scale (L j V : Z) : 0 <= j -> RndZ (L - j) (V * 2 ^ j) = RndZ L V.
Proof.
  intros Hj. pose proof (pow2_pos j Hj).
  destruct (Z.lt_trichotomy V 0) as [HV|[->|HV]].
  - rewrite !RndZ_neg by nia. rewrite <- Z.mul_opp_l. apply Rnd_scale; lia.
  - done.
  - rewrite !RndZ_pos by nia. apply Rnd_scale; lia.
Qed.

Lemma RndZ_val (x : spec_float) :
  valid x = true -> SF_fz x = true -> RndZ emin (SFval x) = unsign_zero x.
Proof using Hprec.
  intros Hx Fx. destruct x as [s|s| |s m e]; try done.
  cbn [SFval unsign_zero SpecFloat.valid_binary] in *.
  pose proof (bounded_canonical m e Hx) as (He & _).
  rewrite RndZ_cond by (apply SFval_pos; lia). apply Rnd_id. done.
Qed.

Lemma RndZ_sign_neg (L V : Z) : V < 0 -> SF_sign_is true (RndZ L V).
Proof using Hprec. intros. rewrite RndZ_neg by done. apply Rnd_sign; lia. Qed.

Lemma RndZ_sign_pos (L V : Z) : 0 < V -> SF_sign_is false (RndZ L V).
Proof using Hprec. intros. rewrite RndZ_pos by done. apply Rnd_sign; lia. Qed.

(** Rounding is monotone: the key to every order property below. *)
Lemma RndZ_mono (L V1 V2 : Z) : V1 <= V2 -> SFleb (RndZ L V1) (RndZ L V2) = true.
Proof using Hprec.
  intros H.
  destruct (Z.lt_trichotomy V1 0) as [H1|[->|H1]], (Z.lt_trichotomy V2 0) as [H2|[->|H2]]; try lia.
  - rewrite !RndZ_neg by done. apply Rnd_mono_neg; lia.
  - apply SFleb_signs; [left; apply RndZ_sign_neg; done|left; done].
  - apply SFleb_signs; [left; apply RndZ_sign_neg; done|left; apply RndZ_sign_pos; done].
  - done.
  - apply SFleb_signs; [right; done|left; apply RndZ_sign_pos; done].
  - rewrite !RndZ_pos by done. apply Rnd_mono_pos; lia.
Qed.

Lemma RndZ_valid (L V : Z) : valid (RndZ L V) = true.
Proof using Hprec.
  destruct V; [done| |]; apply Rnd_valid; done.
Qed.

Lemma normalize_spec (m e : Z) : binary_normalize prec emax m e false = RndZ e m.
Proof using Hprec. destruct m; [done| |]; apply binary_round_spec; done. Qed.

Lemma aligned_val (s : bool) (m : positive) (e ez : Z) :
  emin <= ez <= e ->
  cond_Zopp s (Z.pos (fst (shl_align m e ez))) * 2 ^ (ez - emin) =
  SFval (S754_finite s m e).
Proof.
  intros H. rewrite shl_align_fst by lia. cbn [SFval].
  replace (e - emin) with ((e - ez) + (ez - emin)) by lia.
  rewrite Z.pow_add_r by lia. destruct s; cbn [cond_Zopp]; lia.
Qed.

(** Addition is the rounding of the exact sum. *)
Lemma SFadd_finite (sx sy : bool) (mx my : positive) (ex ey : Z) :
  bounded prec emax mx ex = true -> bounded prec emax my ey = true ->
  SFadd prec emax (S754_finite sx mx ex) (S754_finite sy my ey) =
  RndZ emin (SFval (S754_finite sx mx ex) + SFval (S754_finite sy my ey)).
Proof using Hprec.
  intros Hx Hy. apply bounded_canonical in Hx as (Hx & _). apply bounded_canonical in Hy as (Hy & _).
  cbn [SFadd]. cbv zeta. rewrite normalize_spec.
  rewrite <- (RndZ_scale (Z.min ex ey) (Z.min ex ey - emin)) by lia.
  replace (Z.min ex ey - (Z.min ex ey - emin)) with emin by lia.
  f_equal. rewrite Z.mul_add_distr_r.
  rewrite (aligned_val sx mx ex (Z.min ex ey)) by lia.
  rewrite (aligned_val sy my ey (Z.min ex ey)) by lia. done.
Qed.

Lemma mul_regime (mx my : positive) (ex ey : Z) :
  bounded prec emax mx ex = true -> bounded prec emax my ey = true ->
  ex + ey <= fexp (Zdigits2 (Z.pos (mx * my)) + (ex + ey)).
Proof using Hprec Hemax.
  intros Hx Hy.
  apply bounded_canonical in Hx as (Hx & Hdx & Hnx & _).
  apply bounded_canonical in Hy as (Hy & Hdy & Hny & _).
  rewrite fexp_eq. rewrite emin_eq in *.
  assert (0 < Zdigits2 (Z.pos mx)) by (change (Zdigits2 (Z.pos mx)) with (Z.pos (digits2_pos mx)); lia).
  assert (0 < Zdigits2 (Z.pos my)) by (change (Zdigits2 (Z.pos my)) with (Z.pos (digits2_pos my)); lia).
  destruct (Z.eq_dec ex (3 - emax - prec)), (Z.eq_dec ey (3 - emax - prec)); try lia.
  - assert (prec + Zdigits2 (Z.pos mx) - 1 <= Zdigits2 (Z.pos (mx * my))); [|lia].
    pose proof (Zdigits2_bounds (Z.pos mx) ltac:(lia)) as [Hb1 _].
    pose proof (Zdigits2_bounds (Z.pos my) ltac:(lia)) as [Hb2 _].
    rewrite Hny in Hb2 by lia.
    replace (prec + Zdigits2 (Z.pos mx) - 1) with ((prec - 1 + (Zdigits2 (Z.pos mx) - 1)) + 1) by lia.
    apply Zdigits2_ge; [|lia]. rewrite Z.pow_add_r by lia. rewrite Pos2Z.inj_mul.
    pose proof (pow2_pos (prec - 1) ltac:(lia)). pose proof (pow2_pos (Zdigits2 (Z.pos mx) - 1) ltac:(lia)). nia.
  - assert (prec + Zdigits2 (Z.pos my) - 1 <= Zdigits2 (Z.pos (mx * my))); [|lia].
    pose proof (Zdigits2_bounds (Z.pos mx) ltac:(lia)) as [Hb1 _].
    pose proof (Zdigits2_bounds (Z.pos my) ltac:(lia)) as [Hb2 _].
    rewrite Hnx in Hb1 by lia.
    replace (prec + Zdigits2 (Z.pos my) - 1) with ((prec - 1 + (Zdigits2 (Z.pos my) - 1)) + 1) by lia.
    apply Zdigits2_ge; [|lia]. rewrite Z.pow_add_r by lia. rewrite Pos2Z.inj_mul.
    pose proof (pow2_pos (prec - 1) ltac:(lia)). pose proof (pow2_pos (Zdigits2 (Z.pos my) - 1) ltac:(lia)). nia.
  - assert (prec + Zdigits2 (Z.pos my) - 1 <= Zdigits2 (Z.pos (mx * my))); [|lia].
    pose proof (Zdigits2_bounds (Z.pos mx) ltac:(lia)) as [Hb1 _].
    pose proof (Zdigits2_bounds (Z.pos my) ltac:(lia)) as [Hb2 _].
    rewrite Hnx in Hb1 by lia.
    replace (prec + Zdigits2 (Z.pos my) - 1) with ((prec - 1 + (Zdigits2 (Z.pos my) - 1)) + 1) by lia.
    apply Zdigits2_ge; [|lia]. rewrite Z.pow_add_r by lia. rewrite Pos2Z.inj_mul.
    pose proof (pow2_pos (prec - 1) ltac:(lia)). pose proof (pow2_pos (Zdigits2 (Z.pos my) - 1) ltac:(lia)). nia.
Qed.

(** Multiplication is the rounding of the exact product. *)
Lemma SFmul_finite (sx sy : bool) (mx my : positive) (ex ey : Z) :
  bounded prec emax mx ex = true -> bounded prec emax my ey = true ->
  SFmul prec emax (S754_finite sx mx ex) (S754_finite sy my ey) =
  RndZ (2 * emin) (SFval (S754_finite sx mx ex) * SFval (S754_finite sy my ey)).
Proof using Hprec Hemax.
  intros Hx Hy. pose proof (mul_regime mx my ex ey Hx Hy) as Hr.
  apply bounded_canonical in Hx as (Hx & _). apply bounded_canonical in Hy as (Hy & _).
  cbn [SFmul]. rewrite round_aux_exact by (done || lia).
  pose proof (SFval_pos mx ex ltac:(lia)). pose proof (SFval_pos my ey ltac:(lia)).
  cbn [SFval].
  replace (cond_Zopp sx (Z.pos mx * 2 ^ (ex - emin)) * cond_Zopp sy (Z.pos my * 2 ^ (ey - emin)))
    with (cond_Zopp (xorb sx sy) (Z.pos (mx * my) * 2 ^ (ex + ey - 2 * emin))).
  - rewrite RndZ_cond.
    + replace (2 * emin) with (ex + ey - (ex + ey - 2 * emin)) at 1 by lia.
      rewrite Rnd_scale by lia. done.
    + pose proof (pow2_pos (ex + ey - 2 * emin) ltac:(lia)). nia.
  - replace (ex + ey - 2 * emin) with ((ex - emin) + (ey - emin)) by lia.
    rewrite Z.pow_add_r by lia. rewrite Pos2Z.inj_mul.
    destruct sx, sy; cbn [xorb cond_Zopp]; lia.
Qed.

Lemma RndZ_not_nan (L V : Z) : SF_nan (RndZ L V) = false.
Proof using Hprec.
  destruct (Z.lt_trichotomy V 0) as [H|[->|H]].
  - eapply sign_not_nan, RndZ_sign_neg; done.
  - done.
  - eapply sign_not_nan, RndZ_sign_pos; done.
Qed.

Lemma SFadd_comm (x y : spec_float) : SFadd prec emax x y = SFadd prec emax y x.
Proof.
  destruct x as [[]|[]| |sx mx ex], y as [[]|[]| |sy my ey]; try done.
  cbn [SFadd]. cbv zeta. rewrite (Z.min_comm ey ex), Z.add_comm. done.
Qed.

Lemma SFsub_add_opp (x y : spec_float) : SFsub prec emax x y = SFadd prec emax x (SFopp y).
Proof.
  destruct x as [[]|[]| |sx mx ex], y as [[]|[]| |sy my ey]; try done.
  cbn [SFsub SFadd SFopp]. cbv zeta. rewrite cond_Zopp_negb, Z.add_opp_r. done.
Qed.

Lemma SFopp_valid (x : spec_float) : valid x = true -> valid (SFopp x) = true.
Proof. destruct x; done. Qed.

Lemma SFadd_fz (x y : spec_float) :
  valid x = true -> valid y = true -> SF_fz x = true -> SF_fz y = true ->
  unsign_zero (SFadd prec emax x y) = unsign_zero (RndZ emin (SFval x + SFval y)).
Proof using Hprec.
  intros Hx Hy Fx Fy.
  destruct x as [sx|sx| |sx mx ex], y as [sy|sy| |sy my ey]; try done.
  - destruct sx, sy; done.
  - pose proof (RndZ_val (S754_finite sy my ey) Hy eq_refl) as HR.
    change (SFval (S754_zero sx)) with 0. rewrite Z.add_0_l, HR. done.
  - pose proof (RndZ_val (S754_finite sx mx ex) Hx eq_refl) as HR.
    change (SFval (S754_zero sy)) with 0. rewrite Z.add_0_r, HR. done.
  - rewrite SFadd_finite by done. done.
Qed.

(** Addition is monotone in each argument, as long as no NaN arises
    (from [inf - inf]). *)
Lemma SFadd_mono_l (x x' w : spec_float) :
  valid x = true -> valid x' = true -> valid w = true ->
  SFleb x x' = true ->
  SF_nan (SFadd prec emax x w) = false -> SF_nan (SFadd prec emax x' w) = false ->
  SFleb (SFadd prec emax x w) (SFadd prec emax x' w) = true.
Proof using Hprec.
  intros Hx Hx' Hw Hle N1 N2.
  destruct (SF_fz x) eqn:Fx, (SF_fz x') eqn:Fx', (SF_fz w) eqn:Fw.
  1: { rewrite SFleb_unsign, !SFadd_fz by done. rewrite <- SFleb_unsign.
       apply RndZ_mono.
       rewrite SFleb_val in Hle by done. apply Z.leb_le in Hle. lia. }
  all: destruct x as [[]|[]| |[] mx ex], x' as [[]|[]| |[] mx' ex'], w as [[]|[]| |[] mw ew];
    try done;
    first [apply SFleb_ninf; done | apply SFleb_pinf; done | apply SFleb_refl; done].
Qed.

Lemma SFadd_mono_r (w x x' : spec_float) :
  valid x = true -> valid x' = true -> valid w = true ->
  SFleb x x' = true ->
  SF_nan (SFadd prec emax w x) = false -> SF_nan (SFadd prec emax w x') = false ->
  SFleb (SFadd prec emax w x) (SFadd prec emax w x') = true.
Proof using Hprec.
  intros. rewrite (SFadd_comm w x), (SFadd_comm w x') in *. apply SFadd_mono_l; done.
Qed.

Lemma SFsub_mono_l (x x' w : spec_float) :
  valid x = true -> valid x' = true -> valid w = true ->
  SFleb x x' = true ->
  SF_nan (SFsub prec emax x w) = false -> SF_nan (SFsub prec emax x' w) = false ->
  SFleb (SFsub prec emax x w) (SFsub prec emax x' w) = true.
Proof using Hprec.
  intros. rewrite !SFsub_add_opp in *. apply SFadd_mono_l; try done. apply SFopp_valid; done.
Qed.

Lemma SFsub_antimono_r (w x x' : spec_float) :
  valid x = true -> valid x' = true -> valid w = true ->
  SFleb x x' = true ->
  SF_nan (SFsub prec emax w x) = false -> SF_nan (SFsub prec emax w x') = false ->
  SFleb (SFsub prec emax w x') (SFsub prec emax w x) = true.
Proof using Hprec.
  intros. rewrite !SFsub_add_opp in *.
  apply SFadd_mono_r; try done; try (apply SFopp_valid; done). apply SFopp_antitone. done.
Qed.

Lemma SFmul_fz (mc : positive) (ec : Z) (x : spec_float) :
  bounded prec emax mc ec = true -> valid x = true -> SF_fz x = true ->
  unsign_zero (SFmul prec emax (S754_finite false mc ec) x) =
  unsign_zero (RndZ (2 * emin) (SFval (S754_finite false mc ec) * SFval x)).
Proof using Hprec Hemax.
  intros Hc Hx Fx. destruct x as [sx|sx| |sx mx ex]; try done.
  - cbn [SFmul Round.SFval]. rewrite Z.mul_0_r. done.
  - rewrite SFmul_finite by done. done.
Qed.

Lemma SFmul_pos_not_nan (mc : positive) (ec : Z) (x : spec_float) :
  bounded prec emax mc ec = true -> valid x = true -> SF_nan x = false ->
  SF_nan (SFmul prec emax (S754_finite false mc ec) x) = false.
Proof using Hprec Hemax.
  intros Hc Hx Nx. destruct x as [sx|sx| |sx mx ex]; try done.
  rewrite SFmul_finite by done. apply RndZ_not_nan.
Qed.

(** Multiplication by a positive finite constant is monotone. *)
Lemma SFmul_mono (mc : positive) (ec : Z) (x y : spec_float) :
  bounded prec emax mc ec = true -> valid x = true -> valid y = true ->
  SFleb x y = true ->
  SFleb (SFmul prec emax (S754_finite false mc ec) x)
        (SFmul prec emax (S754_finite false mc ec) y) = true.
Proof using Hprec Hemax.
  intros Hc Hx Hy Hle.
  pose proof (SFleb_not_nan x y Hle) as [Nx Ny].
  pose proof (SFmul_pos_not_nan mc ec x Hc Hx Nx) as Mx.
  pose proof (SFmul_pos_not_nan mc ec y Hc Hy Ny) as My.
  destruct (SF_fz x) eqn:Fx, (SF_fz y) eqn:Fy.
  - rewrite SFleb_unsign, !SFmul_fz by done. rewrite <- SFleb_unsign.
    apply RndZ_mono. rewrite SFleb_val in Hle by done. apply Z.leb_le in Hle.
    apply Z.mul_le_mono_nonneg_l; [|done].
    apply bounded_canonical in Hc as (Hc & _).
    pose proof (SFval_pos mc ec ltac:(lia)). cbn [Round.SFval cond_Zopp]. lia.
  - destruct y as [|[]| |]; try done.
    + destruct x; done.
    + apply SFleb_pinf. done.
  - destruct x as [|[]| |]; try done.
    + apply SFleb_ninf. done.
    + destruct y; done.
  - destruct x as [|[]| |], y as [|[]| |]; done.
Qed.

End Format.

(** ** Division, square root and signs *)

Section Division.
Variables prec emax : Z.
Hypothesis Hprec : 0 < prec.
Hypothesis Hemax : prec < emax.

Local Abbreviation emin := (SpecFloat.emin prec emax).
Local Abbreviation fexp := (SpecFloat.fexp prec emax).
Local Abbreviation valid := (SpecFloat.valid_binary prec emax).

Lemma SFdiv_core_regime (m1 e1 m2 e2 : Z) :
  0 < m1 -> 0 < m2 ->
  0 <= (SFdiv_core_binary prec emax m1 e1 m2 e2).1.1 /\
  (SFdiv_core_binary prec emax m1 e1 m2 e2).1.2 <=
    fexp (Zdigits2 (SFdiv_core_binary prec emax m1 e1 m2 e2).1.1 +
          (SFdiv_core_binary prec emax m1 e1 m2 e2).1.2).
Proof.
  intros H1 H2. unfold SFdiv_core_binary.
  set (d1 := Zdigits2 m1). set (d2 := Zdigits2 m2).
  set (e' := Z.min (fexp (d1 + e1 - (d2 + e2))) (e1 - e2)).
  set (s := e1 - e2 - e').
  assert (Hs : 0 <= s) by (unfold s, e'; lia).
  set (m' := match s with Z.pos _ => Z.shiftl m1 s | 0 => m1 | Z.neg _ => 0 end).
  assert (Hm' : m' = m1 * 2 ^ s).
  { unfold m'. destruct s as [|p|p] eqn:Hp; try lia.
    rewrite Z.shiftl_mul_pow2 by lia. done. }
  pose proof (pow2_pos s Hs) as Hp.
  pose proof (Z.div_eucl_eq m' m2 ltac:(lia)) as Heq.
  pose proof (Z.mod_pos_bound m' m2 H2) as Hr. unfold Z.modulo in Hr.
  destruct (Z.div_eucl m' m2) as [q r]. cbn [fst snd].
  assert (Hq : 0 <= q) by nia.
  split; [done|].
  assert (Hd : d1 + s - d2 <= Zdigits2 q).
  { pose proof (Zdigits2_nonneg q).
    destruct (Z_le_gt_dec (d1 + s - d2) 0); [lia|].
    replace (d1 + s - d2) with ((d1 + s - d2 - 1) + 1) by lia.
    apply Zdigits2_ge; [|lia].
    pose proof (Zdigits2_bounds m1 H1) as [Hb1 _]. fold d1 in Hb1.
    pose proof (Zdigits2_bounds m2 H2) as [_ Hb2]. fold d2 in Hb2.
    assert (0 < d1) by (unfold d1; destruct m1; simpl; lia).
    assert (0 < d2) by (unfold d2; destruct m2; simpl; lia).
    pose proof (pow2_pos (d1 + s - d2 - 1) ltac:(lia)) as Hp2.
    assert (Hpw : 2 ^ (d1 + s - d2 - 1) * 2 ^ d2 = 2 ^ (d1 - 1) * 2 ^ s).
    { rewrite <- !Z.pow_add_r by lia. f_equal. lia. }
    destruct (Z_lt_le_dec q (2 ^ (d1 + s - d2 - 1))); [|done].
    assert (m2 * q + r < m2 * (q + 1)) by lia.
    assert (m2 * (q + 1) <= m2 * 2 ^ (d1 + s - d2 - 1)) by (apply Z.mul_le_mono_nonneg_l; lia).
    assert (m2 * 2 ^ (d1 + s - d2 - 1) <= 2 ^ d2 * 2 ^ (d1 + s - d2 - 1))
      by (apply Z.mul_le_mono_nonneg_r; lia).
    assert (2 ^ (d1 - 1) * 2 ^ s <= m1 * 2 ^ s) by (apply Z.mul_le_mono_nonneg_r; lia).
    lia. }
  transitivity (fexp (d1 + e1 - (d2 + e2))); [unfold e'; lia|].
  apply fexp_mono. unfold s in Hd. lia.
Qed.

Lemma SFdiv_finite_valid (sx sy : bool) (mx my : positive) (ex ey : Z) :
  valid (SFdiv prec emax (S754_finite sx mx ex) (S754_finite sy my ey)) = true /\
  SF_sign_is (xorb sx sy) (SFdiv prec emax (S754_finite sx mx ex) (S754_finite sy my ey)).
Proof using Hprec.
  cbn [SFdiv].
  pose proof (SFdiv_core_regime (Z.pos mx) ex (Z.pos my) ey ltac:(lia) ltac:(lia)) as [Hq Hr].
  destruct (SFdiv_core_binary prec emax (Z.pos mx) ex (Z.pos my) ey) as [[mz ez] lz].
  cbn [fst snd] in Hq, Hr.
  destruct (round_aux_gen prec emax Hprec (xorb sx sy) mz ez lz Hq Hr) as (M1 & _ & HR & ->).
  split; [apply rounded_out_valid|apply rounded_out_sign]; done.
Qed.

Lemma SFsqrt_sign (x : spec_float) :
  SF_sign_is false x -> SF_sign_is false (SFsqrt prec emax x).
Proof.
  destruct x as [[]|[]| |[] m e]; try done. intros _. cbn [SFsqrt].
  unfold SFsqrt_core_binary.
  set (s := e - 2 * _).
  set (m' := match s with Z.pos _ => Z.shiftl (Z.pos m) s | 0 => Z.pos m | Z.neg _ => 0 end).
  assert (Hm' : 0 <= m').
  { unfold m'. destruct s; try lia. apply Z.shiftl_nonneg. lia. }
  pose proof (Z.sqrtrem_spec m' Hm') as Hs.
  destruct (Z.sqrtrem m') as [q r]. apply round_aux_sign. lia.
Qed.

Lemma SFmul_sign (sx sy : bool) (x y : spec_float) :
  SF_sign_is sx x -> SF_sign_is sy y -> SF_nan (SFmul prec emax x y) = false ->
  SF_sign_is (xorb sx sy) (SFmul prec emax x y).
Proof.
  destruct x as [sx'|sx'| |sx' mx ex], y as [sy'|sy'| |sy' my ey]; try done;
    cbn [SF_sign_is]; intros -> -> _; try done.
  cbn [SFmul]. apply round_aux_sign. lia.
Qed.

Lemma SFmul_finite_not_nan (sx : bool) (mx : positive) (ex : Z) (y : spec_float) :
  SF_nan y = false ->
  SF_nan (SFmul prec emax (S754_finite sx mx ex) y) = false.
Proof.
  intros Hy. destruct y as [sy|sy| |sy my ey]; try done.
  cbn [SFmul]. eapply sign_not_nan, round_aux_sign. lia.
Qed.

Lemma SFadd_nonneg_not_nan (x : spec_float) (mc : positive) (ec : Z) :
  valid x = true -> bounded prec emax mc ec = true -> SF_sign_is false x ->
  SF_nan (SFadd prec emax x (S754_finite false mc ec)) = false.
Proof using Hprec.
  intros Hx Hc Hs. destruct x as [[]|[]| |[] m e]; try done.
  rewrite SFadd_finite by done. apply RndZ_not_nan. done.
Qed.

End Division.

(** ** Magnitudes: no overflow within bounds *)

Lemma SF_mag_le_mono (K K' : Z) (x : spec_float) : K <= K' -> SF_mag_le K x -> SF_mag_le K' x.
Proof. destruct x; cbn [SF_mag_le]; try done. lia. Qed.

Lemma SF_mag_le_opp (K : Z) (x : spec_float) : SF_mag_le K x -> SF_mag_le K (SFopp x).
Proof. destruct x; done. Qed.

Lemma SF_mag_le_fz (K : Z) (x : spec_float) : SF_mag_le K x -> SF_fz x = true.
Proof. destruct x; done. Qed.

Lemma Zdigits2_mul_le (a b : Z) : 0 < a -> 0 < b -> Zdigits2 (a * b) <= Zdigits2 a + Zdigits2 b.
Proof.
  intros Ha Hb.
  pose proof (Zdigits2_bounds a Ha) as [_ H1]. pose proof (Zdigits2_bounds b Hb) as [_ H2].
  pose proof (Zdigits2_nonneg a). pose proof (Zdigits2_nonneg b).
  apply Zdigits2_le; [lia|]. rewrite Z.pow_add_r by lia. nia.
Qed.

Section Magnitude.
Variables prec emax : Z.
Hypothesis Hprec : 0 < prec.
Hypothesis Hemax : prec < emax.

Local Abbreviation emin := (SpecFloat.emin prec emax).
Local Abbreviation fexp := (SpecFloat.fexp prec emax).
Local Abbreviation valid := (SpecFloat.valid_binary prec emax).
Local Abbreviation norm_pair := (Round.norm_pair prec).
Local Abbreviation rounded := (Round.rounded prec emax).
Local Abbreviation fin_or_inf := (Round.fin_or_inf prec emax).
Local Abbreviation Rnd := (Round.Rnd prec emax).
Local Abbreviation RndZ := (Round.RndZ prec emax).
Local Abbreviation SFval := (Round.SFval prec emax).

Lemma rounded_out_mag (s : bool) (M E K : Z) :
  rounded M E -> prec + E + 1 <= K -> E + 1 <= emax - prec ->
  SF_mag_le K (fin_or_inf s (norm_pair M E).1 (norm_pair M E).2).
Proof using Hprec.
  intros ([H1 H2] & HE & Hn) HK Hf. unfold Round.norm_pair.
  pose proof (pow2_pos (prec - 1) ltac:(lia)) as Hp.
  destruct (Z.eqb_spec M (2 ^ prec)) as [HM|HM]; cbn [fst snd]; unfold Round.fin_or_inf.
  - destruct (2 ^ (prec - 1)) as [|m|m] eqn:Hm; try lia.
    destruct (Z.leb_spec (E + 1) (emax - prec)); [|lia].
    cbn [SF_mag_le]. rewrite <- Hm, Zdigits2_pow2 by lia. lia.
  - destruct M as [|m|m]; try lia; [done|].
    destruct (Z.leb_spec E (emax - prec)); [|lia].
    cbn [SF_mag_le].
    assert (Zdigits2 (Z.pos m) <= prec) by (apply Zdigits2_le; lia). lia.
Qed.

Lemma round_aux_mag (s : bool) (m e : Z) (l : location) (K : Z) :
  0 <= m -> e <= fexp (Zdigits2 m + e) ->
  Zdigits2 m + e <= K -> emin + prec <= K -> K + 1 <= emax ->
  SF_mag_le (K + 1) (binary_round_aux prec emax s m e l).
Proof using Hprec.
  intros Hm He HK HK1 HK2.
  destruct (round_aux_gen prec emax Hprec s m e l Hm He) as (M1 & _ & HR & ->).
  apply rounded_out_mag; [done| |]; rewrite fexp_eq; lia.
Qed.

Lemma Rnd_mag (L : Z) (s : bool) (N K : Z) :
  0 < N -> Zdigits2 N + L <= K -> emin + prec <= K -> K + 1 <= emax ->
  SF_mag_le (K + 1) (Rnd L s N).
Proof using Hprec.
  intros HN HK HK1 HK2. unfold Round.Rnd, Round.rnd_pair.
  apply rounded_out_mag.
  - apply rnd_man_rounded; [done|lia|lia].
  - unfold Round.rnd_exp. rewrite fexp_eq. lia.
  - unfold Round.rnd_exp. rewrite fexp_eq. lia.
Qed.

Lemma RndZ_mag (L V K : Z) :
  Zdigits2 (Z.abs V) + L <= K -> emin + prec <= K -> K + 1 <= emax ->
  SF_mag_le (K + 1) (RndZ L V).
Proof using Hprec.
  intros HK HK1 HK2. destruct V as [|p|p]; [done| |]; apply Rnd_mag; done.
Qed.

Lemma SFval_abs_lt (x : spec_float) (K : Z) :
  valid x = true -> SF_mag_le K x -> emin <= K -> Z.abs (SFval x) < 2 ^ (K - emin).
Proof.
  intros Hx HK HKm. destruct x as [s|s| |s m e]; try done.
  - cbn [Round.SFval]. apply pow2_pos. lia.
  - cbn [SpecFloat.valid_binary] in Hx. apply bounded_canonical in Hx as (He & _).
    cbn [Round.SFval SF_mag_le] in *.
    pose proof (Zdigits2_bounds (Z.pos m) ltac:(lia)) as [_ Hb].
    pose proof (pow2_pos (e - emin) ltac:(lia)) as Hp.
    assert (Z.pos m * 2 ^ (e - emin) < 2 ^ (K - emin)).
    { replace (K - emin) with ((K - e) + (e - emin)) by lia.
      assert (0 < Zdigits2 (Z.pos m)) by (cbn; lia).
      rewrite Z.pow_add_r by lia. apply Z.mul_lt_mono_pos_r; [done|].
      assert (2 ^ Zdigits2 (Z.pos m) <= 2 ^ (K - e)) by (apply Z.pow_le_mono_r; lia). lia. }
    destruct s; cbn [cond_Zopp]; lia.
Qed.

Lemma SFadd_mag (x y : spec_float) (K1 K2 : Z) :
  valid x = true -> valid y = true -> SF_mag_le K1 x -> SF_mag_le K2 y ->
  emin + prec <= Z.max K1 K2 -> Z.max K1 K2 + 2 <= emax ->
  SF_mag_le (Z.max K1 K2 + 2) (SFadd prec emax x y).
Proof using Hprec.
  intros Hx Hy H1 H2 HK1 HK2.
  destruct x as [sx|sx| |sx mx ex] eqn:Ex, y as [sy|sy| |sy my ey] eqn:Ey; try done.
  - destruct sx, sy; done.
  - cbn [SFadd]. eapply SF_mag_le_mono; [|done]. lia.
  - cbn [SFadd]. eapply SF_mag_le_mono; [|done]. lia.
  - rewrite SFadd_finite by done. rewrite <- Ex, <- Ey.
    assert (Hvx : valid x = true) by (subst; done).
    assert (Hvy : valid y = true) by (subst; done).
    assert (Hmx : SF_mag_le (Z.max K1 K2) x) by (eapply SF_mag_le_mono; [|subst; done]; lia).
    assert (Hmy : SF_mag_le (Z.max K1 K2) y) by (eapply SF_mag_le_mono; [|subst; done]; lia).
    pose proof (SFval_abs_lt x _ Hvx Hmx ltac:(lia)) as Hax.
    pose proof (SFval_abs_lt y _ Hvy Hmy ltac:(lia)) as Hay.
    replace (Z.max K1 K2 + 2) with ((Z.max K1 K2 + 1) + 1) by lia.
    apply RndZ_mag; try lia.
    assert (Zdigits2 (Z.abs (SFval x + SFval y)) <= Z.max K1 K2 + 1 - emin); [|lia].
    apply Zdigits2_le; [lia|]. split; [lia|].
    replace (Z.max K1 K2 + 1 - emin) with ((Z.max K1 K2 - emin) + 1) by lia.
    rewrite Z.pow_add_r by lia. lia.
Qed.

Lemma SFsub_mag (x y : spec_float) (K1 K2 : Z) :
  valid x = true -> valid y = true -> SF_mag_le K1 x -> SF_mag_le K2 y ->
  emin + prec <= Z.max K1 K2 -> Z.max K1 K2 + 2 <= emax ->
  SF_mag_le (Z.max K1 K2 + 2) (SFsub prec emax x y).
Proof using Hprec.
  intros. rewrite SFsub_add_opp. apply SFadd_mag; try done.
  - apply SFopp_valid. done.
  - apply SF_mag_le_opp. done.
Qed.

Lemma SFmul_mag (x y : spec_float) (K1 K2 : Z) :
  valid x = true -> valid y = true -> SF_mag_le K1 x -> SF_mag_le K2 y ->
  emin + prec <= K1 + K2 -> K1 + K2 + 1 <= emax ->
  SF_mag_le (K1 + K2 + 1) (SFmul prec emax x y).
Proof using Hprec Hemax.
  intros Hx Hy H1 H2 HK1 HK2.
  destruct x as [sx|sx| |sx mx ex], y as [sy|sy| |sy my ey]; try done.
  cbn [SFmul]. cbn [SpecFloat.valid_binary SF_mag_le] in *.
  apply round_aux_mag; try lia.
  - apply mul_regime; done.
  - rewrite Pos2Z.inj_mul.
    pose proof (Zdigits2_mul_le (Z.pos mx) (Z.pos my) ltac:(lia) ltac:(lia)). lia.
Qed.

Lemma SFdiv_mag (x y : spec_float) (K1 K2 : Z) :
  SF_mag_le K1 x -> SF_mag_ge K2 y ->
  emin + prec <= K1 - K2 + 1 -> K1 - K2 + 2 <= emax ->
  SF_mag_le (K1 - K2 + 2) (SFdiv prec emax x y).
Proof using Hprec.
  intros H1 H2 HK1 HK2.
  destruct x as [sx|sx| |sx mx ex], y as [sy|sy| |sy my ey]; try done.
  cbn [SFdiv SF_mag_le SF_mag_ge] in *.
  pose proof (SFdiv_core_regime prec emax (Z.pos mx) ex (Z.pos my) ey ltac:(lia) ltac:(lia))
    as [Hq Hr].
  assert (Hm : Zdigits2 (SFdiv_core_binary prec emax (Z.pos mx) ex (Z.pos my) ey).1.1 +
               (SFdiv_core_binary prec emax (Z.pos mx) ex (Z.pos my) ey).1.2 <= K1 - K2 + 1).
  { clear Hq Hr. unfold SFdiv_core_binary.
    set (d1 := Zdigits2 (Z.pos mx)) in *. set (d2 := Zdigits2 (Z.pos my)) in *.
    set (e' := Z.min (fexp (d1 + ex - (d2 + ey))) (ex - ey)).
    set (s := ex - ey - e').
    assert (Hs : 0 <= s) by (unfold s, e'; lia).
    set (m' := match s with Z.pos _ => Z.shiftl (Z.pos mx) s | 0 => Z.pos mx | Z.neg _ => 0 end).
    assert (Hm' : m' = Z.pos mx * 2 ^ s).
    { unfold m'. destruct s as [|p|p] eqn:Hp; try lia.
      rewrite Z.shiftl_mul_pow2 by lia. done. }
    pose proof (pow2_pos s Hs) as Hp.
    pose proof (Z.div_eucl_eq m' (Z.pos my) ltac:(lia)) as Heq.
    pose proof (Z.mod_pos_bound m' (Z.pos my) ltac:(lia)) as Hb. unfold Z.modulo in Hb.
    destruct (Z.div_eucl m' (Z.pos my)) as [q r]. cbn [fst snd].
    assert (Hq : 0 <= q) by nia.
    assert (0 < d1) by (unfold d1; cbn; lia).
    assert (0 < d2) by (unfold d2; cbn; lia).
    pose proof (Zdigits2_bounds (Z.pos mx) ltac:(lia)) as [_ Hb1]. fold d1 in Hb1.
    pose proof (Zdigits2_bounds (Z.pos my) ltac:(lia)) as [Hb2 _]. fold d2 in Hb2.
    assert (Z.pos mx * 2 ^ s < 2 ^ d1 * 2 ^ s) by (apply Z.mul_lt_mono_pos_r; lia).
    destruct (Z_le_gt_dec (d1 + s - d2 + 1) 0).
    - assert (q = 0).
      { destruct (Z.eq_dec q 0); [done|]. exfalso.
        assert (2 ^ (d1 + s) <= 2 ^ (d2 - 1)) by (apply Z.pow_le_mono_r; lia).
        rewrite <- Z.pow_add_r in * by lia. nia. }
      subst q. cbn [Zdigits2].
      assert (e' <= fexp (d1 + ex - (d2 + ey))) by (unfold e'; lia).
      rewrite fexp_eq in *. lia.
    - assert (Zdigits2 q <= d1 + s - d2 + 1); [|unfold s in *; lia].
      apply Zdigits2_le; [lia|]. split; [done|].
      destruct (Z_lt_le_dec q (2 ^ (d1 + s - d2 + 1))); [done|]. exfalso.
      assert (Hpw : 2 ^ (d1 + s - d2 + 1) * 2 ^ (d2 - 1) = 2 ^ d1 * 2 ^ s).
      { rewrite <- !Z.pow_add_r by lia. f_equal. lia. }
      pose proof (pow2_pos (d1 + s - d2 + 1) ltac:(lia)).
      pose proof (pow2_pos (d2 - 1) ltac:(lia)).
      assert (2 ^ (d1 + s - d2 + 1) * 2 ^ (d2 - 1) <= q * Z.pos my) by nia.
      nia. }
  destruct (SFdiv_core_binary prec emax (Z.pos mx) ex (Z.pos my) ey) as [[mz ez] lz].
  cbn [fst snd] in *.
  replace (K1 - K2 + 2) with ((K1 - K2 + 1) + 1) by lia.
  apply round_aux_mag; try done; lia.
Qed.

Lemma SFsqrt_core_bounds (m : positive) (e : Z) :
  0 <= (SFsqrt_core_binary prec emax (Z.pos m) e).1.1 /\
  (SFsqrt_core_binary prec emax (Z.pos m) e).1.2 <=
    fexp (Zdigits2 (SFsqrt_core_binary prec emax (Z.pos m) e).1.1 +
          (SFsqrt_core_binary prec emax (Z.pos m) e).1.2) /\
  Zdigits2 (SFsqrt_core_binary prec emax (Z.pos m) e).1.1 +
    (SFsqrt_core_binary prec emax (Z.pos m) e).1.2 <= (Zdigits2 (Z.pos m) + e + 1) / 2.
Proof.
  unfold SFsqrt_core_binary. rewrite !Z.div2_div.
  set (d := Zdigits2 (Z.pos m)).
  set (e' := Z.min (fexp ((d + e + 1) / 2)) (e / 2)).
  set (s := e - 2 * e').
  assert (Hd : 0 < d) by (unfold d; cbn; lia).
  pose proof (Z.div_mod e 2 ltac:(lia)) as He2.
  pose proof (Z.mod_pos_bound e 2 ltac:(lia)) as He2'.
  assert (Hs : 0 <= s) by (unfold s, e'; lia).
  set (m' := match s with Z.pos _ => Z.shiftl (Z.pos m) s | 0 => Z.pos m | Z.neg _ => 0 end).
  assert (Hm' : m' = Z.pos m * 2 ^ s).
  { unfold m'. destruct s as [|p|p] eqn:Hp; try lia.
    rewrite Z.shiftl_mul_pow2 by lia. done. }
  pose proof (pow2_pos s Hs) as Hp.
  pose proof (Z.sqrtrem_spec m' ltac:(nia)) as Hsq.
  destruct (Z.sqrtrem m') as [q r]. destruct Hsq as [Hq1 Hq2]. cbn [fst snd].
  pose proof (Zdigits2_bounds (Z.pos m) ltac:(lia)) as [Hb1 Hb2]. fold d in Hb1, Hb2.
  assert (Hlo : 2 ^ (d + s - 1) <= m').
  { rewrite Hm'. replace (d + s - 1) with ((d - 1) + s) by lia.
    rewrite Z.pow_add_r by lia. apply Z.mul_le_mono_nonneg_r; lia. }
  assert (Hhi : m' < 2 ^ (d + s)).
  { rewrite Hm'. rewrite Z.pow_add_r by lia. apply Z.mul_lt_mono_pos_r; lia. }
  (* lower bound on the digits of the root *)
  set (w := (d + s - 1) / 2).
  pose proof (Z.div_mod (d + s - 1) 2 ltac:(lia)) as Hw.
  pose proof (Z.mod_pos_bound (d + s - 1) 2 ltac:(lia)) as Hw'. fold w in Hw.
  assert (Hw0 : 0 <= w) by lia.
  assert (Hqw : 2 ^ w <= q).
  { destruct (Z_le_gt_dec (2 ^ w) q); [done|]. exfalso.
    assert (Hpw : 2 ^ (w + w) <= 2 ^ (d + s - 1)) by (apply Z.pow_le_mono_r; lia).
    rewrite (Z.pow_add_r 2 w w) in Hpw by lia.
    pose proof (pow2_pos w Hw0).
    assert ((q + 1) * (q + 1) <= 2 ^ w * 2 ^ w) by (apply Z.mul_le_mono_nonneg; lia).
    lia. }
  (* upper bound *)
  set (u := (d + s + 1) / 2).
  pose proof (Z.div_mod (d + s + 1) 2 ltac:(lia)) as Hu.
  pose proof (Z.mod_pos_bound (d + s + 1) 2 ltac:(lia)) as Hu'. fold u in Hu.
  assert (Hu0 : 0 <= u) by lia.
  assert (Hqu : q < 2 ^ u).
  { destruct (Z_lt_le_dec q (2 ^ u)); [done|]. exfalso.
    assert (Hpu : 2 ^ (d + s) <= 2 ^ (u + u)) by (apply Z.pow_le_mono_r; lia).
    rewrite (Z.pow_add_r 2 u u) in Hpu by lia.
    pose proof (pow2_pos u Hu0).
    assert (2 ^ u * 2 ^ u <= q * q) by (apply Z.mul_le_mono_nonneg; lia).
    lia. }
  assert (Hdq1 : w + 1 <= Zdigits2 q) by (apply Zdigits2_ge; done).
  assert (Hdq2 : Zdigits2 q <= u) by (apply Zdigits2_le; lia).
  assert (Hmid : (d + e + 1) / 2 = u + e').
  { unfold u, s. replace (d + (e - 2 * e') + 1) with ((d + e + 1) + (- e') * 2) by lia.
    rewrite Z.div_add by lia. lia. }
  assert (Hwu : u = w + 1).
  { unfold u, w. replace (d + s + 1) with ((d + s - 1) + 1 * 2) by lia.
    rewrite Z.div_add by lia. done. }
  split; [lia|]. split.
  - transitivity (fexp ((d + e + 1) / 2)); [unfold e'; lia|]. apply fexp_mono. lia.
  - lia.
Qed.

Lemma SFsqrt_mag (x : spec_float) (K : Z) :
  SF_sign_is false x -> SF_mag_le K x ->
  emin + prec <= (K + 1) / 2 -> (K + 1) / 2 + 1 <= emax ->
  SF_mag_le ((K + 1) / 2 + 1) (SFsqrt prec emax x).
Proof using Hprec.
  intros Hs HK HK1 HK2. destruct x as [[]|[]| |[] m e]; try done.
  cbn [SFsqrt SF_mag_le] in *.
  pose proof (SFsqrt_core_bounds m e) as (H1 & H2 & H3).
  destruct (SFsqrt_core_binary prec emax (Z.pos m) e) as [[mz ez] lz]. cbn [fst snd] in *.
  apply round_aux_mag; try done.
  transitivity ((Zdigits2 (Z.pos m) + e + 1) / 2); [done|].
  apply Z.div_le_mono; lia.
Qed.

End Magnitude.

(** ** Magnitudes from comparisons *)

Section Bounds.
Variables prec emax : Z.
Hypothesis Hprec : 0 < prec.
Hypothesis Hemax : prec < emax.

Local Abbreviation emin := (SpecFloat.emin prec emax).
Local Abbreviation valid := (SpecFloat.valid_binary prec emax).
Local Abbreviation SFval := (Round.SFval prec emax).

Lemma SF_mag_le_of_val (x : spec_float) (K : Z) :
  valid x = true -> SF_fz x = true -> emin <= K ->
  Z.abs (SFval x) < 2 ^ (K - emin) -> SF_mag_le K x.
Proof.
  intros Hx Fx HK Hv. destruct x as [s|s| |s m e]; try done.
  cbn [SpecFloat.valid_binary] in Hx. apply bounded_canonical in Hx as (He & _).
  cbn [Round.SFval SF_mag_le] in *.
  assert (Hv' : Z.pos m * 2 ^ (e - emin) < 2 ^ (K - emin))
    by (destruct s; cbn [cond_Zopp] in Hv; lia).
  pose proof (pow2_pos (e - emin) ltac:(lia)).
  pose proof (Zdigits2_le (Z.pos m * 2 ^ (e - emin)) (K - emin) ltac:(lia) ltac:(nia)) as Hd.
  rewrite Zdigits2_mul_pow2 in Hd by lia. lia.
Qed.

Lemma SF_mag_ge_val (x : spec_float) (K : Z) :
  valid x = true -> SF_mag_ge K x -> emin < K -> 2 ^ (K - 1 - emin) <= Z.abs (SFval x).
Proof.
  intros Hx HK HKm. destruct x as [s|s| |s m e]; try done.
  cbn [SpecFloat.valid_binary] in Hx. apply bounded_canonical in Hx as (He & _).
  cbn [Round.SFval SF_mag_ge] in *.
  pose proof (Zdigits2_bounds (Z.pos m) ltac:(lia)) as [Hb _].
  pose proof (pow2_pos (e - emin) ltac:(lia)) as Hp.
  assert (0 < Zdigits2 (Z.pos m)) by (cbn; lia).
  assert (2 ^ (K - 1 - emin) <= Z.pos m * 2 ^ (e - emin)).
  { destruct (Z_le_gt_dec (K - 1) e).
    - transitivity (1 * 2 ^ (e - emin)); [|nia]. rewrite Z.mul_1_l.
      apply Z.pow_le_mono_r; lia.
    - replace (K - 1 - emin) with ((K - 1 - e) + (e - emin)) by lia.
      rewrite Z.pow_add_r by lia. apply Z.mul_le_mono_nonneg_r; [lia|].
      transitivity (2 ^ (Zdigits2 (Z.pos m) - 1)); [|done].
      apply Z.pow_le_mono_r; lia. }
  destruct s; cbn [cond_Zopp]; lia.
Qed.

Lemma SF_mag_ge_of_val (x : spec_float) (K : Z) :
  valid x = true -> SF_fz x = true -> emin < K ->
  2 ^ (K - 1 - emin) <= Z.abs (SFval x) -> SF_mag_ge K x.
Proof.
  intros Hx Fx HK Hv. destruct x as [s|s| |s m e]; try done.
  - cbn [Round.SFval] in Hv. pose proof (pow2_pos (K - 1 - emin) ltac:(lia)). lia.
  - cbn [SpecFloat.valid_binary] in Hx. apply bounded_canonical in Hx as (He & _).
    cbn [Round.SFval SF_mag_ge] in *.
    assert (Hv' : 2 ^ (K - 1 - emin) <= Z.pos m * 2 ^ (e - emin))
      by (destruct s; cbn [cond_Zopp] in Hv; lia).
    pose proof (Zdigits2_ge (Z.pos m * 2 ^ (e - emin)) (K - 1 - emin) Hv' ltac:(lia)) as Hd.
    rewrite Zdigits2_mul_pow2 in Hd by lia. lia.
Qed.

Lemma SFval_abs (x : spec_float) : SFval (SFabs x) = Z.abs (SFval x).
Proof.
  destruct x as [s|s| |s m e]; try done. cbn [SFabs Round.SFval].
  destruct (Z_le_gt_dec emin e).
  - pose proof (pow2_pos (e - emin) ltac:(lia)). destruct s; cbn [cond_Zopp]; lia.
  - rewrite Z.pow_neg_r by lia. destruct s; cbn [cond_Zopp]; lia.
Qed.

Lemma SFabs_valid (x : spec_float) : valid x = true -> valid (SFabs x) = true.
Proof. destruct x; done. Qed.

Lemma SFabs_le_mag (x b : spec_float) (K : Z) :
  valid x = true -> valid b = true -> SF_mag_le K b -> emin <= K ->
  SFleb (SFabs x) b = true -> SF_mag_le K x.
Proof using Hprec.
  intros Hx Hb HK HKm Hle.
  assert (Fx : SF_fz x = true).
  { destruct x as [| | |]; try done. destruct b as [| | |]; done. }
  assert (Fb : SF_fz b = true) by (eapply SF_mag_le_fz; done).
  rewrite (SFleb_val prec emax Hprec) in Hle
    by (try apply SFabs_valid; try done; destruct x; done).
  apply Z.leb_le in Hle. rewrite SFval_abs in Hle.
  pose proof (SFval_abs_lt prec emax b K Hb HK HKm).
  apply SF_mag_le_of_val; try done. lia.
Qed.

Lemma SFabs_ge_mag (x b : spec_float) (K : Z) :
  valid x = true -> valid b = true -> SF_mag_ge K b -> SF_sign_is false b ->
  emin < K -> SF_fz x = true ->
  SFleb b (SFabs x) = true -> SF_mag_ge K x.
Proof using Hprec.
  intros Hx Hb HK Hsb HKm Fx Hle.
  assert (Fb : SF_fz b = true) by (destruct b; done).
  assert (0 <= SFval b).
  { destruct b as [| | |[] m e]; try done. cbn [Round.SFval cond_Zopp].
    pose proof (Z.pow_nonneg 2 (e - emin) ltac:(lia)). lia. }
  rewrite (SFleb_val prec emax Hprec) in Hle
    by (try apply SFabs_valid; try done; destruct x; done).
  apply Z.leb_le in Hle. rewrite SFval_abs in Hle.
  pose proof (SF_mag_ge_val b K Hb HK HKm).
  apply SF_mag_ge_of_val; try done. lia.
Qed.

End Bounds.

(** ** Roundings of inexact results: division

    [SFdiv] rounds an integer quotient together with a location that
    tells where the exact result lies above it.  Read as two more bits,
    the location turns the pair into one integer, a stand-in of the exact
    result: an even stand-in is the exact result, an odd one is strictly
    between its two even neighbours.  Rounding a stand-in gives the same
    float at every scale that drops at least two bits, and stand-ins are
    ordered as the exact results are: division is monotone. *)

Lemma even_cases (N : Z) : (Z.even N = true /\ exists k, N = 2 * k) \/
                           (Z.even N = false /\ exists k, N = 2 * k + 1).
Proof.
  destruct (Z.even N) eqn:H.
  - left. split; [done|]. apply Z.even_spec in H as [k ->]. eauto.
  - right. split; [done|]. rewrite <- Z.negb_odd in H. apply negb_false_iff in H.
    apply Z.odd_spec in H as [k ->]. eauto.
Qed.

Lemma sticky_div_stands (A B : Z) : 0 < B -> stands_div (sticky_div A B) A B.
Proof.
  intros HB. unfold stands_div, sticky_div.
  pose proof (Z.div_mod A B ltac:(lia)) as E. pose proof (Z.mod_pos_bound A B HB) as R.
  destruct (Z.eqb_spec (A mod B) 0) as [H0|H0].
  - rewrite Z.add_0_r, Z.even_mul. cbn [Z.even orb]. nia.
  - rewrite Z.add_comm, Z.even_add_mul_2. cbn [Z.even]. nia.
Qed.

Lemma stands_div_mono (N N' A B A' B' : Z) :
  0 < B -> 0 < B' -> stands_div N A B -> stands_div N' A' B' -> A * B' <= A' * B -> N <= N'.
Proof.
  intros HB HB' H H' Hle. unfold stands_div in *.
  destruct (Z_le_gt_dec N N') as [|Hgt]; [done|exfalso].
  destruct (even_cases N) as [[E [k ->]]|[E [k ->]]], (even_cases N') as [[E' [k' ->]]|[E' [k' ->]]];
    rewrite E in H; rewrite E' in H'.
  all: assert (HP : 0 < B * B') by nia.
  - assert (A = k * B) by lia. assert (A' = k' * B') by lia. subst A A'.
    assert ((k' + 1) * (B * B') <= k * (B * B')) by (apply Z.mul_le_mono_nonneg_r; lia). nia.
  - assert (A = k * B) by lia. subst A.
    assert (A' * B < (k' + 1) * B' * B) by (apply Z.mul_lt_mono_pos_r; lia).
    assert ((k' + 1) * (B * B') <= k * (B * B')) by (apply Z.mul_le_mono_nonneg_r; lia). nia.
  - assert (A' = k' * B') by lia. subst A'.
    assert (k * B * B' < A * B') by (apply Z.mul_lt_mono_pos_r; lia).
    assert (k' * (B * B') <= k * (B * B')) by (apply Z.mul_le_mono_nonneg_r; lia). nia.
  - assert (A' * B < (k' + 1) * B' * B) by (apply Z.mul_lt_mono_pos_r; lia).
    assert (k * B * B' < A * B') by (apply Z.mul_lt_mono_pos_r; lia).
    assert ((k' + 1) * (B * B') <= k * (B * B')) by (apply Z.mul_le_mono_nonneg_r; lia). nia.
Qed.

Lemma sticky_div_mono (A B A' B' : Z) :
  0 < B -> 0 < B' -> A * B' <= A' * B -> sticky_div A B <= sticky_div A' B'.
Proof.
  intros HB HB' H. eapply (stands_div_mono _ _ A B A' B'); try done; apply sticky_div_stands; done.
Qed.

Lemma stands_div_unique (N N' A B : Z) :
  0 < B -> stands_div N A B -> stands_div N' A B -> N = N'.
Proof.
  intros HB H H'.
  pose proof (stands_div_mono N N' A B A B HB HB H H' ltac:(lia)).
  pose proof (stands_div_mono N' N A B A B HB HB H' H ltac:(lia)). lia.
Qed.

Lemma sticky_div_pos (A B : Z) : 0 < A -> 0 < B -> 0 < sticky_div A B.
Proof.
  intros HA HB. unfold sticky_div.
  pose proof (Z.div_mod A B ltac:(lia)) as E. pose proof (Z.mod_pos_bound A B HB) as R.
  assert (0 <= A / B) by (apply Z.div_pos; lia).
  destruct (Z.eqb_spec (A mod B) 0); [nia|lia].
Qed.

Lemma stands_div_scale_even (N A B j : Z) :
  0 <= j -> Z.even N = true -> stands_div N A B -> stands_div (N * 2 ^ j) (A * 2 ^ j) B.
Proof.
  intros Hj HN. unfold stands_div. rewrite HN, Z.even_mul, HN. cbn [orb]. nia.
Qed.

Lemma stands_div_scale_odd (N N' A B j : Z) :
  0 < B -> 0 <= j -> Z.even N = false -> stands_div N A B -> stands_div N' (A * 2 ^ j) B ->
  (N - 1) * 2 ^ j < N' < (N + 1) * 2 ^ j.
Proof.
  intros HB Hj HN H H'. unfold stands_div in *. rewrite HN in H.
  pose proof (pow2_pos j Hj) as HP. set (P := 2 ^ j) in *.
  destruct (even_cases N) as [[E _]|[_ [k ->]]]; [congruence|].
  replace (2 * k + 1 - 1) with (2 * k) in * by lia.
  replace (2 * k + 1 + 1) with (2 * (k + 1)) in * by lia.
  destruct H as [Hlo Hhi].
  assert (Hlo' : 2 * k * P * B < 2 * (A * P)) by nia.
  assert (Hhi' : 2 * (A * P) < 2 * (k + 1) * P * B) by nia.
  destruct (even_cases N') as [[E' [k' ->]]|[E' [k' ->]]]; rewrite E' in H'.
  - assert (2 * k * P * B < 2 * k' * B) by lia.
    assert (2 * k' * B < 2 * (k + 1) * P * B) by lia.
    split; apply (Z.mul_lt_mono_pos_r B); lia.
  - replace (2 * k' + 1 - 1) with (2 * k') in * by lia.
    replace (2 * k' + 1 + 1) with (2 * (k' + 1)) in * by lia.
    assert (H1 : k * P * B < (k' + 1) * B) by lia.
    assert (H2 : k' * B < (k + 1) * P * B) by lia.
    apply Z.mul_lt_mono_pos_r in H1; [|done]. apply Z.mul_lt_mono_pos_r in H2; [|done].
    lia.
Qed.

(** Rounding an odd stand-in: when at least two bits are dropped, every
    number strictly between its even neighbours rounds alike. *)
Lemma rnd_shift_sticky (N N' k j : Z) :
  Z.even N = false -> 0 < N -> 2 <= k -> 0 <= j ->
  (N - 1) * 2 ^ j < N' < (N + 1) * 2 ^ j ->
  rnd_shift N' (k + j) = rnd_shift N k.
Proof.
  intros HN HN0 Hk Hj [Hlo Hhi]. unfold rnd_shift.
  destruct (Z.leb_spec (k + j) 0); [lia|]. destruct (Z.leb_spec k 0); [lia|]. cbv zeta.
  pose proof (pow2_pos j Hj) as HP. pose proof (pow2_pos k ltac:(lia)) as HK.
  pose proof (pow2_pos (k - 2) ltac:(lia)) as HK2.
  assert (Hh : 2 ^ (k - 1) = 2 * 2 ^ (k - 2)).
  { rewrite <- Z.pow_succ_r by lia. f_equal. lia. }
  assert (Hk' : 2 ^ k = 2 * 2 ^ (k - 1)).
  { rewrite <- Z.pow_succ_r by lia. f_equal. lia. }
  rewrite (Z.pow_add_r 2 k j) by lia.
  replace (k + j - 1) with ((k - 1) + j) by lia. rewrite (Z.pow_add_r 2 (k - 1) j) by lia.
  pose proof (Z.div_mod N (2 ^ k) ltac:(lia)) as E. pose proof (Z.mod_pos_bound N (2 ^ k) HK) as R.
  set (q := N / 2 ^ k) in *. set (r := N mod 2 ^ k) in *.
  set (P := 2 ^ j) in *. set (h := 2 ^ (k - 1)) in *. set (g := 2 ^ (k - 2)) in *.
  destruct (even_cases N) as [[E' _]|[_ [n Hn]]]; [congruence|].
  (* the remainder is odd, so it is neither zero nor the half *)
  assert (Hr : r = 2 * (n - 2 * g * q) + 1) by lia.
  assert (Hq' : N' / (2 ^ k * P) = q).
  { symmetry. apply (Z.div_unique_pos _ _ _ (N' - 2 ^ k * P * q)); [|lia].
    assert (2 ^ k * q * P <= (N - 1) * P) by (apply Z.mul_le_mono_nonneg_r; lia).
    assert ((N + 1) * P <= (2 ^ k * q + 2 ^ k) * P) by (apply Z.mul_le_mono_nonneg_r; lia).
    lia. }
  pose proof (Z.div_mod N' (2 ^ k * P) ltac:(nia)) as E''. rewrite Hq' in E''.
  set (r' := N' mod (2 ^ k * P)) in *. rewrite Hq'.
  assert (Hr1 : (r - 1) * P < r') by nia.
  assert (Hr2 : r' < (r + 1) * P) by nia.
  destruct (Z.ltb_spec r h) as [Hc|Hc].
  - assert (r + 1 <= h) by lia.
    assert ((r + 1) * P <= h * P) by (apply Z.mul_le_mono_nonneg_r; lia).
    destruct (Z.ltb_spec r' (h * P)); [done|lia].
  - assert (h <= r - 1) by lia.
    assert (h * P <= (r - 1) * P) by (apply Z.mul_le_mono_nonneg_r; lia).
    destruct (Z.ltb_spec r' (h * P)); [lia|].
    destruct (Z.ltb_spec h r); [|lia]. destruct (Z.ltb_spec (h * P) r'); [done|lia].
Qed.

Lemma loc_code_range (l : location) : 0 <= loc_code l <= 3.
Proof. destruct l as [|[]]; simpl; lia. Qed.

Lemma Zdigits2_4 (m c : Z) : 0 < m -> 0 <= c <= 3 -> Zdigits2 (4 * m + c) = Zdigits2 m + 2.
Proof.
  intros Hm Hc. pose proof (Zdigits2_bounds m Hm) as [H1 H2].
  assert (0 < Zdigits2 m) by (destruct m; simpl; lia).
  apply Zdigits2_unique; [lia|].
  replace (Zdigits2 m + 2 - 1) with (Z.succ (Z.succ (Zdigits2 m - 1))) by lia.
  replace (Zdigits2 m + 2) with (Z.succ (Z.succ (Zdigits2 m))) by lia.
  rewrite !Z.pow_succ_r by lia. lia.
Qed.

Lemma shr_record_of_loc_shifted (m : Z) (l : location) :
  0 <= m -> shr_record_of_loc m l = shifted (4 * m + loc_code l) 2.
Proof.
  intros Hm. pose proof (loc_code_range l) as Hc.
  apply shr_record_ext; cbn [shifted shr_m shr_r shr_s].
  - change (2 ^ 2) with 4. transitivity m; [destruct l as [|[]]; done|].
    apply (Z.div_unique_pos _ _ _ (loc_code l)); lia.
  - change (2 - 1) with 1.
    rewrite Z.testbit_odd, Z.shiftr_div_pow2 by lia. change (2 ^ 1) with 2.
    replace (4 * m + loc_code l) with (loc_code l + (2 * m) * 2) by lia.
    rewrite Z.div_add by lia. rewrite Z.odd_add_mul_2. destruct l as [|[]]; done.
  - change (2 ^ (2 - 1)) with 2.
    replace (4 * m + loc_code l) with (loc_code l + (2 * m) * 2) by lia.
    rewrite Z.mod_add by lia. destruct l as [|[]]; done.
Qed.

Lemma shr_iter_shifted (n : nat) (N k : Z) : 0 <= N -> 1 <= k ->
  Nat.iter n shr_1 (shifted N k) = shifted N (k + Z.of_nat n).
Proof.
  intros HN Hk. induction n as [|n IH].
  - cbn [Nat.iter Z.of_nat]. rewrite Z.add_0_r. done.
  - rewrite Nat.iter_succ, IH, shr_1_shifted by lia.
    replace (k + Z.of_nat n + 1) with (k + Z.of_nat (S n)) by lia. done.
Qed.

Lemma shr_shifted (N k e n : Z) : 0 <= N -> 1 <= k ->
  shr (shifted N k) e n = if 0 <? n then (shifted N (k + n), e + n) else (shifted N k, e).
Proof.
  intros HN Hk. destruct n as [|p|p]; cbn [shr Z.ltb Z.compare]; try done.
  rewrite iter_pos_nat, shr_iter_shifted by done. rewrite positive_nat_Z. done.
Qed.

Section Sticky.
Variables prec emax : Z.
Hypothesis Hprec : 0 < prec.

Local Abbreviation emin := (SpecFloat.emin prec emax).
Local Abbreviation fexp := (SpecFloat.fexp prec emax).
Local Abbreviation valid := (SpecFloat.valid_binary prec emax).
Local Abbreviation finish := (Round.finish prec emax).
Local Abbreviation Rnd := (Round.Rnd prec emax).
Local Abbreviation rnd_man := (Round.rnd_man prec emax).
Local Abbreviation rnd_exp := (Round.rnd_exp prec emax).

Lemma rnd_exp_loc (m e c : Z) :
  0 <= m -> 0 <= c <= 3 -> e <= fexp (Zdigits2 m + e) ->
  rnd_exp (e - 2) (4 * m + c) = fexp (Zdigits2 m + e).
Proof using Hprec.
  intros Hm Hc He. unfold Round.rnd_exp.
  destruct (Z.eq_dec m 0) as [->|Hm0].
  - change (Zdigits2 0) with 0 in *. rewrite !fexp_eq in *.
    assert (Zdigits2 (4 * 0 + c) <= 2) by (apply Zdigits2_le; lia).
    pose proof (Zdigits2_nonneg (4 * 0 + c)). lia.
  - rewrite Zdigits2_4 by lia. f_equal. lia.
Qed.

(** [binary_round_aux] on a mantissa with a location is [Rnd] on the
    mantissa with the location as its two lowest bits. *)
Lemma round_aux_loc (s : bool) (m e : Z) (l : location) :
  0 <= m -> e <= fexp (Zdigits2 m + e) ->
  binary_round_aux prec emax s m e l = Rnd (e - 2) s (4 * m + loc_code l).
Proof using Hprec.
  intros Hm He. pose proof (loc_code_range l) as Hc.
  pose proof (rnd_exp_loc m e (loc_code l) Hm Hc He) as HE.
  rewrite round_aux_finish.
  assert (Hr : Round.rounded prec emax (rnd_man (e - 2) (4 * m + loc_code l))
                 (rnd_exp (e - 2) (4 * m + loc_code l))).
  { apply rnd_man_rounded; [done|lia|]. right. lia. }
  unfold Round.Rnd, Round.rnd_pair. rewrite <- (finish_rounded prec emax Hprec s _ _ Hr). clear Hr.
  unfold shr_fexp, Round.rnd_man. rewrite HE.
  rewrite shr_record_of_loc_shifted, shr_shifted by lia.
  remember (fexp (Zdigits2 m + e)) as E eqn:HeqE. clear HeqE HE.
  destruct (Z.leb_spec (e - 2) E); [|lia].
  destruct (Z.ltb_spec 0 (E - e)); cbn [fst snd].
  - rewrite rne_shifted by lia. f_equal; [f_equal|]; lia.
  - rewrite rne_shifted by lia. f_equal; [f_equal|]; lia.
Qed.

(** A number strictly between the even neighbours of an odd stand-in
    rounds as the stand-in does, at any finer scale. *)
Lemma Rnd_sticky (L j : Z) (s : bool) (N N' : Z) :
  Z.even N = false -> 0 < N -> 0 <= j ->
  (N - 1) * 2 ^ j < N' < (N + 1) * 2 ^ j ->
  L + 2 <= rnd_exp L N ->
  Rnd (L - j) s N' = Rnd L s N.
Proof using Hprec.
  intros HN HN0 Hj HN' HL.
  pose proof (pow2_pos j Hj) as HP.
  assert (HN'0 : 0 < N') by nia.
  assert (HE : rnd_exp (L - j) N' = rnd_exp L N).
  { unfold Round.rnd_exp in *. rewrite !fexp_eq in *.
    destruct (Z.eq_dec N 1) as [->|HN1].
    - change (Zdigits2 1) with 1 in *.
      assert (Zdigits2 N' <= j + 1).
      { apply Zdigits2_le; [lia|]. rewrite Z.pow_add_r by lia. lia. }
      pose proof (Zdigits2_nonneg N'). lia.
    - destruct (even_cases N) as [[E _]|[_ [n Hn]]]; [congruence|].
      pose proof (Zdigits2_bounds N HN0) as [Hb1 Hb2].
      assert (Hd : 2 <= Zdigits2 N).
      { change 2 with (1 + 1). apply Zdigits2_ge; lia. }
      assert (Hp : 2 ^ (Zdigits2 N - 1) = 2 * 2 ^ (Zdigits2 N - 2)).
      { rewrite <- Z.pow_succ_r by lia. f_equal. lia. }
      assert (Hp' : 2 ^ Zdigits2 N = 2 * 2 ^ (Zdigits2 N - 1)).
      { rewrite <- Z.pow_succ_r by lia. f_equal. lia. }
      assert (Zdigits2 N' = Zdigits2 N + j); [|lia].
      apply Zdigits2_unique; [lia|].
      replace (Zdigits2 N + j - 1) with ((Zdigits2 N - 1) + j) by lia.
      rewrite !Z.pow_add_r by lia.
      assert (2 ^ (Zdigits2 N - 1) * 2 ^ j <= (N - 1) * 2 ^ j)
        by (apply Z.mul_le_mono_nonneg_r; lia).
      assert ((N + 1) * 2 ^ j <= 2 ^ Zdigits2 N * 2 ^ j)
        by (apply Z.mul_le_mono_nonneg_r; lia).
      lia. }
  unfold Round.Rnd, Round.rnd_pair. rewrite HE. do 3 f_equal.
  all: unfold Round.rnd_man; rewrite HE.
  all: destruct (Z.leb_spec L (rnd_exp L N)); [|lia].
  all: destruct (Z.leb_spec (L - j) (rnd_exp L N)); [|lia].
  all: replace (rnd_exp L N - (L - j)) with ((rnd_exp L N - L) + j) by lia.
  all: apply rnd_shift_sticky; try done; lia.
Qed.

Lemma Rnd_stands_div_scale (L j : Z) (s : bool) (N N' A B : Z) :
  0 < B -> 0 < N -> 0 <= j ->
  stands_div N A B -> stands_div N' (A * 2 ^ j) B ->
  L + 2 <= rnd_exp L N ->
  Rnd (L - j) s N' = Rnd L s N.
Proof using Hprec.
  intros HB HN Hj H H' HL. destruct (Z.even N) eqn:HE.
  - pose proof (stands_div_scale_even N A B j Hj HE H) as H2.
    rewrite (stands_div_unique N' (N * 2 ^ j) (A * 2 ^ j) B HB H' H2).
    apply Rnd_scale; done.
  - apply Rnd_sticky; try done. apply (stands_div_scale_odd N N' A B j); done.
Qed.

Lemma new_location_code (B r : Z) :
  loc_code (new_location B r) =
  if r =? 0 then 0 else match 2 * r ?= B with Lt => 1 | Eq => 2 | Gt => 3 end.
Proof.
  unfold new_location, new_location_even, new_location_odd.
  destruct (even_cases B) as [[EB [b Hb]]|[EB [b Hb]]]; rewrite EB;
    destruct (Z.eqb_spec r 0) as [Hr|Hr]; try done.
  destruct (Z.compare_spec (2 * r + 1) B), (Z.compare_spec (2 * r) B); cbn [loc_code]; lia.
Qed.

Lemma div_eucl_stands (A B : Z) :
  0 <= A -> 0 < B ->
  stands_div (4 * (Z.div_eucl A B).1 + loc_code (new_location B (Z.div_eucl A B).2)) (2 * A) B.
Proof.
  intros HA HB. pose proof (Z.div_eucl_eq A B ltac:(lia)) as E.
  pose proof (Z.mod_pos_bound A B HB) as R. unfold Z.modulo in R.
  destruct (Z.div_eucl A B) as [q r]. cbn [fst snd].
  rewrite new_location_code. unfold stands_div.
  destruct (Z.eqb_spec r 0) as [->|Hr].
  - rewrite Z.add_0_r.
    replace (4 * q) with (2 * (2 * q)) by lia. rewrite Z.even_mul. cbn [Z.even orb]. lia.
  - destruct (Z.compare_spec (2 * r) B) as [Hc|Hc|Hc].
    + replace (4 * q + 2) with (2 * (2 * q + 1)) by lia.
      rewrite Z.even_mul. cbn [Z.even orb]. lia.
    + replace (4 * q + 1) with (1 + 2 * (2 * q)) by lia.
      rewrite Z.even_add_mul_2. cbn [Z.even]. lia.
    + replace (4 * q + 3) with (1 + 2 * (2 * q + 1)) by lia.
      rewrite Z.even_add_mul_2. cbn [Z.even]. lia.
Qed.

Lemma stands_div_cancel (N A B c : Z) :
  0 < c -> stands_div N (A * c) (B * c) -> stands_div N A B.
Proof.
  intros Hc. unfold stands_div. destruct (Z.even N).
  - intros H. apply (Z.mul_cancel_r _ _ c); lia.
  - intros [H1 H2]. split; apply (Z.mul_lt_mono_pos_r c); lia.
Qed.

Lemma stands_div_mult (N A B c : Z) :
  0 < c -> stands_div N A B -> stands_div N (c * A) (c * B).
Proof.
  intros Hc. unfold stands_div. destruct (Z.even N).
  - intros H. replace (N * (c * B)) with (c * (N * B)) by lia. rewrite H. lia.
  - intros [H1 H2].
    replace ((N - 1) * (c * B)) with (c * ((N - 1) * B)) by lia.
    replace ((N + 1) * (c * B)) with (c * ((N + 1) * B)) by lia.
    replace (2 * (c * A)) with (c * (2 * A)) by lia.
    split; apply Z.mul_lt_mono_pos_l; done.
Qed.

Lemma stands_div_pos (N A B : Z) : 0 < A -> 0 < B -> stands_div N A B -> 0 < N.
Proof.
  intros HA HB. unfold stands_div.
  destruct (even_cases N) as [[E [k ->]]|[E [k ->]]]; rewrite E; nia.
Qed.

(** The quotient of two finite numbers is the rounding of any stand-in of
    the exact quotient, at every scale that is fine enough. *)
Lemma SFdiv_stands (sx sy : bool) (mx my : positive) (ex ey : Z) :
  exists t0, forall t N, t0 <= t ->
    stands_div N (Z.pos mx * 2 ^ t) (Z.pos my) ->
    SFdiv prec emax (S754_finite sx mx ex) (S754_finite sy my ey) =
    Rnd (ex - ey - t - 1) (xorb sx sy) N.
Proof using Hprec.
  cbn [SFdiv].
  pose proof (SFdiv_core_regime prec emax (Z.pos mx) ex (Z.pos my) ey
                ltac:(lia) ltac:(lia)) as [Hq Hr].
  revert Hq Hr. unfold SFdiv_core_binary.
  set (e' := Z.min (fexp (Zdigits2 (Z.pos mx) + ex - (Zdigits2 (Z.pos my) + ey))) (ex - ey)).
  set (s := ex - ey - e').
  assert (Hs : 0 <= s) by (unfold s, e'; lia).
  set (m' := match s with Z.pos _ => Z.shiftl (Z.pos mx) s | 0 => Z.pos mx | Z.neg _ => 0 end).
  assert (Hm' : m' = Z.pos mx * 2 ^ s).
  { unfold m'. destruct s as [|p|p] eqn:Hp; try lia.
    rewrite Z.shiftl_mul_pow2 by lia. done. }
  pose proof (pow2_pos s Hs) as Hp.
  pose proof (div_eucl_stands m' (Z.pos my) ltac:(nia) ltac:(lia)) as Hst.
  destruct (Z.div_eucl m' (Z.pos my)) as [q r]. cbn [fst snd] in *. intros Hq Hr.
  exists (s + 1). intros t N Ht HN.
  rewrite round_aux_loc by done.
  assert (H2A : 2 * m' = Z.pos mx * 2 ^ (s + 1)).
  { rewrite Hm', Z.pow_add_r by lia. change (2 ^ 1) with 2. lia. }
  rewrite H2A in Hst.
  assert (HN0 : 0 < 4 * q + loc_code (new_location (Z.pos my) r)).
  { eapply stands_div_pos; [| |exact Hst]; [|lia].
    pose proof (pow2_pos (s + 1) ltac:(lia)). nia. }
  replace (ex - ey - t - 1) with ((e' - 2) - (t - (s + 1))) by (unfold s; lia).
  symmetry.
  apply (Rnd_stands_div_scale _ _ _ _ _ (Z.pos mx * 2 ^ (s + 1)) (Z.pos my)); try done; try lia.
  - rewrite <- Z.mul_assoc, <- Z.pow_add_r by lia.
    replace (s + 1 + (t - (s + 1))) with t by lia. done.
  - rewrite rnd_exp_loc; [lia|done|apply loc_code_range|done].
Qed.

(** The same with both operands taken as integers at a common exponent
    [b]. *)
Lemma SFdiv_val (b : Z) (sx sy : bool) (mx my : positive) (ex ey : Z) :
  b <= ex -> b <= ey ->
  exists T0, 0 <= T0 /\ forall T N, T0 <= T ->
    stands_div N (Z.pos mx * 2 ^ (ex - b) * 2 ^ T) (Z.pos my * 2 ^ (ey - b)) ->
    SFdiv prec emax (S754_finite sx mx ex) (S754_finite sy my ey) =
    Rnd (- T - 1) (xorb sx sy) N.
Proof using Hprec.
  intros Hx Hy. destruct (SFdiv_stands sx sy mx my ex ey) as [t0 Ht0].
  exists (Z.max 0 (Z.max (t0 - (ex - ey)) (ey - ex))). split; [lia|].
  intros T N HT HN.
  replace (- T - 1) with (ex - ey - (T + (ex - ey)) - 1) by lia.
  apply Ht0; [lia|].
  apply (stands_div_cancel _ _ _ (2 ^ (ey - b))); [apply pow2_pos; lia|].
  rewrite <- (Z.mul_assoc (Z.pos mx)), <- Z.pow_add_r by lia.
  rewrite <- (Z.mul_assoc (Z.pos mx)), <- Z.pow_add_r in HN by lia.
  replace (T + (ex - ey) + (ey - b)) with (ex - b + T) by lia. done.
Qed.

(** Division is monotone in the exact quotient. *)
Lemma SFdiv_mono (b : Z) (m1 n1 m2 n2 : positive) (e1 f1 e2 f2 : Z) :
  b <= e1 -> b <= f1 -> b <= e2 -> b <= f2 ->
  (Z.pos m1 * 2 ^ (e1 - b)) * (Z.pos n2 * 2 ^ (f2 - b)) <=
  (Z.pos m2 * 2 ^ (e2 - b)) * (Z.pos n1 * 2 ^ (f1 - b)) ->
  SFleb (SFdiv prec emax (S754_finite false m1 e1) (S754_finite false n1 f1))
        (SFdiv prec emax (S754_finite false m2 e2) (S754_finite false n2 f2)) = true.
Proof using Hprec.
  intros He1 Hf1 He2 Hf2 Hle.
  destruct (SFdiv_val b false false m1 n1 e1 f1 He1 Hf1) as (T1 & HT1 & H1).
  destruct (SFdiv_val b false false m2 n2 e2 f2 He2 Hf2) as (T2 & HT2 & H2).
  set (T := Z.max T1 T2).
  pose proof (pow2_pos T ltac:(lia)) as HP.
  pose proof (pow2_pos (e1 - b) ltac:(lia)). pose proof (pow2_pos (f1 - b) ltac:(lia)).
  pose proof (pow2_pos (e2 - b) ltac:(lia)). pose proof (pow2_pos (f2 - b) ltac:(lia)).
  set (V1 := Z.pos m1 * 2 ^ (e1 - b)) in *. set (W1 := Z.pos n1 * 2 ^ (f1 - b)) in *.
  set (V2 := Z.pos m2 * 2 ^ (e2 - b)) in *. set (W2 := Z.pos n2 * 2 ^ (f2 - b)) in *.
  assert (0 < V1) by (unfold V1; nia). assert (0 < W1) by (unfold W1; nia).
  assert (0 < V2) by (unfold V2; nia). assert (0 < W2) by (unfold W2; nia).
  rewrite (H1 T (sticky_div (V1 * 2 ^ T) W1)) by (try apply sticky_div_stands; lia).
  rewrite (H2 T (sticky_div (V2 * 2 ^ T) W2)) by (try apply sticky_div_stands; lia).
  cbn [xorb]. apply Rnd_mono_pos; [done|]. split.
  - apply sticky_div_pos; nia.
  - apply sticky_div_mono; try done.
    replace (V1 * 2 ^ T * W2) with (V1 * W2 * 2 ^ T) by lia.
    replace (V2 * 2 ^ T * W1) with (V2 * W1 * 2 ^ T) by lia.
    apply Z.mul_le_mono_nonneg_r; lia.
Qed.

(** The quotient depends on the ratio of the operands only. *)
Lemma SFdiv_scale (b k : Z) (sx sy : bool) (m1 n1 m2 n2 : positive) (e1 f1 e2 f2 : Z) :
  b <= e1 -> b <= f1 -> b <= e2 -> b <= f2 -> 0 < k ->
  Z.pos m2 * 2 ^ (e2 - b) = k * (Z.pos m1 * 2 ^ (e1 - b)) ->
  Z.pos n2 * 2 ^ (f2 - b) = k * (Z.pos n1 * 2 ^ (f1 - b)) ->
  SFdiv prec emax (S754_finite sx m2 e2) (S754_finite sy n2 f2) =
  SFdiv prec emax (S754_finite sx m1 e1) (S754_finite sy n1 f1).
Proof using Hprec.
  intros He1 Hf1 He2 Hf2 Hk HV HW.
  destruct (SFdiv_val b sx sy m1 n1 e1 f1 He1 Hf1) as (T1 & HT1 & H1).
  destruct (SFdiv_val b sx sy m2 n2 e2 f2 He2 Hf2) as (T2 & HT2 & H2).
  set (T := Z.max T1 T2).
  pose proof (pow2_pos (f1 - b) ltac:(lia)).
  set (N := sticky_div (Z.pos m1 * 2 ^ (e1 - b) * 2 ^ T) (Z.pos n1 * 2 ^ (f1 - b))).
  assert (HN : stands_div N (Z.pos m1 * 2 ^ (e1 - b) * 2 ^ T) (Z.pos n1 * 2 ^ (f1 - b)))
    by (apply sticky_div_stands; nia).
  rewrite (H1 T N) by (done || lia). apply (H2 T N); [lia|].
  rewrite HV, HW, <- Z.mul_assoc. apply stands_div_mult; done.
Qed.

(** Dividing an integer by one rounds the integer. *)
Lemma SFdiv_one (s : bool) (m : positive) :
  SFdiv prec emax (S754_finite s m 0) (S754_finite false 1 0) = Rnd 0 s (Z.pos m).
Proof using Hprec.
  destruct (SFdiv_val 0 s false m 1 0 0 ltac:(lia) ltac:(lia)) as (T0 & HT0 & H).
  rewrite (H T0 (Z.pos m * 2 ^ (T0 + 1))); [|lia|].
  - rewrite xorb_false_r. replace (- T0 - 1) with (0 - (T0 + 1)) by lia.
    apply Rnd_scale; lia.
  - unfold stands_div. rewrite Z.sub_diag, Z.pow_0_r, Z.pow_add_r by lia.
    change (2 ^ 1) with 2. rewrite Z.mul_assoc, Z.even_mul. cbn [Z.even].
    rewrite orb_true_r. lia.
Qed.

(** A number divided by itself is one. *)
Lemma SFdiv_same (m : positive) (e : Z) :
  SFdiv prec emax (S754_finite false m e) (S754_finite false m e) = Rnd 0 false 1.
Proof using Hprec.
  destruct (SFdiv_val e false false m m e e ltac:(lia) ltac:(lia)) as (T0 & HT0 & H).
  rewrite (H T0 (1 * 2 ^ (T0 + 1))); [|lia|].
  - cbn [xorb]. replace (- T0 - 1) with (0 - (T0 + 1)) by lia. apply Rnd_scale; lia.
  - unfold stands_div. rewrite Z.mul_1_l, Z.sub_diag, Z.pow_0_r, Z.pow_add_r by lia.
    change (2 ^ 1) with 2. rewrite Z.even_mul. cbn [Z.even orb]. rewrite orb_true_r. lia.
Qed.

End Sticky.

(** ** Order *)

Lemma SFmul_comm (prec emax : Z) (x y : spec_float) :
  SFmul prec emax x y = SFmul prec emax y x.
Proof.
  destruct x as [sx|sx| |sx mx ex], y as [sy|sy| |sy my ey]; cbn [SFmul];
    rewrite ?(xorb_comm sx sy); try done.
  rewrite (Pos.mul_comm mx my), (Z.add_comm ex ey). done.
Qed.

Section Order.
Variables prec emax : Z.
Hypothesis Hprec : 0 < prec.

Local Abbreviation emin := (SpecFloat.emin prec emax).
Local Abbreviation valid := (SpecFloat.valid_binary prec emax).
Local Abbreviation SFval := (Round.SFval prec emax).

Lemma SFleb_trans (x y z : spec_float) :
  valid x = true -> valid y = true -> valid z = true ->
  SFleb x y = true -> SFleb y z = true -> SFleb x z = true.
Proof using Hprec.
  intros Hx Hy Hz Hxy Hyz.
  destruct (SF_fz x && SF_fz y && SF_fz z) eqn:Hf.
  - apply andb_true_iff in Hf as [Hf Fz]. apply andb_true_iff in Hf as [Fx Fy].
    rewrite (SFleb_val prec emax Hprec) in * by done. lia.
  - destruct x as [sx|[]| |sx mx ex], y as [sy|[]| |sy my ey], z as [sz|[]| |sz mz ez];
      try done; destruct sx; try done; destruct sy; done.
Qed.

(** Division of a non-negative number by a positive one is antitone in
    the divisor. *)
Lemma SFdiv_antimono_pos (x y y' : spec_float) :
  valid x = true -> valid y = true -> valid y' = true ->
  SF_fz x = true -> SF_sign_is false x ->
  SF_sign_is false y -> SF_fz y = false \/ 0 < SFval y ->
  SFleb y y' = true ->
  SFleb (SFdiv prec emax x y') (SFdiv prec emax x y) = true.
Proof using Hprec.
  intros Hx Hy Hy' Fx Sx Sy Py Hle.
  destruct y as [[]|[]| |[] my ey]; try done; cbn [SF_fz SFval cond_Zopp] in Py; try lia.
  - destruct y' as [[]|[]| |[] my' ey']; try done.
    destruct x as [[]|[]| |[] mx ex]; done.
  - destruct y' as [[]|[]| |[] my' ey']; try done.
    + destruct x as [[]|[]| |[] mx ex]; try done.
      apply SFleb_signs; [right; done|left].
      apply (SFdiv_finite_valid prec emax Hprec false false).
    + destruct x as [[]|[]| |[] mx ex]; try done.
      rewrite (SFleb_val prec emax Hprec) in Hle by done. apply Z.leb_le in Hle.
      cbn [SpecFloat.valid_binary SFval cond_Zopp] in *.
      apply bounded_canonical in Hx as (Hx & _). apply bounded_canonical in Hy as (Hy & _).
      apply bounded_canonical in Hy' as (Hy' & _).
      apply (SFdiv_mono prec emax Hprec emin); try lia.
      apply Z.mul_le_mono_nonneg_l; [|done].
      pose proof (SFval_pos prec emax mx ex). lia.
Qed.

(** Division of a non-negative number by a positive one is monotone in
    the dividend. *)
Lemma SFdiv_mono_nonneg (x x' y : spec_float) :
  valid x = true -> valid x' = true -> valid y = true ->
  SF_fz x = true -> SF_sign_is false x -> SF_fz x' = true -> SF_sign_is false x' ->
  SF_sign_is false y -> SF_fz y = false \/ 0 < SFval y ->
  SFleb x x' = true ->
  SFleb (SFdiv prec emax x y) (SFdiv prec emax x' y) = true.
Proof using Hprec.
  intros Hx Hx' Hy Fx Sx Fx' Sx' Sy Py Hle.
  destruct y as [[]|[]| |[] my ey]; try done; cbn [SF_fz SFval cond_Zopp] in Py; try lia.
  - destruct x as [[]|[]| |[] mx ex], x' as [[]|[]| |[] mx' ex']; done.
  - destruct x as [[]|[]| |[] mx ex]; try done.
    + destruct x' as [[]|[]| |[] mx' ex']; try done.
      apply SFleb_signs; [right; done|left].
      apply (SFdiv_finite_valid prec emax Hprec false false).
    + rewrite (SFleb_val prec emax Hprec) in Hle by done. apply Z.leb_le in Hle.
      destruct x' as [[]|[]| |[] mx' ex']; try done;
        cbn [SpecFloat.valid_binary SFval cond_Zopp] in *;
        apply bounded_canonical in Hx as (Hx & _);
        pose proof (SFval_pos prec emax mx ex ltac:(lia)); try lia.
      apply bounded_canonical in Hx' as (Hx' & _). apply bounded_canonical in Hy as (Hy & _).
      apply (SFdiv_mono prec emax Hprec emin); try lia.
      apply Z.mul_le_mono_nonneg_r; [|done].
      pose proof (SFval_pos prec emax my ey). lia.
Qed.

End Order.

(** * Binary64: the [float] of Python *)

Local Open Scope float_scope.

Lemma prec_pos : (0 < prec)%Z.
Proof. done. Qed.

Lemma prec_lt_emax : (prec < emax)%Z.
Proof. done. Qed.

Lemma is_nan_spec (x : float) : is_nan x = SF_nan (Prim2SF x).
Proof.
  unfold is_nan. rewrite FloatAxioms.eqb_spec. unfold SFeqb.
  destruct (SF_nan (Prim2SF x)) eqn:H.
  - destruct (Prim2SF x); done.
  - rewrite SFcompare_refl by done. done.
Qed.

Lemma valid_finite (x : float) (s : bool) (m : positive) (e : Z) :
  Prim2SF x = S754_finite s m e -> bounded prec emax m e = true.
Proof. intros H. pose proof (Prim2SF_valid x) as Hv. rewrite H in Hv. done. Qed.

Lemma pos_finite_spec (c : float) :
  pos_finite c = true -> exists m e, Prim2SF c = S754_finite false m e.
Proof. unfold pos_finite. destruct (Prim2SF c) as [| | |[] m e]; try done. eauto. Qed.

Lemma float_mul_mono (c x y : float) :
  pos_finite c = true -> (x <=? y) = true -> (c * x <=? c * y) = true.
Proof.
  intros Hc Hxy. apply pos_finite_spec in Hc as (m & e & Hc).
  rewrite FloatAxioms.leb_spec in *. rewrite !FloatAxioms.mul_spec, Hc.
  apply (SFmul_mono prec emax prec_pos prec_lt_emax);
    eauto using valid_finite, Prim2SF_valid.
Qed.

Lemma float_add_mono_l (x x' w : float) :
  (x <=? x') = true -> is_nan (x + w) = false -> is_nan (x' + w) = false ->
  (x + w <=? x' + w) = true.
Proof.
  rewrite !is_nan_spec, !FloatAxioms.leb_spec, !FloatAxioms.add_spec. intros.
  apply (SFadd_mono_l prec emax prec_pos); auto using Prim2SF_valid.
Qed.

Lemma float_sub_mono_l (x x' w : float) :
  (x <=? x') = true -> is_nan (x - w) = false -> is_nan (x' - w) = false ->
  (x - w <=? x' - w) = true.
Proof.
  rewrite !is_nan_spec, !FloatAxioms.leb_spec, !FloatAxioms.sub_spec. intros.
  apply (SFsub_mono_l prec emax prec_pos); auto using Prim2SF_valid.
Qed.

Lemma float_sub_antimono_r (w x x' : float) :
  (x <=? x') = true -> is_nan (w - x) = false -> is_nan (w - x') = false ->
  (w - x' <=? w - x) = true.
Proof.
  rewrite !is_nan_spec, !FloatAxioms.leb_spec, !FloatAxioms.sub_spec. intros.
  apply (SFsub_antimono_r prec emax prec_pos); auto using Prim2SF_valid.
Qed.

Lemma float_ltb_leb (x y : float) : (x <? y) = true -> (x <=? y) = true.
Proof. rewrite FloatAxioms.ltb_spec, FloatAxioms.leb_spec. apply SFltb_leb. Qed.

Lemma float_sub_nan_l (x w : float) : is_nan (x - w) = false -> is_nan x = false.
Proof.
  rewrite !is_nan_spec, FloatAxioms.sub_spec. destruct (Prim2SF x); done.
Qed.

(** ** The arithmetic of the component *)

Lemma Prim2SF_SF2Prim_valid (q : spec_float) :
  SpecFloat.valid_binary prec emax q = true -> Prim2SF (SF2Prim q) = q.
Proof. apply Prim2SF_SF2Prim. Qed.

Lemma exact_div_valid (a b : Z) :
  b <> 0%Z ->
  SpecFloat.valid_binary prec emax (SFdiv prec emax (Py.exact_of_int a) (Py.exact_of_int b)) = true.
Proof.
  intros Hb. destruct a as [|a|a], b as [|b|b]; try done;
    apply (SFdiv_finite_valid prec emax prec_pos).
Qed.

Lemma exact_div_sign (a b : Z) :
  (0 <= a)%Z -> (0 < b)%Z ->
  SF_sign_is false (SFdiv prec emax (Py.exact_of_int a) (Py.exact_of_int b)).
Proof.
  intros Ha Hb. destruct a as [|a|a], b as [|b|b]; try done.
  apply (SFdiv_finite_valid prec emax prec_pos false false).
Qed.

Lemma int_truediv_spec (a b : Z) (x : float) :
  Py.int_truediv a b = Return x ->
  b <> 0%Z /\ Prim2SF x = SFdiv prec emax (Py.exact_of_int a) (Py.exact_of_int b) /\
  SF_fz (Prim2SF x) = true.
Proof.
  unfold Py.int_truediv. destruct (Z.eqb_spec b 0); [done|].
  destruct (Py.SF_is_finite _) eqn:Hf; [|done]. intros [= <-].
  rewrite Prim2SF_SF2Prim_valid by (apply exact_div_valid; done).
  split; [done|]. split; [done|]. destruct (SFdiv _ _ _ _); done.
Qed.

Lemma int_truediv_nonneg (a b : Z) (x : float) :
  (0 <= a)%Z -> (0 < b)%Z -> Py.int_truediv a b = Return x ->
  SF_sign_is false (Prim2SF x).
Proof.
  intros Ha Hb H. apply int_truediv_spec in H as (_ & -> & _).
  apply exact_div_sign; done.
Qed.

Lemma float_mul_nonneg (c x : float) :
  pos_finite c = true -> SF_sign_is false (Prim2SF x) ->
  SF_sign_is false (Prim2SF (c * x)).
Proof.
  intros Hc Hx. apply pos_finite_spec in Hc as (m & e & Hc).
  rewrite FloatAxioms.mul_spec, Hc.
  apply (SFmul_sign prec emax false false); [done|done|].
  apply SFmul_finite_not_nan. eapply sign_not_nan. done.
Qed.

Lemma float_sqrt_nonneg (x : float) :
  SF_sign_is false (Prim2SF x) -> SF_sign_is false (Prim2SF (sqrt x)).
Proof. intros Hx. rewrite sqrt_spec. apply SFsqrt_sign. done. Qed.

Lemma is_infinity_spec (x : float) :
  is_infinity x = match Prim2SF x with S754_infinity _ => true | _ => false end.
Proof.
  unfold is_infinity. rewrite FloatAxioms.eqb_spec, abs_spec.
  destruct (Prim2SF x) as [| | |s m e]; try done.
Qed.

Lemma eqb_zero_spec (x : float) :
  (x =? 0) = match Prim2SF x with S754_zero _ => true | _ => false end.
Proof.
  rewrite FloatAxioms.eqb_spec. destruct (Prim2SF x) as [[]|[]| |[] m e]; done.
Qed.

Lemma ltb_zero_spec (x : float) :
  (x <? 0) = match Prim2SF x with
             | S754_infinity true | S754_finite true _ _ => true
             | _ => false
             end.
Proof.
  rewrite FloatAxioms.ltb_spec. destruct (Prim2SF x) as [[]|[]| |[] m e]; done.
Qed.

(** A float that compares equal to a positive finite one is that float. *)
Lemma float_eqb_pos (x c : float) : pos_finite c = true -> (x =? c) = true -> x = c.
Proof.
  intros Hc H. apply pos_finite_spec in Hc as (m & e & Hc).
  pose proof (Prim2SF_valid x) as Vx. pose proof (Prim2SF_valid c) as Vc.
  rewrite FloatAxioms.eqb_spec in H. unfold SFeqb in H.
  apply Prim2SF_inj. rewrite Hc in *.
  destruct (Prim2SF x) as [[]|[]| |sx mx ex]; try done.
  rewrite (SFcompare_val prec emax prec_pos) in H by done.
  destruct (Z.compare_spec (SFval prec emax (S754_finite sx mx ex))
                           (SFval prec emax (S754_finite false m e))) as [He|He|He]; try done.
  pose proof (RndZ_val prec emax prec_pos _ Vx eq_refl) as R1.
  pose proof (RndZ_val prec emax prec_pos _ Vc eq_refl) as R2.
  rewrite He, R2 in R1. cbn [unsign_zero] in R1. done.
Qed.

(** ** The power [x ** 0.5]

    On a base that is not negative, [x ** 0.5] returns the correctly
    rounded root of the base or of a float next to it; on a base whose
    root is stable it returns the correctly rounded root of the base. *)
Lemma pow_half_root {libm : Py.Libm} (x : float) :
  SF_sign_is false (Prim2SF x) ->
  exists y, Py.adjacent x y /\ SF_sign_is false (Prim2SF y) /\
            (is_finite x = true -> is_finite y = true) /\
            Py.pow_half x = Return (sqrt y).
Proof.
  intros Hx. unfold Py.pow_half.
  rewrite is_nan_spec, is_infinity_spec, eqb_zero_spec, ltb_zero_spec.
  destruct (Prim2SF x) as [[]|[]| |[] m e] eqn:HP; try done; cbn [SF_nan].
  - exists x. rewrite HP. split; [by left|]. split; [done|]. split; [done|].
    f_equal. apply Prim2SF_inj. rewrite sqrt_spec, HP. done.
  - exists x. rewrite HP. split; [by left|]. split; [done|]. split; [done|].
    f_equal. apply Prim2SF_inj. rewrite sqrt_spec, HP. done.
  - destruct (x =? 1) eqn:H1.
    + apply float_eqb_pos in H1; [|done]. subst x.
      exists 1. rewrite HP. split; [by left|]. done.
    + destruct (Py.c_pow_half_root x) as (y & Hy & Hpy & ->).
      { unfold pos_finite. rewrite HP. done. }
      exists y. split; [done|]. apply pos_finite_spec in Hpy as (my & ey & Hpy).
      split; [rewrite Hpy; done|]. split; [|done].
      intros _. unfold is_finite. rewrite is_nan_spec, is_infinity_spec, Hpy. done.
Qed.

Lemma pow_half_stable {libm : Py.Libm} (x : float) :
  SF_sign_is false (Prim2SF x) -> Py.root_stable x = true ->
  Py.pow_half x = Return (sqrt x).
Proof.
  intros Hx Hs. destruct (pow_half_root x Hx) as (y & Hy & _ & _ & ->).
  unfold Py.root_stable in Hs. apply andb_true_iff in Hs as [H1 H2].
  apply FloatAxioms.Leibniz.eqb_spec in H1, H2.
  destruct Hy as [-> | [-> | ->]]; congruence.
Qed.

Lemma pow_half_returns {libm : Py.Libm} (x : float) :
  SF_sign_is false (Prim2SF x) ->
  exists r, Py.pow_half x = Return r /\ SF_sign_is false (Prim2SF r).
Proof.
  intros Hx. destruct (pow_half_root x Hx) as (y & _ & Hy & _ & ->).
  eexists. split; [done|]. apply float_sqrt_nonneg. done.
Qed.

Lemma float_add_lower (t c : float) :
  pos_finite c = true -> SF_sign_is false (Prim2SF t) -> (c <=? t + c) = true.
Proof.
  intros Hc Ht. pose proof Hc as Hc'. apply pos_finite_spec in Hc' as (m & e & Hm).
  assert (H0 : 0 + c = c).
  { apply Prim2SF_inj. rewrite FloatAxioms.add_spec, Hm. done. }
  rewrite <- H0 at 1. apply float_add_mono_l.
  - rewrite FloatAxioms.leb_spec. destruct (Prim2SF t) as [[]|[]| |[] ? ?]; done.
  - rewrite H0, is_nan_spec, Hm. done.
  - rewrite is_nan_spec, FloatAxioms.add_spec, Hm.
    apply (SFadd_nonneg_not_nan prec emax prec_pos); eauto using Prim2SF_valid, valid_finite.
Qed.

(** ** Bounds that exclude overflow *)

Lemma mag_le_finite (K : Z) (x : float) : mag_le K x -> is_finite x = true.
Proof.
  unfold mag_le, is_finite. rewrite is_nan_spec, is_infinity_spec.
  destruct (Prim2SF x); done.
Qed.

Lemma finite_mag_le (x : float) : is_finite x = true -> mag_le 1024 x.
Proof.
  unfold mag_le, is_finite. rewrite is_nan_spec, is_infinity_spec.
  pose proof (Prim2SF_valid x) as Hv.
  destruct (Prim2SF x) as [| | |s m e]; try done. intros _.
  cbn [SpecFloat.valid_binary] in Hv.
  apply (bounded_canonical prec emax) in Hv as ([_ He] & Hd & _).
  cbn [SF_mag_le]. unfold prec, emax in *. lia.
Qed.

Lemma float_mul_mag (x y : float) (K1 K2 : Z) :
  mag_le K1 x -> mag_le K2 y -> (-1021 <= K1 + K2)%Z -> (K1 + K2 + 1 <= 1024)%Z ->
  mag_le (K1 + K2 + 1) (x * y).
Proof.
  intros. unfold mag_le. rewrite FloatAxioms.mul_spec.
  apply (SFmul_mag prec emax prec_pos prec_lt_emax); auto using Prim2SF_valid.
Qed.

Lemma float_add_mag (x y : float) (K1 K2 : Z) :
  mag_le K1 x -> mag_le K2 y -> (-1021 <= Z.max K1 K2)%Z -> (Z.max K1 K2 + 2 <= 1024)%Z ->
  mag_le (Z.max K1 K2 + 2) (x + y).
Proof.
  intros. unfold mag_le. rewrite FloatAxioms.add_spec.
  apply (SFadd_mag prec emax prec_pos); auto using Prim2SF_valid.
Qed.

Lemma float_sub_mag (x y : float) (K1 K2 : Z) :
  mag_le K1 x -> mag_le K2 y -> (-1021 <= Z.max K1 K2)%Z -> (Z.max K1 K2 + 2 <= 1024)%Z ->
  mag_le (Z.max K1 K2 + 2) (x - y).
Proof.
  intros. unfold mag_le. rewrite FloatAxioms.sub_spec.
  apply (SFsub_mag prec emax prec_pos); auto using Prim2SF_valid.
Qed.

Lemma float_div_mag (x y : float) (K1 K2 : Z) :
  mag_le K1 x -> mag_ge K2 y -> (-1021 <= K1 - K2 + 1)%Z -> (K1 - K2 + 2 <= 1024)%Z ->
  mag_le (K1 - K2 + 2) (x / y).
Proof.
  intros. unfold mag_le. rewrite div_spec.
  apply (SFdiv_mag prec emax prec_pos); auto.
Qed.

Lemma float_sqrt_mag (x : float) (K : Z) :
  SF_sign_is false (Prim2SF x) -> mag_le K x ->
  (-1021 <= (K + 1) / 2)%Z -> ((K + 1) / 2 + 1 <= 1024)%Z ->
  mag_le ((K + 1) / 2 + 1) (sqrt x).
Proof.
  intros. unfold mag_le. rewrite sqrt_spec.
  apply (SFsqrt_mag prec emax prec_pos); auto.
Qed.

Lemma float_abs_le_mag (x b : float) (K : Z) :
  (abs x <=? b) = true -> mag_le K b -> (-1074 <= K)%Z -> mag_le K x.
Proof.
  rewrite FloatAxioms.leb_spec, abs_spec. intros.
  apply (SFabs_le_mag prec emax prec_pos _ (Prim2SF b)); auto using Prim2SF_valid.
Qed.

Lemma float_abs_ge_mag (x b : float) (K K' : Z) :
  (b <=? abs x) = true -> pos_finite b = true -> mag_ge K b -> (-1074 < K)%Z ->
  mag_le K' x -> mag_ge K x.
Proof.
  rewrite FloatAxioms.leb_spec, abs_spec. intros Hle Hb HK HKm Hx.
  apply pos_finite_spec in Hb as (m & e & Hb).
  apply (SFabs_ge_mag prec emax prec_pos _ (Prim2SF b)); auto using Prim2SF_valid.
  - rewrite Hb. done.
  - eapply SF_mag_le_fz. done.
Qed.

Lemma mag_ge_nonzero (K : Z) (x : float) : mag_ge K x -> (x =? 0) = false.
Proof. unfold mag_ge. rewrite eqb_zero_spec. destruct (Prim2SF x); done. Qed.

Lemma exact_mag_le (n K : Z) : (Z.abs n < 2 ^ K)%Z -> (0 <= K)%Z -> SF_mag_le K (Py.exact_of_int n).
Proof.
  intros Hn HK. destruct n as [|p|p]; [done| |]; cbn [Py.exact_of_int SF_mag_le];
    pose proof (Zdigits2_le (Z.pos p) K HK ltac:(lia)); lia.
Qed.

Lemma exact_mag_ge (n : Z) : n <> 0%Z -> SF_mag_ge 1 (Py.exact_of_int n).
Proof.
  intros Hn. destruct n as [|p|p]; [done| |]; cbn [Py.exact_of_int SF_mag_ge Zdigits2]; lia.
Qed.

Lemma int_truediv_returns (a b : Z) (K : Z) :
  (Z.abs a < 2 ^ K)%Z -> (0 <= K)%Z -> (K + 1 <= 1024)%Z -> b <> 0%Z ->
  exists x, Py.int_truediv a b = Return x /\ mag_le (K + 1) x.
Proof.
  intros Ha HK HK' Hb.
  pose proof (SFdiv_mag prec emax prec_pos _ _ K 1 (exact_mag_le a K Ha HK) (exact_mag_ge b Hb)
                ltac:(unfold SpecFloat.emin, prec, emax; lia)
                ltac:(unfold prec, emax; lia)) as Hm.
  replace (K - 1 + 2)%Z with (K + 1)%Z in Hm by lia.
  unfold Py.int_truediv. destruct (Z.eqb_spec b 0); [done|].
  assert (Hf : Py.SF_is_finite (SFdiv prec emax (Py.exact_of_int a) (Py.exact_of_int b)) = true)
    by (destruct (SFdiv _ _ _ _); done).
  rewrite Hf. eexists. split; [done|].
  unfold mag_le. rewrite Prim2SF_SF2Prim_valid by (apply exact_div_valid; done). done.
Qed.

Lemma float_of_int_returns (n : Z) (K : Z) :
  (Z.abs n < 2 ^ K)%Z -> (0 <= K)%Z -> (K + 1 <= 1024)%Z ->
  exists x, Py.float_of_int n = Return x /\ mag_le (K + 1) x.
Proof.
  intros Hn HK HK'. unfold Py.float_of_int.
  rewrite (normalize_spec prec emax prec_pos).
  assert (Hm : SF_mag_le (K + 1) (RndZ prec emax 0 n)).
  { apply (RndZ_mag prec emax prec_pos); unfold SpecFloat.emin, prec, emax; try lia.
    pose proof (Zdigits2_le (Z.abs n) K HK ltac:(lia)). lia. }
  assert (Hf : Py.SF_is_finite (RndZ prec emax 0 n) = true) by (destruct (RndZ _ _ _ _); done).
  rewrite Hf. eexists. split; [done|].
  unfold mag_le. rewrite Prim2SF_SF2Prim_valid by apply (RndZ_valid prec emax prec_pos). done.
Qed.

Lemma small_const_mag (c : float) : small_const c = true -> mag_le 8 c.
Proof.
  unfold small_const, mag_le. destruct (Prim2SF c); try done.
  intros H. apply Z.leb_le in H. done.
Qed.

(** Bounds of arithmetic expressions, operator by operator. *)
Ltac zle := apply Z.leb_le; vm_compute; reflexivity.

Ltac mag :=
  lazymatch goal with
  | |- mag_le _ (_ * _) => eapply float_mul_mag; [mag | mag | zle | zle]
  | |- mag_le _ (_ + _) => eapply float_add_mag; [mag | mag | zle | zle]
  | |- mag_le _ (_ - _) => eapply float_sub_mag; [mag | mag | zle | zle]
  | |- mag_le _ (_ / _) => eapply float_div_mag; [mag | eassumption | zle | zle]
  | |- mag_le _ (sqrt _) => eapply float_sqrt_mag; [eassumption | mag | zle | zle]
  | |- mag_le _ _ => first [eassumption | apply small_const_mag; reflexivity]
  end.

Ltac finite := eapply mag_le_finite; mag.

(** ** Order and monotonicity in binary64 *)

Lemma float_leb_trans (x y z : float) :
  (x <=? y) = true -> (y <=? z) = true -> (x <=? z) = true.
Proof.
  rewrite !FloatAxioms.leb_spec.
  apply (SFleb_trans prec emax prec_pos); apply Prim2SF_valid.
Qed.

Lemma float_leb_not_nan (x y : float) :
  (x <=? y) = true -> is_nan x = false /\ is_nan y = false.
Proof. rewrite !is_nan_spec, FloatAxioms.leb_spec. apply SFleb_not_nan. Qed.

Lemma float_mul_comm (x y : float) : x * y = y * x.
Proof. apply Prim2SF_inj. rewrite !FloatAxioms.mul_spec. apply SFmul_comm. Qed.

Lemma float_add_comm (x y : float) : x + y = y + x.
Proof.
  apply Prim2SF_inj. rewrite !FloatAxioms.add_spec. apply (SFadd_comm prec emax).
Qed.

Lemma float_mul_mono_r (c x y : float) :
  pos_finite c = true -> (x <=? y) = true -> (x * c <=? y * c) = true.
Proof. intros. rewrite !(float_mul_comm _ c). apply float_mul_mono; done. Qed.

Lemma float_add_mono_r (w x x' : float) :
  (x <=? x') = true -> is_nan (w + x) = false -> is_nan (w + x') = false ->
  (w + x <=? w + x') = true.
Proof. rewrite !(float_add_comm w). apply float_add_mono_l. Qed.

(** ** Integer division *)

Lemma int_truediv_zero (b : Z) : (0 < b)%Z -> Py.int_truediv 0 b = Return 0.
Proof. intros Hb. unfold Py.int_truediv. destruct b; try lia. done. Qed.

Lemma exact_of_pos (a : Z) : (0 < a)%Z -> exists p, a = Z.pos p /\ Py.exact_of_int a = S754_finite false p 0.
Proof. intros Ha. destruct a as [|p|p]; try lia. eauto. Qed.

(** The quotient of two counts is monotone in the exact quotient. *)
Lemma exact_div_mono (a b a' b' : Z) :
  (0 <= a)%Z -> (0 < b)%Z -> (0 <= a')%Z -> (0 < b')%Z -> (a * b' <= a' * b)%Z ->
  SFleb (SFdiv prec emax (Py.exact_of_int a) (Py.exact_of_int b))
        (SFdiv prec emax (Py.exact_of_int a') (Py.exact_of_int b')) = true.
Proof.
  intros Ha Hb Ha' Hb' Hle.
  pose proof (exact_div_sign a' b' Ha' Hb') as Hs'.
  destruct (Z.eq_dec a 0%Z) as [->|Ha0].
  - destruct (exact_of_pos b Hb) as (pb & -> & ->).
    apply SFleb_signs; [right; done|left; done].
  - assert (Ha'0 : (0 < a')%Z) by nia.
    destruct (exact_of_pos a ltac:(lia)) as (pa & -> & ->).
    destruct (exact_of_pos b Hb) as (pb & -> & ->).
    destruct (exact_of_pos a' Ha'0) as (pa' & -> & ->).
    destruct (exact_of_pos b' Hb') as (pb' & -> & ->).
    apply (SFdiv_mono prec emax prec_pos 0%Z); lia.
Qed.

Lemma int_truediv_mono (a b a' b' : Z) (x x' : float) :
  (0 <= a)%Z -> (0 < b)%Z -> (0 <= a')%Z -> (0 < b')%Z -> (a * b' <= a' * b)%Z ->
  Py.int_truediv a b = Return x -> Py.int_truediv a' b' = Return x' ->
  (x <=? x') = true.
Proof.
  intros Ha Hb Ha' Hb' Hle Hx Hx'.
  apply int_truediv_spec in Hx as (_ & Hx & _). apply int_truediv_spec in Hx' as (_ & Hx' & _).
  rewrite FloatAxioms.leb_spec, Hx, Hx'. apply exact_div_mono; done.
Qed.

Lemma exact_div_same (b : Z) :
  (0 < b)%Z -> SFdiv prec emax (Py.exact_of_int b) (Py.exact_of_int b) = Prim2SF 1.
Proof.
  intros Hb. destruct (exact_of_pos b Hb) as (pb & -> & ->).
  rewrite (SFdiv_same prec emax prec_pos). done.
Qed.

(** The quotient of two counts depends on their ratio only. *)
Lemma int_truediv_scale (k a b : Z) :
  (0 < k)%Z -> Py.int_truediv (k * a) (k * b) = Py.int_truediv a b.
Proof.
  intros Hk. unfold Py.int_truediv.
  destruct (Z.eqb_spec b 0) as [->|Hb].
  - rewrite Z.mul_0_r. done.
  - destruct (Z.eqb_spec (k * b) 0); [nia|].
    assert (HE : SFdiv prec emax (Py.exact_of_int (k * a)) (Py.exact_of_int (k * b)) =
                 SFdiv prec emax (Py.exact_of_int a) (Py.exact_of_int b)).
    { destruct k as [|k|k]; try lia.
      destruct a as [|a|a], b as [|b|b]; try done; cbn [Z.mul Py.exact_of_int];
        apply (SFdiv_scale prec emax prec_pos 0%Z (Z.pos k)); lia. }
    rewrite HE. done.
Qed.

(** Dividing a count by one converts it to a float. *)
Lemma int_truediv_one (a : Z) : Py.int_truediv a 1 = Py.float_of_int a.
Proof.
  unfold Py.int_truediv, Py.float_of_int. rewrite (normalize_spec prec emax prec_pos).
  cbn [Z.eqb]. destruct a as [|p|p]; [done| |]; cbn [Py.exact_of_int Round.RndZ];
    rewrite (SFdiv_one prec emax prec_pos); done.
Qed.

(** A part of a whole is a number between zero and one. *)
Lemma int_truediv_part (a b : Z) :
  (0 <= a <= b)%Z -> (0 < b)%Z ->
  exists x, Py.int_truediv a b = Return x /\ (0 <=? x) = true /\ (x <=? 1) = true.
Proof.
  intros Ha Hb.
  pose proof (exact_div_mono a b b b ltac:(lia) Hb ltac:(lia) Hb ltac:(nia)) as Hle.
  pose proof (exact_div_sign a b ltac:(lia) Hb) as Hs.
  pose proof (exact_div_valid a b ltac:(lia)) as Hv.
  rewrite exact_div_same in Hle by done.
  unfold Py.int_truediv. destruct (Z.eqb_spec b 0); [lia|].
  assert (Hf : Py.SF_is_finite (SFdiv prec emax (Py.exact_of_int a) (Py.exact_of_int b)) = true).
  { destruct (SFdiv prec emax (Py.exact_of_int a) (Py.exact_of_int b)) as [|[]| |]; done. }
  rewrite Hf. eexists. split; [done|].
  rewrite !FloatAxioms.leb_spec, Prim2SF_SF2Prim_valid by done. split; [|done].
  destruct (SFdiv prec emax (Py.exact_of_int a) (Py.exact_of_int b)) as [[]|[]| |[] ? ?]; done.
Qed.

Lemma float_div_antimono (n y y' : float) :
  is_finite n = true -> SF_sign_is false (Prim2SF n) ->
  (0 <? y) = true -> (y <=? y') = true ->
  (n / y' <=? n / y) = true.
Proof.
  rewrite FloatAxioms.ltb_spec, !FloatAxioms.leb_spec, !div_spec.
  unfold is_finite. rewrite is_nan_spec, is_infinity_spec.
  intros Fn Sn Hy Hle.
  apply (SFdiv_antimono_pos prec emax prec_pos); auto using Prim2SF_valid.
  - destruct (Prim2SF n); done.
  - pose proof (Prim2SF_valid y) as Hv.
    destruct (Prim2SF y) as [[]|[]| |[] my ey]; done.
  - pose proof (Prim2SF_valid y) as Hv.
    destruct (Prim2SF y) as [[]|[]| |[] my ey]; try done; [left; done|right].
    cbn [SFval cond_Zopp SpecFloat.valid_binary] in *.
    apply (bounded_canonical prec emax) in Hv as (Hv & _).
    apply (SFval_pos prec emax). lia.
Qed.

(** ** NaN and the signs of sums *)

Lemma float_sub_zero (x : float) : x - 0 = x.
Proof.
  apply Prim2SF_inj. rewrite FloatAxioms.sub_spec.
  destruct (Prim2SF x) as [[]|[]| |s m e]; done.
Qed.

Lemma nonneg_spec (x : float) :
  (0 <=? x) = true <->
  match Prim2SF x with
  | S754_zero _ | S754_infinity false | S754_finite false _ _ => True
  | _ => False
  end.
Proof.
  rewrite FloatAxioms.leb_spec. destruct (Prim2SF x) as [[]|[]| |[] m e]; done.
Qed.

Lemma float_mul_nonneg_leb (c x : float) :
  pos_finite c = true -> (0 <=? x) = true -> (0 <=? c * x) = true.
Proof.
  intros Hc Hx. pose proof (float_mul_mono c 0 x Hc Hx) as H.
  assert (H0 : c * 0 = 0).
  { apply pos_finite_spec in Hc as (m & e & Hc). apply Prim2SF_inj.
    rewrite FloatAxioms.mul_spec, Hc. done. }
  rewrite H0 in H. done.
Qed.

Lemma float_add_nonneg_not_nan (x y : float) :
  (0 <=? x) = true -> (0 <=? y) = true -> is_nan (x + y) = false.
Proof.
  rewrite !nonneg_spec, is_nan_spec, FloatAxioms.add_spec.
  pose proof (Prim2SF_valid x) as Vx. pose proof (Prim2SF_valid y) as Vy.
  destruct (Prim2SF x) as [sx|[]| |[] mx ex], (Prim2SF y) as [sy|[]| |[] my ey]; try done.
  - destruct sx, sy; done.
  - intros _ _. rewrite (SFadd_finite prec emax prec_pos) by done. apply RndZ_not_nan. done.
Qed.

(** Adding or subtracting a finite number never makes a NaN. *)
Lemma float_add_finite_not_nan (x y : float) :
  is_nan x = false -> is_finite y = true -> is_nan (x + y) = false.
Proof.
  unfold is_finite. rewrite !is_nan_spec, is_infinity_spec, FloatAxioms.add_spec.
  pose proof (Prim2SF_valid x) as Vx. pose proof (Prim2SF_valid y) as Vy.
  destruct (Prim2SF x) as [sx|sx| |sx mx ex], (Prim2SF y) as [sy|sy| |sy my ey]; try done.
  - destruct sx, sy; done.
  - intros _ _. rewrite (SFadd_finite prec emax prec_pos) by done. apply RndZ_not_nan. done.
Qed.

Lemma float_sub_finite_not_nan (x y : float) :
  is_nan x = false -> is_finite y = true -> is_nan (x - y) = false.
Proof.
  unfold is_finite. rewrite !is_nan_spec, is_infinity_spec, FloatAxioms.sub_spec.
  unfold SF64sub. rewrite (SFsub_add_opp prec emax).
  pose proof (Prim2SF_valid x) as Vx. pose proof (Prim2SF_valid y) as Vy.
  destruct (Prim2SF x) as [sx|sx| |sx mx ex], (Prim2SF y) as [sy|sy| |sy my ey]; try done.
  - destruct sx, sy; done.
  - intros _ _. cbn [SFopp]. rewrite (SFadd_finite prec emax prec_pos) by done.
    apply RndZ_not_nan. done.
Qed.

Lemma float_finite_sub_not_nan (x y : float) :
  is_finite x = true -> is_nan y = false -> is_nan (x - y) = false.
Proof.
  unfold is_finite. rewrite !is_nan_spec, is_infinity_spec, FloatAxioms.sub_spec.
  unfold SF64sub. rewrite (SFsub_add_opp prec emax).
  pose proof (Prim2SF_valid x) as Vx. pose proof (Prim2SF_valid y) as Vy.
  destruct (Prim2SF x) as [sx|sx| |sx mx ex], (Prim2SF y) as [sy|sy| |sy my ey]; try done.
  - destruct sx, sy; done.
  - intros _ _. cbn [SFopp]. rewrite (SFadd_finite prec emax prec_pos) by done.
    apply RndZ_not_nan. done.
Qed.

(** A number at most a finite one, minus a non-negative one, is a number. *)
Lemma float_sub_bounded_not_nan (x c y : float) :
  (x <=? c) = true -> is_finite c = true -> (0 <=? y) = true -> is_nan (x - y) = false.
Proof.
  unfold is_finite. rewrite nonneg_spec, !is_nan_spec, is_infinity_spec, FloatAxioms.leb_spec,
    FloatAxioms.sub_spec. unfold SF64sub. rewrite (SFsub_add_opp prec emax).
  pose proof (Prim2SF_valid x) as Vx. pose proof (Prim2SF_valid y) as Vy.
  destruct (Prim2SF c) as [sc|sc| |sc mc ec]; try done;
  destruct (Prim2SF x) as [sx|[]| |sx mx ex], (Prim2SF y) as [sy|[]| |[] my ey]; try done.
  all: try (destruct sx, sy; done).
  all: intros _ _ _; cbn [SFopp]; rewrite (SFadd_finite prec emax prec_pos) by done;
    apply RndZ_not_nan; done.
Qed.

(** Between two finite numbers there are only finite numbers. *)
Lemma float_between_finite (a x b : float) :
  is_finite a = true -> is_finite b = true -> (a <=? x) = true -> (x <=? b) = true ->
  is_finite x = true.
Proof.
  unfold is_finite. rewrite !is_nan_spec, !is_infinity_spec, !FloatAxioms.leb_spec.
  destruct (Prim2SF a) as [sa|sa| |sa ma ea]; try done;
  destruct (Prim2SF b) as [sb|sb| |sb mb eb]; try done;
  destruct (Prim2SF x) as [sx|[]| |sx mx ex]; try done.
  all: try (destruct sa; done).
  all: try (destruct sb; done).
Qed.

Lemma float_of_int_nonneg (n : Z) (x : float) :
  (0 <= n)%Z -> Py.float_of_int n = Return x ->
  is_finite x = true /\ SF_sign_is false (Prim2SF x).
Proof.
  intros Hn. unfold Py.float_of_int. rewrite (normalize_spec prec emax prec_pos).
  destruct (Py.SF_is_finite _) eqn:Hf; [|done]. intros [= <-].
  unfold is_finite. rewrite is_nan_spec, is_infinity_spec.
  rewrite Prim2SF_SF2Prim_valid by apply (RndZ_valid prec emax prec_pos).
  split; [destruct (RndZ prec emax 0 n); done|].
  destruct (Z.eq_dec n 0%Z) as [->|]; [done|].
  apply (RndZ_sign_pos prec emax prec_pos). lia.
Qed.

Lemma float_div_mono_l (n n' y : float) :
  is_finite n = true -> SF_sign_is false (Prim2SF n) ->
  is_finite n' = true -> SF_sign_is false (Prim2SF n') ->
  (0 <? y) = true -> (n <=? n') = true ->
  (n / y <=? n' / y) = true.
Proof.
  rewrite FloatAxioms.ltb_spec, !FloatAxioms.leb_spec, !div_spec.
  unfold is_finite. rewrite !is_nan_spec, !is_infinity_spec.
  intros Fn Sn Fn' Sn' Hy Hle.
  apply (SFdiv_mono_nonneg prec emax prec_pos); auto using Prim2SF_valid.
  - destruct (Prim2SF n); done.
  - destruct (Prim2SF n'); done.
  - destruct (Prim2SF y) as [[]|[]| |[] my ey]; done.
  - pose proof (Prim2SF_valid y) as Hv.
    destruct (Prim2SF y) as [[]|[]| |[] my ey]; try done; [left; done|right].
    cbn [SFval cond_Zopp SpecFloat.valid_binary] in *.
    apply (bounded_canonical prec emax) in Hv as (Hv & _).
    apply (SFval_pos prec emax). lia.
Qed.

(** The conversion of a count to a float is monotone. *)
Lemma float_of_int_mono (n n' : Z) (x x' : float) :
  (n <= n')%Z -> Py.float_of_int n = Return x -> Py.float_of_int n' = Return x' ->
  (x <=? x') = true.
Proof.
  intros Hn. unfold Py.float_of_int. rewrite !(normalize_spec prec emax prec_pos).
  destruct (Py.SF_is_finite (RndZ prec emax 0 n)); [|done].
  destruct (Py.SF_is_finite (RndZ prec emax 0 n')); [|done].
  intros [= <-] [= <-]. rewrite FloatAxioms.leb_spec.
  rewrite !Prim2SF_SF2Prim_valid by apply (RndZ_valid prec emax prec_pos).
  apply (RndZ_mono prec emax prec_pos). done.
Qed.

Lemma float_add_pos_not_nan (t c : float) :
  pos_finite c = true -> SF_sign_is false (Prim2SF t) -> is_nan (t + c) = false.
Proof.
  intros Hc Ht. apply pos_finite_spec in Hc as (m & e & Hm).
  rewrite is_nan_spec, FloatAxioms.add_spec, Hm.
  apply (SFadd_nonneg_not_nan prec emax prec_pos); eauto using Prim2SF_valid, valid_finite.
Qed.

(** NaN is contagious. *)
Lemma is_nan_add_l (x y : float) : is_nan x = true -> is_nan (x + y) = true.
Proof. rewrite !is_nan_spec, FloatAxioms.add_spec. destruct (Prim2SF x); done. Qed.

Lemma is_nan_add_r (x y : float) : is_nan y = true -> is_nan (x + y) = true.
Proof.
  rewrite !is_nan_spec, FloatAxioms.add_spec. destruct (Prim2SF x), (Prim2SF y); done.
Qed.

Lemma is_nan_sub_l (x y : float) : is_nan x = true -> is_nan (x - y) = true.
Proof. rewrite !is_nan_spec, FloatAxioms.sub_spec. destruct (Prim2SF x); done. Qed.

Lemma is_nan_sub_r (x y : float) : is_nan y = true -> is_nan (x - y) = true.
Proof.
  rewrite !is_nan_spec, FloatAxioms.sub_spec. destruct (Prim2SF x), (Prim2SF y); done.
Qed.

Lemma is_nan_mul_l (x y : float) : is_nan x = true -> is_nan (x * y) = true.
Proof. rewrite !is_nan_spec, FloatAxioms.mul_spec. destruct (Prim2SF x); done. Qed.

Lemma is_nan_mul_r (x y : float) : is_nan y = true -> is_nan (x * y) = true.
Proof.
  rewrite !is_nan_spec, FloatAxioms.mul_spec. destruct (Prim2SF x), (Prim2SF y); done.
Qed.

Lemma is_nan_div_r (x y : float) : is_nan y = true -> is_nan (x / y) = true.
Proof.
  rewrite !is_nan_spec, div_spec. destruct (Prim2SF x), (Prim2SF y); done.
Qed.

Lemma abs_lt_of_range (n C : Z) : (0 <= n < C)%Z -> (Z.abs n < C)%Z.
Proof. lia. Qed.

(** ** Counts as floats

    A count below [2 ^ 53] is a float, and the quotient of two such
    counts as Python computes it from the ints is the quotient of the two
    floats. *)

Lemma float_of_count_spec (n : Z) :
  (0 <= n < 2 ^ 63)%Z -> Prim2SF (Spec.float_of_count n) = RndZ prec emax 0 n.
Proof.
  intros Hn. unfold Spec.float_of_count.
  rewrite of_uint63_spec, Uint63.of_Z_spec, (normalize_spec prec emax prec_pos).
  rewrite Z.mod_small; [done|]. exact Hn.
Qed.

Lemma float_of_int_count (n : Z) :
  (0 <= n < 2 ^ 63)%Z -> Py.float_of_int n = Return (Spec.float_of_count n).
Proof.
  intros Hn.
  destruct (float_of_int_returns n 63 ltac:(lia) ltac:(lia) ltac:(lia)) as (x & Hx & _).
  rewrite Hx. f_equal. apply Prim2SF_inj. rewrite float_of_count_spec by done.
  unfold Py.float_of_int in Hx. rewrite (normalize_spec prec emax prec_pos) in Hx.
  destruct (Py.SF_is_finite _); [|done]. injection Hx as <-.
  apply Prim2SF_SF2Prim_valid, (RndZ_valid prec emax prec_pos).
Qed.

(** The float of a positive count below [2 ^ 53] is the count itself, at
    an exponent that is not positive. *)
Lemma Rnd_count (a : Z) :
  (0 < a < 2 ^ 53)%Z ->
  exists m e, Rnd prec emax 0 false a = S754_finite false m e /\
              (-52 <= e <= 0)%Z /\ Z.pos m = (a * 2 ^ (- e))%Z.
Proof.
  intros Ha.
  pose proof (Zdigits2_bounds a ltac:(lia)) as [Hd1 Hd2].
  assert (Hd : (1 <= Zdigits2 a <= 53)%Z).
  { split.
    - destruct a; try lia. cbn. lia.
    - apply Zdigits2_le; lia. }
  set (j := (53 - Zdigits2 a)%Z).
  pose proof (pow2_pos j ltac:(lia)) as Hj.
  assert (Hm : (0 < a * 2 ^ j)%Z) by nia.
  destruct (a * 2 ^ j)%Z as [|m|m] eqn:Em; try lia.
  exists m, (- j)%Z. split; [|split; [lia|]].
  - assert (Hb : bounded prec emax m (- j) = true).
    { unfold bounded, canonical_mantissa. apply andb_true_iff. split.
      - apply Z.eqb_eq. change (Z.pos (digits2_pos m)) with (Zdigits2 (Z.pos m)).
        rewrite <- Em, Zdigits2_mul_pow2 by lia.
        rewrite (fexp_eq prec emax). unfold SpecFloat.emin, prec, emax. lia.
      - apply Z.leb_le. unfold prec, emax. lia. }
    rewrite <- (Rnd_id prec emax prec_pos false m (- j) Hb).
    rewrite <- Em.
    replace (SpecFloat.emin prec emax) with (0 - (j + (- j - SpecFloat.emin prec emax)))%Z at 1
      by lia.
    rewrite <- Z.mul_assoc, <- Z.pow_add_r by (unfold SpecFloat.emin, prec, emax; lia).
    rewrite Rnd_scale; [done|lia|unfold SpecFloat.emin, prec, emax; lia].
  - rewrite Z.opp_involutive. done.
Qed.

Lemma exact_div_counts (a b : Z) :
  (0 <= a < 2 ^ 53)%Z -> (0 < b < 2 ^ 53)%Z ->
  SFdiv prec emax (RndZ prec emax 0 a) (RndZ prec emax 0 b) =
  SFdiv prec emax (Py.exact_of_int a) (Py.exact_of_int b).
Proof.
  intros Ha Hb.
  destruct (Rnd_count b Hb) as (mb & eb & Hrb & Heb & Hmb).
  rewrite (RndZ_pos _ _ _ b) by lia. rewrite Hrb.
  destruct (exact_of_pos b ltac:(lia)) as (pb & Epb & ->).
  destruct (Z.eq_dec a 0%Z) as [->|Ha0]; [done|].
  destruct (Rnd_count a ltac:(lia)) as (ma & ea & Hra & Hea & Hma).
  rewrite (RndZ_pos _ _ _ a) by lia. rewrite Hra.
  destruct (exact_of_pos a ltac:(lia)) as (pa & Epa & ->).
  apply (SFdiv_scale prec emax prec_pos (-52)%Z 1%Z); try lia.
  - rewrite Hma, <- Epa, <- Z.mul_assoc, <- Z.pow_add_r by lia.
    rewrite Z.mul_1_l. do 2 f_equal. lia.
  - rewrite Hmb, <- Epb, <- Z.mul_assoc, <- Z.pow_add_r by lia.
    rewrite Z.mul_1_l. do 2 f_equal. lia.
Qed.

Lemma int_truediv_counts (a b : Z) :
  (0 <= a < 2 ^ 53)%Z -> (0 < b < 2 ^ 53)%Z ->
  Py.int_truediv a b = Return (Spec.float_of_count a / Spec.float_of_count b).
Proof.
  intros Ha Hb.
  destruct (int_truediv_returns a b 53 ltac:(lia) ltac:(lia) ltac:(lia) ltac:(lia))
    as (x & Hx & _).
  rewrite Hx. f_equal. apply Prim2SF_inj.
  apply int_truediv_spec in Hx as (_ & -> & _).
  rewrite div_spec, !float_of_count_spec by lia.
  symmetry. apply exact_div_counts; done.
Qed.

(** * The claims *)

Local Open Scope float_scope.

Import Readability.

(** ** Helpers on the component *)

Lemma count_filter {A : Type} (p : A -> bool) (l : list A) :
  len (List.filter p l) = Spec.count p l.
Proof.
  unfold len. induction l as [|x l IH]; [done|].
  cbn [List.filter Spec.count]. destruct (p x); cbn [List.length]; lia.
Qed.

Lemma len_filter_range {A : Type} (p : A -> bool) (l : list A) :
  (0 <= len (List.filter p l) <= len l)%Z.
Proof. unfold len. pose proof (List.filter_length_le p l). lia. Qed.

Lemma hard_words_range (doc : Doc) : (0 <= hard_words doc <= len (_n_syllables doc))%Z.
Proof. apply len_filter_range. Qed.

Lemma long_words_range (doc : Doc) : (0 <= long_words doc <= len (_filtered_tokens doc))%Z.
Proof. apply len_filter_range. Qed.

(** [scores] returns exactly when its five fallible entries return. *)
Lemma scores_returns {libm : Py.Libm} (doc : Doc) (hw lw : Z) (m : list (string * float)) :
  scores doc hw lw = Return m <->
  exists v1 v2 v3 v4 v5 v6 v7 v8,
    _flesch_reading_ease doc = Return v1 /\ _flesch_kincaid_grade doc = Return v2 /\
    _smog doc hw = Return v3 /\ _gunning_fog doc hw = Return v4 /\
    _automated_readability_index doc = Return v5 /\ _coleman_liau_index doc = Return v6 /\
    _lix doc lw = Return v7 /\ _rix doc lw = Return v8 /\
    m = [ ("flesch_reading_ease"%string, v1); ("flesch_kincaid_grade"%string, v2);
          ("smog"%string, v3); ("gunning_fog"%string, v4);
          ("automated_readability_index"%string, v5); ("coleman_liau_index"%string, v6);
          ("lix"%string, v7); ("rix"%string, v8) ].
Proof.
  unfold scores. split.
  - destruct (_flesch_reading_ease doc) as [v1|]; [|done].
    destruct (_flesch_kincaid_grade doc) as [v2|]; [|done].
    destruct (_smog doc hw) as [v3|]; [|done].
    destruct (_gunning_fog doc hw) as [v4|]; [|done].
    destruct (_automated_readability_index doc) as [v5|]; [|done].
    destruct (_coleman_liau_index doc) as [v6|]; [|done].
    destruct (_lix doc lw) as [v7|]; [|done].
    destruct (_rix doc lw) as [v8|]; [|done].
    cbn [mbind outcome_bind]. intros [= <-]. by exists v1, v2, v3, v4, v5, v6, v7, v8.
  - intros (v1 & v2 & v3 & v4 & v5 & v6 & v7 & v8 & -> & -> & -> & -> & -> & -> & -> & -> & ->).
    done.
Qed.

Lemma scores_raises {libm : Py.Libm} (doc : Doc) (hw lw : Z) :
  returns (_smog doc hw) = false \/ returns (_gunning_fog doc hw) = false \/
  returns (_coleman_liau_index doc) = false \/ returns (_lix doc lw) = false \/
  returns (_rix doc lw) = false ->
  returns (scores doc hw lw) = false.
Proof.
  intros H. destruct (scores doc hw lw) as [m|] eqn:Hs; [|done].
  apply scores_returns in Hs
    as (v1 & v2 & v3 & v4 & v5 & v6 & v7 & v8 & _ & _ & H3 & H4 & _ & H6 & H7 & H8 & _).
  rewrite H3, H4, H6, H7, H8 in H. destruct H as [H|[H|[H|[H|H]]]]; done.
Qed.

(** ** C1 *)

(** C1 (as stated, refuted): with [n_tokens = 0] the code does not produce
    an infinity or a NaN: [gunning_fog] and [lix] raise
    [ZeroDivisionError], and so does [readability]; no mapping is
    returned. *)
Lemma C1_counterexample :
  _gunning_fog tokenless_doc (hard_words tokenless_doc) = Raise ZeroDivisionError /\
  _lix tokenless_doc (long_words tokenless_doc) = Raise ZeroDivisionError /\
  readability tokenless_doc = Raise ZeroDivisionError.
Proof. vm_compute. done. Qed.

(** C1 (amended): a zero divisor makes the affected formula raise
    [ZeroDivisionError]: [n_tokens = 0] for [gunning_fog] and [lix],
    [n_sentences = 0] for [rix] (while [smog] answers its sentinel), a zero
    [sentence_length_mean] of either sign for [coleman_liau_index]; in each
    case [readability] raises and returns no mapping. *)
Theorem C1_zero_divisor_raises {libm : Py.Libm} (doc : Doc) :
  (_n_tokens doc = 0%Z ->
     (forall hw, _gunning_fog doc hw = Raise ZeroDivisionError) /\
     (forall lw, _lix doc lw = Raise ZeroDivisionError) /\
     returns (readability doc) = false) /\
  (_n_sentences doc = 0%Z ->
     (forall lw, _rix doc lw = Raise ZeroDivisionError) /\
     (forall hw, _smog doc hw = Return 0) /\
     returns (readability doc) = false) /\
  ((sentence_length_mean doc =? 0) = true ->
     (forall n, Py.float_of_int (_n_sentences doc) = Return n ->
                _coleman_liau_index doc = Raise ZeroDivisionError) /\
     returns (_coleman_liau_index doc) = false /\
     returns (readability doc) = false).
Proof.
  split; [|split].
  - intros H.
    assert (H1 : forall hw, _gunning_fog doc hw = Raise ZeroDivisionError)
      by (intros hw; unfold _gunning_fog; rewrite H; done).
    assert (H2 : forall lw, _lix doc lw = Raise ZeroDivisionError)
      by (intros lw; unfold _lix; rewrite H; done).
    repeat split; try done. apply scores_raises. rewrite H1. auto.
  - intros H.
    assert (H1 : forall lw, _rix doc lw = Raise ZeroDivisionError)
      by (intros lw; unfold _rix; rewrite H; done).
    assert (H2 : forall hw, _smog doc hw = Return 0)
      by (intros hw; unfold _smog; rewrite H; done).
    repeat split; try done. apply scores_raises. rewrite H1. auto 10.
  - intros H.
    assert (H1 : forall n, Py.float_of_int (_n_sentences doc) = Return n ->
                           _coleman_liau_index doc = Raise ZeroDivisionError).
    { intros n Hn. unfold _coleman_liau_index, Py.int_float_truediv, Py.float_truediv.
      rewrite Hn. cbn [mbind outcome_bind]. rewrite H. done. }
    assert (H2 : returns (_coleman_liau_index doc) = false).
    { destruct (Py.float_of_int (_n_sentences doc)) as [n|e] eqn:Hn.
      - rewrite (H1 n); done.
      - unfold _coleman_liau_index, Py.int_float_truediv. rewrite Hn. done. }
    repeat split; try done. apply scores_raises. auto.
Qed.

Lemma C1_zero_divisor_raises_witness :
  returns (readability empty_doc) = false /\
  _rix empty_doc 0 = Raise ZeroDivisionError /\
  returns (_coleman_liau_index empty_doc) = false.
Proof.
  destruct (C1_zero_divisor_raises empty_doc) as (H1 & H2 & H3).
  split; [apply H1; reflexivity|].
  split; [apply H2; reflexivity|apply H3; reflexivity].
Defined.

(** ** C2 *)

Lemma smog_base_nonneg (hw ns : Z) (q : float) :
  (0 <= hw)%Z -> (3 <= ns)%Z -> Py.int_truediv hw ns = Return q ->
  SF_sign_is false (Prim2SF (30 * q)).
Proof.
  intros Hhw Hns Hq. apply float_mul_nonneg; [done|].
  eapply int_truediv_nonneg; [| |done]; lia.
Qed.

(** From three sentences on, [smog] is built on the correctly rounded
    root of the base [30 * (hard_words / n_sentences)] or of a float next
    to the base. *)
Lemma smog_root {libm : Py.Libm} (doc : Doc) (hw : Z) (q : float) :
  (0 <= hw)%Z -> (3 <= _n_sentences doc)%Z ->
  Py.int_truediv hw (_n_sentences doc) = Return q ->
  exists y, Py.adjacent (30 * q) y /\ SF_sign_is false (Prim2SF y) /\
            (is_finite (30 * q) = true -> is_finite y = true) /\
            _smog doc hw = Return (1.043 * sqrt y + 3.1291).
Proof.
  intros Hhw Hns Hq.
  destruct (pow_half_root (30 * q)) as (y & Hy & Sy & Fy & Hp);
    [eapply smog_base_nonneg; done|].
  exists y. split; [done|]. split; [done|]. split; [done|].
  unfold _smog. destruct (Z.leb_spec 3 (_n_sentences doc)); [|lia].
  rewrite Hq. cbn [mbind outcome_bind]. rewrite Hp. done.
Qed.

Lemma smog_stable {libm : Py.Libm} (doc : Doc) (hw : Z) (q : float) :
  (0 <= hw)%Z -> (3 <= _n_sentences doc)%Z ->
  Py.int_truediv hw (_n_sentences doc) = Return q -> Py.root_stable (30 * q) = true ->
  _smog doc hw = Return (1.043 * sqrt (30 * q) + 3.1291).
Proof.
  intros Hhw Hns Hq Hs. unfold _smog. destruct (Z.leb_spec 3 (_n_sentences doc)); [|lia].
  rewrite Hq. cbn [mbind outcome_bind].
  rewrite pow_half_stable; [done| |done]. eapply smog_base_nonneg; done.
Qed.

(** C2 (as stated, refuted): sixty hard words in eleven sentences.  The
    base of the root is [163.63636363636363]; its correctly rounded root
    is [12.792042981336627], and the C library's [pow] answers the float
    below it, [12.792042981336625] (the library of the examples, as
    glibc does): the code returns [16.471200829534098], the formula with
    [sqrt] is [16.4712008295341]. *)
Lemma C2_counterexample :
  hard_words tie_doc = 60%Z /\ _n_sentences tie_doc = 11%Z /\
  30 * (Spec.float_of_count 60 / Spec.float_of_count 11) = 163.63636363636363 /\
  sqrt 163.63636363636363 = 12.792042981336627 /\
  Py.pow_half 163.63636363636363 = Return 12.792042981336625 /\
  _smog tie_doc (hard_words tie_doc) = Return 16.471200829534098 /\
  Spec.smog 60 11 = 16.4712008295341 /\
  _smog tie_doc (hard_words tie_doc) <>
    Return (Spec.smog (hard_words tie_doc) (_n_sentences tie_doc)).
Proof.
  repeat split; try (vm_compute; reflexivity).
  intros H.
  apply (f_equal (fun r => match r with Return v => Prim2SF v | Raise _ => S754_nan end)) in H.
  vm_compute in H. discriminate H.
Qed.

(** C2 (amended): below three sentences [smog] is [0.0], whatever
    [hard_words] is (so for two sentences); from three sentences on it is
    [3.1291] without hard words, and for counts below [2 ^ 53] it is
    [1.043 * r + 3.1291] where [r], the code's [** 0.5], is the correctly
    rounded square root of the base [30 * (hard_words / n_sentences)] or
    of a float next to the base; where the rounded root is stable, [r] is
    the square root of the base and [smog] is the formula with [sqrt]; so
    it is for four hard words in four sentences, [8.841846274778883]. *)
Theorem C2_smog {libm : Py.Libm} (doc : Doc) :
  ((_n_sentences doc < 3)%Z -> forall hw, _smog doc hw = Return 0) /\
  ((3 <= _n_sentences doc)%Z -> _smog doc 0 = Return 3.1291) /\
  (forall hw, (0 <= hw < 2 ^ 53)%Z -> (3 <= _n_sentences doc < 2 ^ 53)%Z ->
     let base := 30 * (Spec.float_of_count hw / Spec.float_of_count (_n_sentences doc)) in
     (exists y, Py.adjacent base y /\ _smog doc hw = Return (1.043 * sqrt y + 3.1291)) /\
     (Py.root_stable base = true ->
        _smog doc hw = Return (Spec.smog hw (_n_sentences doc)))) /\
  (_n_sentences doc = 4%Z ->
     _smog doc 4 = Return (Spec.smog 4 4) /\ Spec.smog 4 4 = 8.841846274778883).
Proof.
  assert (H53 : forall hw, (0 <= hw < 2 ^ 53)%Z -> (3 <= _n_sentences doc < 2 ^ 53)%Z ->
     let base := 30 * (Spec.float_of_count hw / Spec.float_of_count (_n_sentences doc)) in
     (exists y, Py.adjacent base y /\ _smog doc hw = Return (1.043 * sqrt y + 3.1291)) /\
     (Py.root_stable base = true ->
        _smog doc hw = Return (Spec.smog hw (_n_sentences doc)))).
  { intros hw Hhw Hns base.
    pose proof (int_truediv_counts hw (_n_sentences doc) Hhw ltac:(lia)) as Hq. split.
    - destruct (smog_root doc hw _ ltac:(lia) ltac:(lia) Hq) as (y & Hy & _ & _ & Hs).
      exists y. done.
    - intros Hst. rewrite (smog_stable doc hw _ ltac:(lia) ltac:(lia) Hq Hst).
      unfold Spec.smog. destruct (Z.leb_spec 3 (_n_sentences doc)); [done|lia]. }
  split; [|split; [|split; [exact H53|]]].
  - intros Hns hw. unfold _smog. destruct (Z.leb_spec 3 (_n_sentences doc)); [lia|done].
  - intros Hns. unfold _smog. destruct (Z.leb_spec 3 (_n_sentences doc)); [|lia].
    rewrite int_truediv_zero by lia. done.
  - intros Hns. split; [|vm_compute; reflexivity].
    destruct (H53 4%Z ltac:(lia) ltac:(lia)) as [_ Hst]. rewrite Hns in Hst.
    apply Hst. vm_compute. reflexivity.
Qed.

Lemma C2_smog_witness :
  _smog (mkDoc 10 1.5 5 2 40 [] []) 7 = Return 0 /\
  _smog (mkDoc 10 1.5 5 3 40 [] []) 0 = Return 3.1291 /\
  _smog scenario_doc 4 = Return (Spec.smog 4 4) /\
  Spec.smog 4 4 = 8.841846274778883 /\
  (exists y, Py.adjacent 163.63636363636363 y /\
             _smog tie_doc 60 = Return (1.043 * sqrt y + 3.1291)).
Proof.
  destruct (C2_smog (mkDoc 10 1.5 5 2 40 [] [])) as (H2 & _).
  destruct (C2_smog (mkDoc 10 1.5 5 3 40 [] [])) as (_ & H3 & _).
  destruct (C2_smog scenario_doc) as (_ & _ & _ & H4).
  destruct (C2_smog tie_doc) as (_ & _ & H11 & _).
  split; [apply H2; cbn; lia|]. split; [apply H3; cbn; lia|].
  split; [apply H4; reflexivity|]. split; [apply H4; reflexivity|].
  apply (H11 60%Z); cbn; lia.
Defined.

(** ** C3 *)

Lemma scores_keys {libm : Py.Libm} (doc : Doc) (hw lw : Z) (m : list (string * float)) :
  scores doc hw lw = Return m -> List.map fst m = Spec.keys.
Proof.
  intros H. apply scores_returns in H
    as (v1 & v2 & v3 & v4 & v5 & v6 & v7 & v8 & _ & _ & _ & _ & _ & _ & _ & _ & ->).
  done.
Qed.

Lemma ordinary_bounds (doc : Doc) :
  Spec.ordinary doc ->
  mag_le 65 (sentence_length_mean doc) /\ mag_ge (-63) (sentence_length_mean doc) /\
  mag_le 65 (syllables_per_token_mean doc) /\ mag_le 65 (token_length_mean doc).
Proof.
  intros (_ & _ & _ & H1 & H2 & H3 & H4).
  assert (Hhi : mag_le 65 0x1p64) by (unfold mag_le; vm_compute; intros H; discriminate H).
  assert (Hlo : mag_ge (-63) 0x1p-64) by (unfold mag_ge; vm_compute; intros H; discriminate H).
  assert (Hsl : mag_le 65 (sentence_length_mean doc))
    by (eapply float_abs_le_mag; [done|done|lia]).
  repeat split; try done.
  - eapply float_abs_ge_mag; [done|done|done|lia|done].
  - eapply float_abs_le_mag; [done|done|lia].
  - eapply float_abs_le_mag; [done|done|lia].
Qed.

Lemma smog_finite {libm : Py.Libm} (doc : Doc) (hw : Z) :
  (0 <= hw < 2 ^ 63)%Z -> _n_sentences doc <> 0%Z ->
  exists v, _smog doc hw = Return v /\ is_finite v = true.
Proof.
  intros Hhw Hns.
  destruct (Z.leb_spec 3 (_n_sentences doc)) as [H3|H3].
  - destruct (int_truediv_returns hw (_n_sentences doc) 63
                ltac:(lia) ltac:(lia) ltac:(lia) Hns) as (q & Hq & Hm).
    destruct (smog_root doc hw q ltac:(lia) H3 Hq) as (y & _ & Sy & Fy & ->).
    eexists. split; [done|].
    assert (My : mag_le 1024 y) by (apply finite_mag_le, Fy; finite).
    finite.
  - unfold _smog. destruct (Z.leb_spec 3 (_n_sentences doc)); [lia|]. by eexists.
Qed.

(** C3 (as stated, refuted): a document without tokens gets no mapping at
    all, so not one with the eight keys; and a document whose divisors are
    all nonzero and whose statistics are all finite can get an infinite
    score. *)
Lemma C3_counterexample :
  ~ (exists m, readability tokenless_doc = Return m /\ List.map fst m = Spec.keys) /\
  Spec.entry "coleman_liau_index" (readability tiny_doc) = Some neg_infinity.
Proof.
  split; [|by vm_compute].
  intros (m & Hm & _). vm_compute in Hm. discriminate Hm.
Qed.

(** C3 (amended): whenever [readability] returns a mapping, its keys are
    exactly the eight keys, in the order of section 4.1; for counts in the
    range of list lengths it returns one exactly when the three divisors
    ([n_sentences], [n_tokens], [sentence_length_mean]) are nonzero; and
    for a document that is moreover of ordinary magnitude (means at most
    [2 ^ 64], sentence length mean at least [2 ^ -64] in magnitude) every
    one of the eight values is a finite float. *)
Theorem C3_keys_and_finite {libm : Py.Libm} (doc : Doc) :
  (forall m, readability doc = Return m -> List.map fst m = Spec.keys) /\
  (Spec.counts_in_range doc ->
     (returns (readability doc) = true <->
      _n_sentences doc <> 0%Z /\ _n_tokens doc <> 0%Z /\
      (sentence_length_mean doc =? 0) = false)) /\
  (Spec.ordinary doc ->
     exists m, readability doc = Return m /\ List.map fst m = Spec.keys /\
               Forall (fun kv => Spec.finite (snd kv) = true) m).
Proof.
  split; [intros m; apply scores_keys|].
  pose proof (hard_words_range doc) as Hhw. pose proof (long_words_range doc) as Hlw.
  split.
  - intros (Hns & Hnt & Hsy & Hto). split.
    + intros Hr. destruct (readability doc) as [m|] eqn:Hm; [|done].
      apply scores_returns in Hm
        as (v1 & v2 & v3 & v4 & v5 & v6 & v7 & v8 & _ & _ & _ & H4 & _ & H6 & _ & H8 & _).
      unfold _gunning_fog in H4. unfold _rix in H8.
      unfold _coleman_liau_index, Py.int_float_truediv, Py.float_truediv in H6.
      repeat split.
      * intros H0. rewrite H0 in H8. done.
      * intros H0. rewrite H0 in H4. done.
      * destruct (Py.float_of_int (_n_sentences doc)); [|done].
        cbn [mbind outcome_bind] in H6. destruct (sentence_length_mean doc =? 0); done.
    + intros (Hns0 & Hnt0 & Hsl0). unfold readability.
      destruct (int_truediv_returns (hard_words doc) (_n_sentences doc) 63
                  ltac:(lia) ltac:(lia) ltac:(lia) Hns0) as (q3 & Hq3 & _).
      destruct (int_truediv_returns (hard_words doc) (_n_tokens doc) 63
                  ltac:(lia) ltac:(lia) ltac:(lia) Hnt0) as (q4 & Hq4 & _).
      destruct (int_truediv_returns (long_words doc) (_n_tokens doc) 63
                  ltac:(lia) ltac:(lia) ltac:(lia) Hnt0) as (q7 & Hq7 & _).
      destruct (int_truediv_returns (long_words doc) (_n_sentences doc) 63
                  ltac:(lia) ltac:(lia) ltac:(lia) Hns0) as (q8 & Hq8 & _).
      destruct (float_of_int_returns (_n_sentences doc) 63 Hns ltac:(lia) ltac:(lia))
        as (n & Hn & _).
      destruct (smog_finite doc (hard_words doc) ltac:(lia) Hns0) as (v3 & Hv3 & _).
      unfold scores, _flesch_reading_ease, _flesch_kincaid_grade, _gunning_fog,
        _automated_readability_index, _coleman_liau_index, _lix, _rix,
        Py.int_float_truediv, Py.float_truediv.
      rewrite Hv3, Hq4, Hq7, Hq8, Hn. cbn [mbind outcome_bind]. rewrite Hsl0. done.
  - intros Hord. pose proof Hord as ((Hns & Hnt & Hsy & Hto) & Hns0 & Hnt0 & _).
    destruct (ordinary_bounds doc Hord) as (Hsl & Hsl' & Hspt & Htl).
    destruct (smog_finite doc (hard_words doc) ltac:(lia) Hns0) as (v3 & Hv3 & Fv3).
    destruct (int_truediv_returns (hard_words doc) (_n_tokens doc) 63
                ltac:(lia) ltac:(lia) ltac:(lia) Hnt0) as (q4 & Hq4 & Mq4).
    destruct (int_truediv_returns (long_words doc) (_n_tokens doc) 63
                ltac:(lia) ltac:(lia) ltac:(lia) Hnt0) as (q7 & Hq7 & Mq7).
    destruct (int_truediv_returns (long_words doc) (_n_sentences doc) 63
                ltac:(lia) ltac:(lia) ltac:(lia) Hns0) as (q8 & Hq8 & Mq8).
    destruct (float_of_int_returns (_n_sentences doc) 63 Hns ltac:(lia) ltac:(lia))
      as (n & Hn & Mn).
    pose proof (mag_ge_nonzero _ _ Hsl') as Hsl0.
    eexists. split; [|split].
    + unfold readability. apply scores_returns. do 8 eexists.
      split; [done|]. split; [done|]. split; [exact Hv3|].
      split; [unfold _gunning_fog; rewrite Hq4; done|]. split; [done|].
      split; [unfold _coleman_liau_index, Py.int_float_truediv, Py.float_truediv;
              rewrite Hn; cbn [mbind outcome_bind]; rewrite Hsl0; done|].
      split; [unfold _lix; rewrite Hq7; done|].
      split; [unfold _rix; exact Hq8|]. done.
    + done.
    + unfold Spec.finite.
      repeat first [apply List.Forall_nil | apply List.Forall_cons]; cbn [snd];
        try done; finite.
Qed.

Lemma C3_keys_and_finite_witness :
  (returns (readability scenario_doc) = true <->
   _n_sentences scenario_doc <> 0%Z /\ _n_tokens scenario_doc <> 0%Z /\
   (sentence_length_mean scenario_doc =? 0) = false) /\
  (exists m, readability scenario_doc = Return m /\ List.map fst m = Spec.keys /\
             Forall (fun kv => Spec.finite (snd kv) = true) m).
Proof.
  destruct (C3_keys_and_finite scenario_doc) as (_ & H2 & H3).
  assert (Hc : Spec.counts_in_range scenario_doc).
  { unfold Spec.counts_in_range. vm_compute. done. }
  split; [apply H2; exact Hc|].
  apply H3. unfold Spec.ordinary. split; [exact Hc|]. vm_compute. repeat split; discriminate.
Defined.

(** ** C4 *)

(** C4 (as stated, refuted): on the scenario the code does not return the
    decimals [69.785] and [6.01]: the binary64 evaluation of
    [206.835 - 1.015 * 10.0 - 84.6 * 1.5] is one unit in the last place
    above the float [69.785], and that of [0.39 * 10.0 + 11.8 * 1.5 - 15.59]
    two units above the float [6.01]. *)
Lemma C4_counterexample :
  Spec.scenario scenario_doc /\
  Spec.entry "flesch_reading_ease" (readability scenario_doc) <> Some 69.785 /\
  Spec.entry "flesch_kincaid_grade" (readability scenario_doc) <> Some 6.01.
Proof.
  split; [by vm_compute|].
  split; intros H; apply (f_equal (fmap Prim2SF)) in H; vm_compute in H; discriminate H.
Qed.

(** C4 (amended): on the scenario, [gunning_fog] is exactly [8.0], [rix]
    exactly [1.5], [smog] is [1.043 * sqrt 30 + 3.1291] evaluated in
    binary64 ([8.841846274778883]), [flesch_reading_ease] is
    [69.78500000000001], the float next above [69.785], and
    [flesch_kincaid_grade] is [6.010000000000002], two floats above
    [6.01]. *)
Theorem C4_scenario_values {libm : Py.Libm} (doc : Doc) :
  Spec.scenario doc ->
  Spec.entry "flesch_reading_ease" (readability doc) = Some 69.78500000000001 /\
  69.78500000000001 = next_up 69.785 /\
  Spec.entry "flesch_kincaid_grade" (readability doc) = Some 6.010000000000002 /\
  6.010000000000002 = next_up (next_up 6.01) /\
  Spec.entry "smog" (readability doc) = Some (1.043 * sqrt 30 + 3.1291) /\
  1.043 * sqrt 30 + 3.1291 = 8.841846274778883 /\
  Spec.entry "gunning_fog" (readability doc) = Some 8.0 /\
  Spec.entry "rix" (readability doc) = Some 1.5.
Proof.
  intros (Hsl & Hspt & Htl & Hns & Hnt & Hhw & Hlw).
  unfold readability. rewrite Hhw, Hlw.
  destruct doc as [sl spt tl ns nt syl toks]. cbn in Hsl, Hspt, Htl, Hns, Hnt. subst.
  unfold scores. rewrite (smog_stable _ 4 1) by (first [lia | cbn; lia | vm_compute; reflexivity]).
  vm_compute. done.
Qed.

Lemma C4_scenario_values_witness :
  Spec.entry "gunning_fog" (readability scenario_doc) = Some 8.0 /\
  Spec.entry "flesch_reading_ease" (readability scenario_doc) = Some (next_up 69.785).
Proof.
  assert (H : Spec.scenario scenario_doc) by (vm_compute; done).
  destruct (C4_scenario_values scenario_doc H) as (H1 & H2 & _ & _ & _ & _ & H7 & _).
  split; [exact H7|]. rewrite <- H2. exact H1.
Defined.

(** ** C5 *)

(** C5: [hard_words] is the number of syllable counts that are at least
    3 and [long_words] the number of filtered tokens longer than 6
    characters: a token of fewer than 3 syllables (2, say) leaves
    [hard_words] as it is and one of 3 or more adds one, a filtered token
    of at most 6 characters leaves [long_words] as it is and a longer one
    adds one; [readability] computes both from the sequences of the
    document it is called on. *)
Theorem C5_hard_and_long_words {libm : Py.Libm} (doc : Doc) :
  hard_words doc = Spec.count (fun s => (3 <=? s)%Z) (_n_syllables doc) /\
  long_words doc = Spec.count (fun t => (6 <? token_len t)%Z) (_filtered_tokens doc) /\
  (forall s, (s < 3)%Z -> hard_words (Spec.with_syllables s doc) = hard_words doc) /\
  (forall s, (3 <= s)%Z -> hard_words (Spec.with_syllables s doc) = (1 + hard_words doc)%Z) /\
  (forall t, (token_len t <= 6)%Z -> long_words (Spec.with_token t doc) = long_words doc) /\
  (forall t, (6 < token_len t)%Z ->
             long_words (Spec.with_token t doc) = (1 + long_words doc)%Z) /\
  readability doc =
    scores doc (Spec.count (fun s => (3 <=? s)%Z) (_n_syllables doc))
               (Spec.count (fun t => (6 <? token_len t)%Z) (_filtered_tokens doc)).
Proof.
  assert (H1 : forall d, hard_words d = Spec.count (fun s => (3 <=? s)%Z) (_n_syllables d))
    by (intros d; apply count_filter).
  assert (H2 : forall d, long_words d =
                         Spec.count (fun t => (6 <? token_len t)%Z) (_filtered_tokens d))
    by (intros d; apply count_filter).
  split; [apply H1|]. split; [apply H2|]. repeat split.
  - intros s Hs. rewrite !H1. cbn [Spec.with_syllables _n_syllables Spec.count].
    destruct (Z.leb_spec 3 s); lia.
  - intros s Hs. rewrite !H1. cbn [Spec.with_syllables _n_syllables Spec.count].
    destruct (Z.leb_spec 3 s); lia.
  - intros t Ht. rewrite !H2. cbn [Spec.with_token _filtered_tokens Spec.count].
    destruct (Z.ltb_spec 6 (token_len t)); lia.
  - intros t Ht. rewrite !H2. cbn [Spec.with_token _filtered_tokens Spec.count].
    destruct (Z.ltb_spec 6 (token_len t)); lia.
  - unfold readability. rewrite H1, H2. done.
Qed.

Lemma C5_hard_and_long_words_witness :
  hard_words (Spec.with_syllables 2 scenario_doc) = hard_words scenario_doc /\
  hard_words (Spec.with_syllables 3 scenario_doc) = (1 + hard_words scenario_doc)%Z /\
  long_words (Spec.with_token "abcdef" scenario_doc) = long_words scenario_doc /\
  long_words (Spec.with_token "abcdefg" scenario_doc) = (1 + long_words scenario_doc)%Z.
Proof.
  destruct (C5_hard_and_long_words scenario_doc) as (_ & _ & H1 & H2 & H3 & H4 & _).
  split; [apply H1; lia|]. split; [apply H2; lia|].
  split; [apply H3; vm_compute; discriminate|apply H4; reflexivity].
Defined.

(** ** C6 *)

(** C6: [automated_readability_index] is
    [4.71 * token_length_mean + 0.5 * sentence_length_mean - 21.43], the
    formula of section 4.1, and never raises; for a nonzero
    [sentence_length_mean], [coleman_liau_index] is
    [0.0588 * (token_length_mean * 100)
     - 0.296 * ((n_sentences / sentence_length_mean) * 100) - 15.8],
    the formula of section 4.1 on the float of the count [n_sentences]
    (a count is below [2 ^ 63]; the conversion succeeds for every int
    below [2 ^ 1023]).  On the scenario of section 8 the two scores are
    [7.120000000000001] and [1.759999999999998].  The operations are
    those of the code, in its order: for a token length of [3.0], a
    sentence length of [9.8] and [5] sentences the scores are
    [-2.3999999999999986] and [-13.26204081632653], where taking the
    second subtraction first would give [-2.400000000000002] and
    [-13.262040816326532]. *)
Theorem C6_ari_and_coleman_liau (doc : Doc) :
  _automated_readability_index doc =
    Return (4.71 * token_length_mean doc + 0.5 * sentence_length_mean doc - 21.43) /\
  _automated_readability_index doc =
    Return (Spec.automated_readability_index (token_length_mean doc)
                                             (sentence_length_mean doc)) /\
  ((sentence_length_mean doc =? 0) = false ->
   _coleman_liau_index doc =
     (n ← Py.float_of_int (_n_sentences doc);
      Return (0.0588 * (token_length_mean doc * 100)
              - 0.296 * ((n / sentence_length_mean doc) * 100) - 15.8)) /\
   ((Z.abs (_n_sentences doc) < 2 ^ 1023)%Z ->
    exists n,
      Py.float_of_int (_n_sentences doc) = Return n /\
      _coleman_liau_index doc =
        Return (0.0588 * (token_length_mean doc * 100)
                - 0.296 * ((n / sentence_length_mean doc) * 100) - 15.8)) /\
   ((0 <= _n_sentences doc < 2 ^ 63)%Z ->
    Py.float_of_int (_n_sentences doc) = Return (Spec.float_of_count (_n_sentences doc)) /\
    _coleman_liau_index doc =
      Return (Spec.coleman_liau_index (token_length_mean doc) (sentence_length_mean doc)
                                      (_n_sentences doc)))) /\
  (Spec.scenario doc ->
   Spec.float_of_count (_n_sentences doc) = 4.0 /\
   _automated_readability_index doc = Return 7.120000000000001 /\
   _coleman_liau_index doc = Return 1.759999999999998) /\
  (token_length_mean doc = 3.0 -> sentence_length_mean doc = 9.8 ->
   _n_sentences doc = 5%Z ->
   _automated_readability_index doc = Return (-2.3999999999999986) /\
   4.71 * 3.0 + (0.5 * 9.8 - 21.43) = -2.400000000000002 /\
   _coleman_liau_index doc = Return (-13.26204081632653) /\
   0.0588 * (3.0 * 100) - (0.296 * ((5.0 / 9.8) * 100) + 15.8) = -13.262040816326532).
Proof.
  split; [done|]. split; [done|]. split.
  - intros Hsl.
    assert (H : _coleman_liau_index doc =
       (n ← Py.float_of_int (_n_sentences doc);
        Return (0.0588 * (token_length_mean doc * 100)
                - 0.296 * ((n / sentence_length_mean doc) * 100) - 15.8))).
    { unfold _coleman_liau_index, Py.int_float_truediv, Py.float_truediv.
      destruct (Py.float_of_int (_n_sentences doc)) as [n|e]; [|done].
      cbn [mbind outcome_bind]. rewrite Hsl. done. }
    split; [done|]. split.
    + intros Hns.
      destruct (float_of_int_returns (_n_sentences doc) 1023 Hns ltac:(lia) ltac:(lia))
        as (n & Hn & _).
      exists n. split; [done|]. rewrite H, Hn. done.
    + intros Hns. pose proof (float_of_int_count (_n_sentences doc) Hns) as Hn.
      split; [done|]. rewrite H, Hn. done.
  - split.
    + intros (Hsl & _ & Htl & Hns & _).
      unfold _automated_readability_index, _coleman_liau_index, Py.int_float_truediv.
      rewrite Hsl, Htl, Hns. vm_compute. done.
    + intros Htl Hsl Hns.
      unfold _automated_readability_index, _coleman_liau_index, Py.int_float_truediv.
      rewrite Hsl, Htl, Hns. vm_compute. done.
Qed.

Lemma C6_ari_and_coleman_liau_witness :
  Py.float_of_int 4 = Return 4.0 /\
  _coleman_liau_index scenario_doc = Return (Spec.coleman_liau_index 5.0 10.0 4) /\
  _coleman_liau_index scenario_doc = Return 1.759999999999998 /\
  _automated_readability_index scenario_doc = Return 7.120000000000001 /\
  _coleman_liau_index order_doc = Return (-13.26204081632653).
Proof.
  destruct (C6_ari_and_coleman_liau scenario_doc) as (_ & _ & H1 & H2 & _).
  destruct (C6_ari_and_coleman_liau order_doc) as (_ & _ & _ & _ & H8).
  destruct (H1 eq_refl) as (_ & _ & H3).
  destruct (H3 ltac:(cbn; lia)) as [H4 H5].
  destruct (H2 ltac:(vm_compute; done)) as (_ & H6 & H7).
  split; [exact H4|]. split; [exact H5|]. split; [exact H7|]. split; [exact H6|].
  apply H8; reflexivity.
Defined.

(** ** C7 *)

(** C7 (as stated, refuted): two documents that differ only in
    [sentence_length_mean], the second strictly larger, with the same
    [flesch_reading_ease] and the same [flesch_kincaid_grade]: the
    difference is lost in the rounding of binary64. *)
Lemma C7_counterexample :
  Spec.same_but_sentence_length short_doc near_doc /\
  (sentence_length_mean short_doc <? sentence_length_mean near_doc) = true /\
  _flesch_reading_ease near_doc = _flesch_reading_ease short_doc /\
  _flesch_kincaid_grade near_doc = _flesch_kincaid_grade short_doc.
Proof. vm_compute. done. Qed.

(** C7 (amended): for two documents that differ only in
    [sentence_length_mean], a strictly larger [sentence_length_mean] yields
    a [flesch_reading_ease] that is smaller or equal and a
    [flesch_kincaid_grade] that is larger or equal, whenever the scores
    are numbers (not NaN). *)
Theorem C7_monotone (d d' : Doc) :
  Spec.same_but_sentence_length d d' ->
  (sentence_length_mean d <? sentence_length_mean d') = true ->
  exists a a' b b',
    _flesch_reading_ease d = Return a /\ _flesch_reading_ease d' = Return a' /\
    _flesch_kincaid_grade d = Return b /\ _flesch_kincaid_grade d' = Return b' /\
    (is_nan a = false -> is_nan a' = false -> (a' <=? a) = true) /\
    (is_nan b = false -> is_nan b' = false -> (b <=? b') = true).
Proof.
  intros (Hspt & _) Hlt. apply float_ltb_leb in Hlt.
  unfold _flesch_reading_ease, _flesch_kincaid_grade. rewrite Hspt.
  do 4 eexists. repeat split.
  - intros Na Na'.
    apply float_sub_mono_l; [|done|done].
    apply float_sub_antimono_r.
    + apply float_mul_mono; done.
    + eapply float_sub_nan_l. done.
    + eapply float_sub_nan_l. done.
  - intros Nb Nb'.
    apply float_sub_mono_l; [|done|done].
    apply float_add_mono_l.
    + apply float_mul_mono; done.
    + eapply float_sub_nan_l. done.
    + eapply float_sub_nan_l. done.
Qed.

Lemma C7_monotone_witness :
  exists a a' b b',
    _flesch_reading_ease scenario_doc = Return a /\ _flesch_reading_ease long_doc = Return a' /\
    _flesch_kincaid_grade scenario_doc = Return b /\ _flesch_kincaid_grade long_doc = Return b' /\
    (a' <=? a) = true /\ (b <=? b') = true.
Proof.
  assert (H1 : Spec.same_but_sentence_length scenario_doc long_doc) by (vm_compute; done).
  destruct (C7_monotone scenario_doc long_doc H1 eq_refl)
    as (a & a' & b & b' & Ha & Ha' & Hb & Hb' & Hfre & Hfkg).
  exists a, a', b, b'. repeat split; try assumption.
  - injection Ha as <-. injection Ha' as <-. apply Hfre; reflexivity.
  - injection Hb as <-. injection Hb' as <-. apply Hfkg; reflexivity.
Defined.

(** ** C8 *)

(** In a program state, [readability] on any instance is the evaluation
    of the formulas on the document, and the state after is the state
    before. *)
Lemma stateful_readability {libm : Py.Libm} (self : nat) (doc : Doc) (st : Stateful.state) :
  Stateful.readability self doc st = (readability doc, st).
Proof.
  unfold Stateful.readability, readability, scores.
  unfold Stateful._flesch_reading_ease, Stateful._flesch_kincaid_grade, Stateful._smog,
    Stateful._gunning_fog, Stateful._automated_readability_index,
    Stateful._coleman_liau_index, Stateful._lix, Stateful._rix, Stateful.expression.
  unfold mbind, mret, Stateful.method_bind, Stateful.method_ret, outcome_bind.
  destruct (_flesch_reading_ease doc); [|done].
  destruct (_flesch_kincaid_grade doc); [|done].
  destruct (_smog doc (hard_words doc)); [|done].
  destruct (_gunning_fog doc (hard_words doc)); [|done].
  destruct (_automated_readability_index doc); [|done].
  destruct (_coleman_liau_index doc); [|done].
  destruct (_lix doc (long_words doc)); [|done].
  destruct (_rix doc (long_words doc)); done.
Qed.

(** Creating a component never fails: it adds an instance, and the getter
    to the registry when none is registered. *)
Lemma stateful_create (st : Stateful.state) :
  exists self st', Stateful.create_readability_component st = (Return self, st').
Proof.
  unfold Stateful.create_readability_component, Stateful.__init__, __init__, set_extension.
  unfold mbind, mret, Stateful.method_bind, Stateful.method_ret.
  cbn [Stateful.doc_extensions Stateful.attributes].
  destruct (has_extension (Stateful.doc_extensions st) "readability"); cbn [negb];
    eexists _, _; reflexivity.
Qed.



(** ** C9 *)

(** C9: registering is idempotent: when the [readability] extension is
    already registered, [__init__] leaves the registry as it is and does
    not raise; in particular a second [__init__] after a first one changes
    nothing, and [__init__] never raises. *)
Theorem C9_registration_idempotent (self self' : nat) (reg : gmap string nat) :
  (has_extension reg "readability" = true -> __init__ self reg = Return reg) /\
  (forall reg', __init__ self reg = Return reg' -> __init__ self' reg' = Return reg') /\
  returns (__init__ self reg) = true.
Proof.
  assert (H : has_extension reg "readability" = true -> __init__ self reg = Return reg).
  { intros H. unfold __init__. rewrite H. done. }
  split; [done|]. split.
  - intros reg' Hreg'. unfold __init__ in *. unfold set_extension in Hreg'.
    destruct (has_extension reg "readability") eqn:Hh; cbn [negb] in Hreg'.
    + injection Hreg' as <-. rewrite Hh. done.
    + injection Hreg' as <-.
      assert (Hh' : has_extension (<["readability"%string:=self]> reg) "readability" = true).
      { unfold has_extension. apply bool_decide_eq_true. rewrite lookup_insert_eq. eauto. }
      rewrite Hh'. done.
  - unfold __init__, set_extension. destruct (has_extension reg "readability"); done.
Qed.

Lemma C9_registration_idempotent_witness :
  __init__ 2 (<["readability"%string := 1%nat]> ∅) = Return (<["readability"%string := 1%nat]> ∅).
Proof.
  apply (C9_registration_idempotent 2 2 (<["readability"%string := 1%nat]> ∅)).
  vm_compute. reflexivity.
Defined.

(** ** C10 *)

(** C10: for a non-negative [hard_words] (below [2 ^ 1023], as every
    list length is) [smog] returns a value, and a value it returns is
    either the sentinel [0.0], below three sentences, or at least
    [3.1291], from three sentences on; it is never negative, never NaN and
    never strictly between [0.0] and [3.1291]. *)
Theorem C10_smog_sentinel {libm : Py.Libm} (doc : Doc) (hw : Z) :
  (0 <= hw)%Z ->
  ((hw < 2 ^ 1023)%Z -> exists x, _smog doc hw = Return x) /\
  (forall x, _smog doc hw = Return x ->
     ((_n_sentences doc < 3)%Z /\ x = 0) \/
     ((3 <= _n_sentences doc)%Z /\ (3.1291 <=? x) = true)).
Proof.
  intros Hhw. unfold _smog.
  destruct (Z.leb_spec 3 (_n_sentences doc)) as [Hns|Hns].
  - split.
    + intros Hlt.
      destruct (int_truediv_returns hw (_n_sentences doc) 1023
                  ltac:(lia) ltac:(lia) ltac:(lia) ltac:(lia)) as (q & Hq & _).
      destruct (pow_half_returns (30 * q)) as (r & Hr & _);
        [eapply smog_base_nonneg; done|].
      rewrite Hq. cbn [mbind outcome_bind]. rewrite Hr. by eexists.
    + intros x.
      destruct (Py.int_truediv hw (_n_sentences doc)) as [q|e] eqn:Hq; [|done].
      destruct (pow_half_returns (30 * q)) as (r & Hr & Sr);
        [eapply smog_base_nonneg; done|].
      cbn [mbind outcome_bind]. rewrite Hr. cbn [mbind outcome_bind].
      intros [= <-]. right. split; [done|].
      apply float_add_lower; [done|].
      apply float_mul_nonneg; done.
  - split; [by eexists|]. intros x [= <-]. left. done.
Qed.

Lemma C10_smog_sentinel_witness :
  (exists x, _smog scenario_doc 4 = Return x) /\
  (((_n_sentences scenario_doc < 3)%Z /\ 1.043 * sqrt 30 + 3.1291 = 0) \/
   ((3 <= _n_sentences scenario_doc)%Z /\ (3.1291 <=? 1.043 * sqrt 30 + 3.1291) = true)).
Proof.
  destruct (C10_smog_sentinel scenario_doc 4 ltac:(lia)) as [H1 H2].
  split; [apply H1; lia|]. apply H2. vm_compute. reflexivity.
Defined.

(** * Further properties of the component *)

(** ** The two word counts *)

Lemma len_filter_all {A : Type} (p : A -> bool) (l : list A) :
  len (List.filter p l) = len l <-> Forall (fun x => p x = true) l.
Proof.
  unfold len. induction l as [|x l IH]; [split; [constructor|done]|].
  cbn [List.filter]. pose proof (List.filter_length_le p l) as Hle.
  destruct (p x) eqn:Hp; cbn [List.length]; split.
  - intros H. apply List.Forall_cons; [done|]. apply IH. lia.
  - intros H. apply List.Forall_cons_iff in H as [_ H]. apply IH in H. lia.
  - lia.
  - intros H. apply List.Forall_cons_iff in H as [H _]. congruence.
Qed.

Lemma len_filter_none {A : Type} (p : A -> bool) (l : list A) :
  len (List.filter p l) = 0%Z <-> Forall (fun x => p x = false) l.
Proof.
  unfold len. induction l as [|x l IH]; [split; [constructor|done]|].
  cbn [List.filter].
  destruct (p x) eqn:Hp; cbn [List.length]; split.
  - lia.
  - intros H. apply List.Forall_cons_iff in H as [H _]. congruence.
  - intros H. apply List.Forall_cons; [done|]. apply IH. done.
  - intros H. apply List.Forall_cons_iff in H as [_ H]. apply IH. done.
Qed.

Lemma count_Permutation {A : Type} (p : A -> bool) (l l' : list A) :
  Permutation l l' -> Spec.count p l = Spec.count p l'.
Proof.
  induction 1 as [|x l l' _ IH|x y l|l l' l'' _ IH1 _ IH2]; cbn [Spec.count]; lia.
Qed.

(** X1: [hard_words] lies between 0 and the number of syllable counts,
    and [long_words] between 0 and the number of filtered tokens; a count
    reaches the number of entries exactly when every entry qualifies (at
    least 3 syllables, more than 6 characters) and is 0 exactly when none
    does. *)
Theorem X1_word_counts_bounded (doc : Doc) :
  (0 <= hard_words doc <= len (_n_syllables doc))%Z /\
  (0 <= long_words doc <= len (_filtered_tokens doc))%Z /\
  (hard_words doc = len (_n_syllables doc) <->
   Forall (fun s => (3 <= s)%Z) (_n_syllables doc)) /\
  (hard_words doc = 0%Z <-> Forall (fun s => (s < 3)%Z) (_n_syllables doc)) /\
  (long_words doc = len (_filtered_tokens doc) <->
   Forall (fun t => (6 < token_len t)%Z) (_filtered_tokens doc)) /\
  (long_words doc = 0%Z <-> Forall (fun t => (token_len t <= 6)%Z) (_filtered_tokens doc)).
Proof.
  split; [apply hard_words_range|]. split; [apply long_words_range|].
  unfold hard_words, long_words. rewrite !len_filter_all, !len_filter_none.
  repeat split; apply List.Forall_impl; intros a; cbv beta; lia.
Qed.

(** X2: [readability] does not depend on the order of the syllable counts
    or of the filtered tokens: two documents with the same statistics
    whose sequences are permutations of each other get the same
    outcome. *)
Theorem X2_order_independent {libm : Py.Libm} (d d' : Doc) :
  sentence_length_mean d' = sentence_length_mean d ->
  syllables_per_token_mean d' = syllables_per_token_mean d ->
  token_length_mean d' = token_length_mean d ->
  _n_sentences d' = _n_sentences d ->
  _n_tokens d' = _n_tokens d ->
  Permutation (_n_syllables d) (_n_syllables d') ->
  Permutation (_filtered_tokens d) (_filtered_tokens d') ->
  readability d' = readability d.
Proof.
  intros H1 H2 H3 H4 H5 Hs Ht.
  assert (Hhw : hard_words d' = hard_words d).
  { unfold hard_words. rewrite !count_filter. symmetry. apply count_Permutation. done. }
  assert (Hlw : long_words d' = long_words d).
  { unfold long_words. rewrite !count_filter. symmetry. apply count_Permutation. done. }
  unfold readability. rewrite Hhw, Hlw.
  unfold scores, _flesch_reading_ease, _flesch_kincaid_grade, _smog, _gunning_fog,
    _automated_readability_index, _coleman_liau_index, _lix, _rix.
  rewrite H1, H2, H3, H4, H5. done.
Qed.

Lemma X2_order_independent_witness :
  readability
    (mkDoc 10.0 1.5 5.0 4 40 (List.rev (_n_syllables scenario_doc))
           (List.rev (_filtered_tokens scenario_doc)))
  = readability scenario_doc.
Proof.
  apply X2_order_independent; try reflexivity; apply Permutation_rev.
Defined.

(** ** Documents without hard or long words *)

Lemma float_add_zero_eqb (x : float) : is_nan x = false -> (x + 0 =? x) = true.
Proof.
  rewrite is_nan_spec, FloatAxioms.eqb_spec, FloatAxioms.add_spec. intros Hx.
  destruct (Prim2SF x) as [[]|[]| |s m e] eqn:HP; try done.
  unfold SFeqb. cbn [SF64add SFadd]. rewrite SFcompare_refl; done.
Qed.

(** X3: with no hard word and no long word the count-based scores
    collapse: [rix] is [0.0], [lix] is [sentence_length_mean + 0.0] (equal
    to [sentence_length_mean] as a number), [gunning_fog] is
    [0.4 * (sentence_length_mean + 0.0)] and, from three sentences on,
    [smog] is its constant [3.1291]. *)
Theorem X3_no_hard_or_long_words {libm : Py.Libm} (doc : Doc) :
  ((0 < _n_tokens doc)%Z ->
     _gunning_fog doc 0 = Return (0.4 * (sentence_length_mean doc + 0)) /\
     _lix doc 0 = Return (sentence_length_mean doc + 0)) /\
  ((0 < _n_sentences doc)%Z -> _rix doc 0 = Return 0) /\
  ((3 <= _n_sentences doc)%Z -> _smog doc 0 = Return 3.1291) /\
  (is_nan (sentence_length_mean doc) = false ->
     (sentence_length_mean doc + 0 =? sentence_length_mean doc) = true).
Proof.
  split; [|split; [|split]].
  - intros H. unfold _gunning_fog, _lix. rewrite int_truediv_zero by done. done.
  - intros H. unfold _rix. apply int_truediv_zero. done.
  - intros H. unfold _smog. destruct (Z.leb_spec 3 (_n_sentences doc)); [|lia].
    rewrite int_truediv_zero by lia. done.
  - apply float_add_zero_eqb.
Qed.

Lemma X3_no_hard_or_long_words_witness :
  _lix (mkDoc 10.0 1.5 5.0 4 40 [] []) 0 = Return (10.0 + 0) /\
  _rix (mkDoc 10.0 1.5 5.0 4 40 [] []) 0 = Return 0 /\
  _smog (mkDoc 10.0 1.5 5.0 4 40 [] []) 0 = Return 3.1291 /\
  (10.0 + 0 =? 10.0) = true.
Proof.
  destruct (X3_no_hard_or_long_words (mkDoc 10.0 1.5 5.0 4 40 [] [])) as (H1 & H2 & H3 & H4).
  split; [apply H1; reflexivity|]. split; [apply H2; reflexivity|].
  split; [apply H3; cbn; lia|apply H4; reflexivity].
Defined.

(** ** Which exceptions there are *)

Lemma int_truediv_raises (a b : Z) (e : exn) :
  Py.int_truediv a b = Raise e ->
  (e = ZeroDivisionError /\ b = 0%Z) \/ (e = OverflowError /\ b <> 0%Z).
Proof.
  unfold Py.int_truediv. destruct (Z.eqb_spec b 0); [intros [= <-]; auto|].
  destruct (Py.SF_is_finite _); [done|]. intros [= <-]; auto.
Qed.

Lemma float_of_int_raises (n : Z) (e : exn) :
  Py.float_of_int n = Raise e -> e = OverflowError.
Proof. unfold Py.float_of_int. destruct (Py.SF_is_finite _); [done|]. by intros [= <-]. Qed.

Lemma int_float_truediv_raises (n : Z) (b : float) (e : exn) :
  Py.int_float_truediv n b = Raise e -> e = ZeroDivisionError \/ e = OverflowError.
Proof.
  unfold Py.int_float_truediv, Py.float_truediv.
  destruct (Py.float_of_int n) as [a|e'] eqn:Ha; cbn [mbind outcome_bind].
  - destruct (b =? 0); [|done]. intros [= <-]. auto.
  - intros [= <-]. right. eapply float_of_int_raises. done.
Qed.

Lemma bind_raises {A B : Type} (m : outcome A) (k : A -> B) (e : exn) :
  (x ← m; Return (k x)) = Raise e -> m = Raise e.
Proof.
  destruct m as [a|e']; cbn [mbind outcome_bind].
  - intros H. discriminate H.
  - intros [= ->]. reflexivity.
Qed.

Lemma scores_raises_one {libm : Py.Libm} (doc : Doc) (hw lw : Z) (e : exn) :
  scores doc hw lw = Raise e ->
  _smog doc hw = Raise e \/ _gunning_fog doc hw = Raise e \/
  _coleman_liau_index doc = Raise e \/ _lix doc lw = Raise e \/ _rix doc lw = Raise e.
Proof.
  unfold scores, _flesch_reading_ease, _flesch_kincaid_grade, _automated_readability_index.
  cbn [mbind outcome_bind].
  destruct (_smog doc hw) as [v3|]; [|intros [= <-]; auto].
  destruct (_gunning_fog doc hw) as [v4|]; [|intros [= <-]; auto].
  destruct (_coleman_liau_index doc) as [v6|]; [|intros [= <-]; auto].
  destruct (_lix doc lw) as [v7|]; [|intros [= <-]; auto].
  destruct (_rix doc lw) as [v8|]; [|intros [= <-]; auto 10].
  done.
Qed.

(** X4: the only exceptions [readability] can raise are
    [ZeroDivisionError] and [OverflowError] (it never raises
    [ValueError]), and for counts in the range of list lengths the only
    one is [ZeroDivisionError]: nothing overflows. *)
Theorem X4_exceptions {libm : Py.Libm} (doc : Doc) :
  (forall e, readability doc = Raise e -> e = ZeroDivisionError \/ e = OverflowError) /\
  (Spec.counts_in_range doc ->
   forall e, readability doc = Raise e -> e = ZeroDivisionError).
Proof.
  assert (H : forall e, readability doc = Raise e ->
    (e = ZeroDivisionError \/ e = OverflowError) /\
    (Spec.counts_in_range doc -> e = ZeroDivisionError)).
  { intros e He. apply scores_raises_one in He.
    pose proof (hard_words_range doc) as Hhw. pose proof (long_words_range doc) as Hlw.
    assert (Hdiv : forall a b, Py.int_truediv a b = Raise e ->
      (e = ZeroDivisionError \/ e = OverflowError) /\
      ((Z.abs a < 2 ^ 63)%Z -> e = ZeroDivisionError)).
    { intros a b Hab. pose proof (int_truediv_raises a b e Hab) as [[-> Hb]|[-> Hb]]; [auto|].
      split; [auto|]. intros Ha.
      destruct (int_truediv_returns a b 63 Ha ltac:(lia) ltac:(lia) Hb) as (x & Hx & _).
      congruence. }
    destruct He as [He|[He|[He|[He|He]]]].
    - unfold _smog in He. destruct (Z.leb_spec 3 (_n_sentences doc)) as [H3|H3]; [|done].
      destruct (Py.int_truediv (hard_words doc) (_n_sentences doc)) as [q|e'] eqn:Hq;
        cbn [mbind outcome_bind] in He.
      + destruct (pow_half_returns (30 * q)) as (r & Hr & _);
          [eapply smog_base_nonneg; [|done|done]; lia|].
        rewrite Hr in He. done.
      + injection He as <-. destruct (Hdiv _ _ Hq) as [H1 H2].
        split; [done|]. intros (_ & _ & Hsy & _). apply H2. lia.
    - unfold _gunning_fog in He. apply bind_raises in He. destruct (Hdiv _ _ He) as [H1 H2].
      split; [done|]. intros (_ & _ & Hsy & _). apply H2. lia.
    - unfold _coleman_liau_index in He. apply bind_raises in He.
      split; [eapply int_float_truediv_raises; done|]. intros (Hns & _).
      unfold Py.int_float_truediv, Py.float_truediv in He.
      destruct (float_of_int_returns (_n_sentences doc) 63 Hns ltac:(lia) ltac:(lia))
        as (n & Hn & _). rewrite Hn in He. cbn [mbind outcome_bind] in He.
      destruct (sentence_length_mean doc =? 0); [|done]. by injection He as <-.
    - unfold _lix in He. apply bind_raises in He. destruct (Hdiv _ _ He) as [H1 H2].
      split; [done|]. intros (_ & _ & _ & Hto). apply H2. lia.
    - unfold _rix in He. destruct (Hdiv _ _ He) as [H1 H2].
      split; [done|]. intros (_ & _ & _ & Hto). apply H2. lia. }
  split.
  - intros e He. apply H. done.
  - intros Hc e He. apply H; done.
Qed.

Lemma X4_exceptions_witness :
  exists e, readability tokenless_doc = Raise e /\ e = ZeroDivisionError.
Proof.
  exists ZeroDivisionError. split; [reflexivity|].
  apply (proj2 (X4_exceptions tokenless_doc)); [|reflexivity].
  unfold Spec.counts_in_range. vm_compute. repeat split; reflexivity.
Defined.

(** ** The result dictionary *)



(** ** Registration *)

(** X6: constructing the component, directly or through the pipeline
    factory, always leaves [readability] registered on [Doc]; the getter
    stays the one of the first component that registered it, a later
    component does not replace it; and no other extension is touched. *)
Theorem X6_registration (self : nat) (reg : gmap string nat) :
  exists reg',
    __init__ self reg = Return reg' /\
    create_readability_component self reg = Return reg' /\
    has_extension reg' "readability" = true /\
    reg' !! "readability"%string = Some (default self (reg !! "readability"%string)) /\
    (forall name, name <> "readability"%string -> reg' !! name = reg !! name).
Proof.
  unfold create_readability_component, __init__, set_extension, has_extension.
  destruct (reg !! "readability"%string) as [g|] eqn:Hg.
  - exists reg. rewrite !bool_decide_eq_true_2 by eauto. cbn [negb default].
    rewrite Hg. repeat split; done.
  - exists (<["readability"%string := self]> reg).
    rewrite !bool_decide_eq_false_2 by (intros [? ?]; done). cbn [negb default].
    rewrite lookup_insert_eq. repeat split; try done.
    intros name Hn. apply lookup_insert_ne. done.
Qed.

(** ** Monotonicity in the means *)

Lemma float_mul_nan_r (c x : float) : is_nan (c * x) = false -> is_nan x = false.
Proof.
  rewrite !is_nan_spec, FloatAxioms.mul_spec.
  destruct (Prim2SF c), (Prim2SF x); done.
Qed.

(** X7: of two documents with the same [sentence_length_mean], the one
    with the larger [syllables_per_token_mean] has a
    [flesch_reading_ease] that is smaller or equal and a
    [flesch_kincaid_grade] that is larger or equal, whenever the scores
    are numbers. *)
Theorem X7_syllables_monotone (d d' : Doc) :
  sentence_length_mean d' = sentence_length_mean d ->
  (syllables_per_token_mean d <=? syllables_per_token_mean d') = true ->
  exists a a' b b',
    _flesch_reading_ease d = Return a /\ _flesch_reading_ease d' = Return a' /\
    _flesch_kincaid_grade d = Return b /\ _flesch_kincaid_grade d' = Return b' /\
    (is_nan a = false -> is_nan a' = false -> (a' <=? a) = true) /\
    (is_nan b = false -> is_nan b' = false -> (b <=? b') = true).
Proof.
  intros Hsl Hle. unfold _flesch_reading_ease, _flesch_kincaid_grade. rewrite Hsl.
  do 4 eexists. repeat split.
  - intros Na Na'. apply float_sub_antimono_r; [|done|done]. apply float_mul_mono; done.
  - intros Nb Nb'. apply float_sub_mono_l; [|done|done].
    apply float_add_mono_r.
    + apply float_mul_mono; done.
    + eapply float_sub_nan_l. done.
    + eapply float_sub_nan_l. done.
Qed.

Lemma X7_syllables_monotone_witness :
  exists a a' b b',
    _flesch_reading_ease scenario_doc = Return a /\
    _flesch_reading_ease (mkDoc 10.0 2.0 5.0 4 40 [] []) = Return a' /\
    _flesch_kincaid_grade scenario_doc = Return b /\
    _flesch_kincaid_grade (mkDoc 10.0 2.0 5.0 4 40 [] []) = Return b' /\
    (a' <=? a) = true /\ (b <=? b') = true.
Proof.
  destruct (X7_syllables_monotone scenario_doc (mkDoc 10.0 2.0 5.0 4 40 [] []) eq_refl eq_refl)
    as (a & a' & b & b' & Ha & Ha' & Hb & Hb' & Hfre & Hfkg).
  exists a, a', b, b'. repeat split; try assumption.
  - injection Ha as <-. injection Ha' as <-. apply Hfre; reflexivity.
  - injection Hb as <-. injection Hb' as <-. apply Hfkg; reflexivity.
Defined.

(** X8: [automated_readability_index] never decreases when
    [token_length_mean] grows (at the same [sentence_length_mean]) nor
    when [sentence_length_mean] grows (at the same [token_length_mean]),
    whenever the scores are numbers. *)
Theorem X8_ari_monotone (d d' : Doc) :
  ((token_length_mean d <=? token_length_mean d') = true /\
   sentence_length_mean d' = sentence_length_mean d) \/
  (token_length_mean d' = token_length_mean d /\
   (sentence_length_mean d <=? sentence_length_mean d') = true) ->
  exists a a',
    _automated_readability_index d = Return a /\
    _automated_readability_index d' = Return a' /\
    (is_nan a = false -> is_nan a' = false -> (a <=? a') = true).
Proof.
  intros H. unfold _automated_readability_index. do 2 eexists. repeat split.
  intros Na Na'. apply float_sub_mono_l; [|done|done].
  pose proof (float_sub_nan_l _ _ Na) as Ns. pose proof (float_sub_nan_l _ _ Na') as Ns'.
  destruct H as [[Hle Heq]|[Heq Hle]]; rewrite Heq in *.
  - apply float_add_mono_l; [|done|done]. apply float_mul_mono; done.
  - apply float_add_mono_r; [|done|done]. apply float_mul_mono; done.
Qed.

Lemma X8_ari_monotone_witness :
  exists a a',
    _automated_readability_index scenario_doc = Return a /\
    _automated_readability_index long_doc = Return a' /\ (a <=? a') = true.
Proof.
  destruct (X8_ari_monotone scenario_doc long_doc (or_intror (conj eq_refl eq_refl)))
    as (a & a' & Ha & Ha' & Hle).
  exists a, a'. repeat split; try assumption.
  injection Ha as <-. injection Ha' as <-. apply Hle; reflexivity.
Defined.

(** X9: at the same counts, [gunning_fog] and [lix] never decrease when
    [sentence_length_mean] grows: for a nonzero [n_tokens] both are
    returned for both documents, and the score of the document with the
    longer sentences is larger or equal, whenever the scores are
    numbers. *)
Theorem X9_sentence_length_monotone (d d' : Doc) (hw lw : Z) :
  _n_tokens d' = _n_tokens d -> _n_tokens d <> 0%Z ->
  (Z.abs hw < 2 ^ 1023)%Z -> (Z.abs lw < 2 ^ 1023)%Z ->
  (sentence_length_mean d <=? sentence_length_mean d') = true ->
  exists g g' l l',
    _gunning_fog d hw = Return g /\ _gunning_fog d' hw = Return g' /\
    _lix d lw = Return l /\ _lix d' lw = Return l' /\
    (is_nan g = false -> is_nan g' = false -> (g <=? g') = true) /\
    (is_nan l = false -> is_nan l' = false -> (l <=? l') = true).
Proof.
  intros Hnt Hnt0 Hhw Hlw Hle. unfold _gunning_fog, _lix. rewrite Hnt.
  destruct (int_truediv_returns hw (_n_tokens d) 1023 Hhw ltac:(lia) ltac:(lia) Hnt0)
    as (q & -> & _).
  destruct (int_truediv_returns lw (_n_tokens d) 1023 Hlw ltac:(lia) ltac:(lia) Hnt0)
    as (q' & -> & _).
  cbn [mbind outcome_bind]. do 4 eexists. repeat split.
  - intros Ng Ng'. apply float_mul_mono; [done|].
    apply float_add_mono_l; [done| |]; eapply float_mul_nan_r; done.
  - intros Nl Nl'. apply float_add_mono_l; done.
Qed.

Lemma X9_sentence_length_monotone_witness :
  exists g g' l l',
    _gunning_fog scenario_doc 4 = Return g /\ _gunning_fog long_doc 4 = Return g' /\
    _lix scenario_doc 6 = Return l /\ _lix long_doc 6 = Return l' /\
    (g <=? g') = true /\ (l <=? l') = true.
Proof.
  destruct (X9_sentence_length_monotone scenario_doc long_doc 4 6 eq_refl)
    as (g & g' & l & l' & Hg & Hg' & Hl & Hl' & H1 & H2);
    [cbn; lia|cbn; lia|cbn; lia|reflexivity|].
  exists g, g', l, l'. repeat split; try assumption.
  - vm_compute in Hg, Hg'. injection Hg as <-. injection Hg' as <-. apply H1; reflexivity.
  - vm_compute in Hl, Hl'. injection Hl as <-. injection Hl' as <-. apply H2; reflexivity.
Defined.

(** X10: [coleman_liau_index] never decreases when [token_length_mean]
    grows, and, for a non-negative [n_sentences], never decreases when a
    positive [sentence_length_mean] grows: it is returned for both
    documents, and the scores are ordered whenever they are numbers. *)
Theorem X10_coleman_liau_monotone (d d' : Doc) :
  _n_sentences d' = _n_sentences d ->
  (0 <= _n_sentences d < 2 ^ 1023)%Z ->
  (0 <? sentence_length_mean d) = true ->
  ((token_length_mean d <=? token_length_mean d') = true /\
   sentence_length_mean d' = sentence_length_mean d) \/
  (token_length_mean d' = token_length_mean d /\
   (sentence_length_mean d <=? sentence_length_mean d') = true) ->
  exists c c',
    _coleman_liau_index d = Return c /\ _coleman_liau_index d' = Return c' /\
    (is_nan c = false -> is_nan c' = false -> (c <=? c') = true).
Proof.
  intros Hns Hns0 Hpos H.
  unfold _coleman_liau_index, Py.int_float_truediv, Py.float_truediv. rewrite Hns.
  assert (Habs : (Z.abs (_n_sentences d) < 2 ^ 1023)%Z)
    by (rewrite Z.abs_eq; apply Hns0).
  destruct (float_of_int_returns (_n_sentences d) 1023 Habs ltac:(lia) ltac:(lia))
    as (n & Hn & _).
  rewrite Hn. cbn [mbind outcome_bind].
  destruct (float_of_int_nonneg _ _ (proj1 Hns0) Hn) as [Fn Sn].
  assert (Hz : forall y, (0 <? y) = true -> (y =? 0) = false).
  { intros y. rewrite FloatAxioms.ltb_spec, FloatAxioms.eqb_spec.
    destruct (Prim2SF y) as [[]|[]| |[] ? ?]; done. }
  assert (Hpos' : (0 <? sentence_length_mean d') = true).
  { destruct H as [[_ ->]|[_ Hle]]; [done|].
    revert Hpos Hle. rewrite !FloatAxioms.ltb_spec, FloatAxioms.leb_spec.
    destruct (Prim2SF (sentence_length_mean d)) as [[]|[]| |[] ? ?]; try done;
      destruct (Prim2SF (sentence_length_mean d')) as [[]|[]| |[] ? ?]; done. }
  rewrite !Hz by done. do 2 eexists. repeat split.
  intros Nc Nc'. apply float_sub_mono_l; [|done|done].
  pose proof (float_sub_nan_l _ _ Nc) as Ns. pose proof (float_sub_nan_l _ _ Nc') as Ns'.
  destruct H as [[Hle Heq]|[Heq Hle]]; rewrite Heq in *.
  - apply float_sub_mono_l; [|done|done].
    apply float_mul_mono; [done|]. apply float_mul_mono_r; done.
  - apply float_sub_antimono_r; [|done|done].
    apply float_mul_mono; [done|]. apply float_mul_mono_r; [done|].
    apply float_div_antimono; done.
Qed.

Lemma X10_coleman_liau_monotone_witness :
  exists c c',
    _coleman_liau_index scenario_doc = Return c /\ _coleman_liau_index long_doc = Return c' /\
    (c <=? c') = true.
Proof.
  destruct (X10_coleman_liau_monotone scenario_doc long_doc eq_refl)
    as (c & c' & Hc & Hc' & Hle);
    [cbn; lia|reflexivity|right; split; reflexivity|].
  exists c, c'. repeat split; try assumption.
  vm_compute in Hc, Hc'. injection Hc as <-. injection Hc' as <-. apply Hle; reflexivity.
Defined.

(** X11: at the same positive [sentence_length_mean] and the same
    [token_length_mean], [coleman_liau_index] never increases when
    [n_sentences] grows: it is returned for both documents, and the one
    with more sentences has the smaller or equal score, whenever the
    scores are numbers. *)
Theorem X11_coleman_liau_sentences (d d' : Doc) :
  token_length_mean d' = token_length_mean d ->
  sentence_length_mean d' = sentence_length_mean d ->
  (0 <? sentence_length_mean d) = true ->
  (0 <= _n_sentences d <= _n_sentences d')%Z -> (_n_sentences d' < 2 ^ 1023)%Z ->
  exists c c',
    _coleman_liau_index d = Return c /\ _coleman_liau_index d' = Return c' /\
    (is_nan c = false -> is_nan c' = false -> (c' <=? c) = true).
Proof.
  intros Htl Hsl Hpos Hns Hns'.
  unfold _coleman_liau_index, Py.int_float_truediv, Py.float_truediv. rewrite Htl, Hsl.
  assert (Ha : (Z.abs (_n_sentences d) < 2 ^ 1023)%Z) by (apply abs_lt_of_range; lia).
  assert (Ha' : (Z.abs (_n_sentences d') < 2 ^ 1023)%Z) by (apply abs_lt_of_range; lia).
  assert (H0' : (0 <= _n_sentences d')%Z) by lia.
  destruct (float_of_int_returns (_n_sentences d) 1023 Ha ltac:(lia) ltac:(lia))
    as (n & Hn & _).
  destruct (float_of_int_returns (_n_sentences d') 1023 Ha' ltac:(lia) ltac:(lia))
    as (n' & Hn' & _).
  pose proof (float_of_int_mono _ _ _ _ (proj2 Hns) Hn Hn') as Hle.
  destruct (float_of_int_nonneg _ _ (proj1 Hns) Hn) as [Fn Sn].
  destruct (float_of_int_nonneg _ _ H0' Hn') as [Fn' Sn'].
  rewrite Hn, Hn'. cbn [mbind outcome_bind].
  assert (Hz : (sentence_length_mean d =? 0) = false).
  { revert Hpos. rewrite FloatAxioms.ltb_spec, FloatAxioms.eqb_spec.
    destruct (Prim2SF (sentence_length_mean d)) as [[]|[]| |[] ? ?]; done. }
  rewrite Hz. do 2 eexists. repeat split.
  intros Nc Nc'. apply float_sub_mono_l; [|done|done].
  pose proof (float_sub_nan_l _ _ Nc) as Ns. pose proof (float_sub_nan_l _ _ Nc') as Ns'.
  apply float_sub_antimono_r; [|done|done].
  apply float_mul_mono; [done|]. apply float_mul_mono_r; [done|].
  apply float_div_mono_l; done.
Qed.

Lemma X11_coleman_liau_sentences_witness :
  exists c c',
    _coleman_liau_index scenario_doc = Return c /\
    _coleman_liau_index (mkDoc 10.0 1.5 5.0 5 40 [] []) = Return c' /\
    (c' <=? c) = true.
Proof.
  destruct (X11_coleman_liau_sentences scenario_doc (mkDoc 10.0 1.5 5.0 5 40 [] [])
              eq_refl eq_refl eq_refl) as (c & c' & Hc & Hc' & Hle); [cbn; lia|cbn; lia|].
  exists c, c'. repeat split; try assumption.
  vm_compute in Hc, Hc'. injection Hc as <-. injection Hc' as <-. apply Hle; reflexivity.
Defined.

(** ** Monotonicity in the counts *)

(** X12: [rix] never decreases when there are more long words over fewer
    sentences, and, at the same [sentence_length_mean], [lix] and
    [gunning_fog] never decrease when there are more long (hard) words
    over fewer tokens: the scores are returned and ordered (for [lix] and
    [gunning_fog], whenever they are numbers). *)
Theorem X12_counts_monotone (d d' : Doc) (n n' : Z) :
  (0 <= n <= n')%Z -> (n' < 2 ^ 1023)%Z ->
  ((0 < _n_sentences d' <= _n_sentences d)%Z ->
     exists r r', _rix d n = Return r /\ _rix d' n' = Return r' /\ (r <=? r') = true) /\
  ((0 < _n_tokens d' <= _n_tokens d)%Z ->
   sentence_length_mean d' = sentence_length_mean d ->
     exists l l' g g',
       _lix d n = Return l /\ _lix d' n' = Return l' /\
       _gunning_fog d n = Return g /\ _gunning_fog d' n' = Return g' /\
       (is_nan l = false -> is_nan l' = false -> (l <=? l') = true) /\
       (is_nan g = false -> is_nan g' = false -> (g <=? g') = true)).
Proof.
  intros Hn Hn'.
  assert (Ha : (Z.abs n < 2 ^ 1023)%Z) by (apply abs_lt_of_range; lia).
  assert (Ha' : (Z.abs n' < 2 ^ 1023)%Z) by (apply abs_lt_of_range; lia).
  split.
  - intros Hns. unfold _rix.
    destruct (int_truediv_returns n (_n_sentences d) 1023 Ha ltac:(lia) ltac:(lia) ltac:(lia))
      as (r & Hr & _).
    destruct (int_truediv_returns n' (_n_sentences d') 1023 Ha' ltac:(lia) ltac:(lia)
                ltac:(lia)) as (r' & Hr' & _).
    exists r, r'. repeat split; try done.
    apply (int_truediv_mono n (_n_sentences d) n' (_n_sentences d')); try done; try lia. nia.
  - intros Hnt Hsl. unfold _lix, _gunning_fog. rewrite Hsl.
    destruct (int_truediv_returns n (_n_tokens d) 1023 Ha ltac:(lia) ltac:(lia) ltac:(lia))
      as (q & Hq & _).
    destruct (int_truediv_returns n' (_n_tokens d') 1023 Ha' ltac:(lia) ltac:(lia)
                ltac:(lia)) as (q' & Hq' & _).
    assert (Hle : (q <=? q') = true).
    { apply (int_truediv_mono n (_n_tokens d) n' (_n_tokens d')); try done; try lia. nia. }
    rewrite Hq, Hq'. cbn [mbind outcome_bind]. do 4 eexists. repeat split.
    + intros Nl Nl'. apply float_add_mono_r; [|done|done]. apply float_mul_mono_r; done.
    + intros Ng Ng'. apply float_mul_mono; [done|].
      apply float_add_mono_r; [| |]; [apply float_mul_mono_r; done| |];
        eapply float_mul_nan_r; done.
Qed.

Lemma X12_counts_monotone_witness :
  (exists r r', _rix scenario_doc 6 = Return r /\
                _rix (mkDoc 10.0 1.5 5.0 3 30 [] []) 7 = Return r' /\ (r <=? r') = true) /\
  (exists l l' g g',
     _lix scenario_doc 6 = Return l /\ _lix (mkDoc 10.0 1.5 5.0 3 30 [] []) 7 = Return l' /\
     _gunning_fog scenario_doc 6 = Return g /\
     _gunning_fog (mkDoc 10.0 1.5 5.0 3 30 [] []) 7 = Return g' /\
     (l <=? l') = true /\ (g <=? g') = true).
Proof.
  destruct (X12_counts_monotone scenario_doc (mkDoc 10.0 1.5 5.0 3 30 [] []) 6 7)
    as [H1 H2]; [lia|lia|].
  split; [apply H1; cbn; lia|].
  destruct H2 as (l & l' & g & g' & Hl & Hl' & Hg & Hg' & H3 & H4); [cbn; lia|reflexivity|].
  exists l, l', g, g'. repeat split; try assumption.
  - vm_compute in Hl, Hl'. injection Hl as <-. injection Hl' as <-. apply H3; reflexivity.
  - vm_compute in Hg, Hg'. injection Hg as <-. injection Hg' as <-. apply H4; reflexivity.
Defined.

(** ** Bounds *)

(** X14: when the hard (long) words are a part of the tokens, the
    percentage in [gunning_fog] and [lix] lies between 0 and 100: [lix] is
    returned and lies between [sentence_length_mean + 0.0] and
    [sentence_length_mean + 100.0], and [gunning_fog] between
    [0.4 * (sentence_length_mean + 0.0)] and
    [0.4 * (sentence_length_mean + 100.0)]. *)
Theorem X14_percentage_bounds (doc : Doc) (n : Z) :
  (0 <= n <= _n_tokens doc)%Z -> (0 < _n_tokens doc)%Z ->
  is_nan (sentence_length_mean doc) = false ->
  exists l g,
    _lix doc n = Return l /\ _gunning_fog doc n = Return g /\
    (sentence_length_mean doc + 0 <=? l) = true /\
    (l <=? sentence_length_mean doc + 100) = true /\
    (0.4 * (sentence_length_mean doc + 0) <=? g) = true /\
    (g <=? 0.4 * (sentence_length_mean doc + 100)) = true.
Proof.
  intros Hn Hnt Hsl.
  destruct (int_truediv_part n (_n_tokens doc) Hn Hnt) as (q & Hq & H0 & H1).
  unfold _lix, _gunning_fog. rewrite Hq. cbn [mbind outcome_bind]. do 2 eexists.
  split; [done|]. split; [done|].
  assert (Hp0 : (0 <=? q * 100) = true) by (apply (float_mul_mono_r 100 0 q); done).
  assert (Hp1 : (q * 100 <=? 100) = true) by (apply (float_mul_mono_r 100 q 1); done).
  assert (Fp : is_finite (q * 100) = true) by (apply (float_between_finite 0 _ 100); done).
  assert (N0 : is_nan (sentence_length_mean doc + 0) = false)
    by (apply float_add_finite_not_nan; done).
  assert (N1 : is_nan (sentence_length_mean doc + 100) = false)
    by (apply float_add_finite_not_nan; done).
  assert (Np : is_nan (sentence_length_mean doc + q * 100) = false)
    by (apply float_add_finite_not_nan; done).
  assert (L0 : (sentence_length_mean doc + 0 <=? sentence_length_mean doc + q * 100) = true)
    by (apply float_add_mono_r; done).
  assert (L1 : (sentence_length_mean doc + q * 100 <=? sentence_length_mean doc + 100) = true)
    by (apply float_add_mono_r; done).
  repeat split; try done; apply float_mul_mono; done.
Qed.

Lemma X14_percentage_bounds_witness :
  exists l g,
    _lix scenario_doc 6 = Return l /\ _gunning_fog scenario_doc 6 = Return g /\
    (10.0 + 0 <=? l) = true /\ (l <=? 10.0 + 100) = true /\
    (0.4 * (10.0 + 0) <=? g) = true /\ (g <=? 0.4 * (10.0 + 100)) = true.
Proof.
  apply (X14_percentage_bounds scenario_doc 6); [cbn; lia|cbn; lia|reflexivity].
Defined.

(** X15: on non-negative means, [flesch_reading_ease] is at most its
    constant [206.835], [flesch_kincaid_grade] at least [-15.59] and
    [automated_readability_index] at least [-21.43]; none of them is
    NaN. *)
Theorem X15_score_bounds (doc : Doc) :
  (0 <=? sentence_length_mean doc) = true ->
  ((0 <=? syllables_per_token_mean doc) = true ->
     exists a b,
       _flesch_reading_ease doc = Return a /\ _flesch_kincaid_grade doc = Return b /\
       (a <=? 206.835) = true /\ (-15.59 <=? b) = true) /\
  ((0 <=? token_length_mean doc) = true ->
     exists c, _automated_readability_index doc = Return c /\ (-21.43 <=? c) = true).
Proof.
  intros Hsl.
  assert (Hlow : forall c1 c2 c3 x y,
    pos_finite c1 = true -> pos_finite c2 = true -> is_finite c3 = true ->
    (0 <=? x) = true -> (0 <=? y) = true ->
    (0 + 0 - c3 <=? c1 * x + c2 * y - c3) = true).
  { intros c1 c2 c3 x y P1 P2 F3 Hx Hy.
    pose proof (float_mul_nonneg_leb c1 x P1 Hx) as Hu.
    pose proof (float_mul_nonneg_leb c2 y P2 Hy) as Hv.
    pose proof (float_add_nonneg_not_nan _ _ Hu Hv) as Nuv.
    assert (Huv : (0 + 0 <=? c1 * x + c2 * y) = true).
    { apply (float_leb_trans _ (c1 * x + 0)).
      - apply float_add_mono_l; [done|done|]. apply float_add_nonneg_not_nan; done.
      - apply float_add_mono_r; [done| |done]. apply float_add_nonneg_not_nan; done. }
    apply float_sub_mono_l; [done| |]; apply float_sub_finite_not_nan; done. }
  split.
  - intros Hspt. unfold _flesch_reading_ease, _flesch_kincaid_grade. do 2 eexists.
    split; [done|]. split; [done|]. split.
    + pose proof (float_mul_nonneg_leb 1.015 _ eq_refl Hsl) as Hu.
      pose proof (float_mul_nonneg_leb 84.6 _ eq_refl Hspt) as Hv.
      destruct (float_leb_not_nan _ _ Hu) as [_ Nu].
      assert (H1 : (206.835 - 1.015 * sentence_length_mean doc <=? 206.835) = true).
      { rewrite <- (float_sub_zero 206.835) at 2.
        apply float_sub_antimono_r; [done|done|]. apply float_finite_sub_not_nan; done. }
      apply (float_leb_trans _ (206.835 - 1.015 * sentence_length_mean doc)); [|done].
      rewrite <- (float_sub_zero (206.835 - 1.015 * sentence_length_mean doc)) at 2.
      apply float_sub_antimono_r; [done| |].
      * rewrite float_sub_zero. apply float_finite_sub_not_nan; done.
      * apply (float_sub_bounded_not_nan _ 206.835); done.
    + apply (Hlow 0.39 11.8 15.59); done.
  - intros Htl. unfold _automated_readability_index. eexists. split; [done|].
    apply (Hlow 4.71 0.5 21.43); done.
Qed.

Lemma X15_score_bounds_witness :
  (exists a b,
     _flesch_reading_ease scenario_doc = Return a /\
     _flesch_kincaid_grade scenario_doc = Return b /\
     (a <=? 206.835) = true /\ (-15.59 <=? b) = true) /\
  (exists c, _automated_readability_index scenario_doc = Return c /\ (-21.43 <=? c) = true).
Proof.
  destruct (X15_score_bounds scenario_doc eq_refl) as [H1 H2].
  split; [apply H1; reflexivity|apply H2; reflexivity].
Defined.

(** X16: for at least one sentence, [rix] lies between 0 and the number
    of long words: it is returned, it is not negative, and it is at most
    the count converted to a float. *)
Theorem X16_rix_bounds (doc : Doc) (n : Z) :
  (0 <= n < 2 ^ 1023)%Z -> (1 <= _n_sentences doc)%Z ->
  exists r c,
    _rix doc n = Return r /\ Py.float_of_int n = Return c /\
    (0 <=? r) = true /\ (r <=? c) = true.
Proof.
  intros Hn Hns. unfold _rix.
  assert (Ha : (Z.abs n < 2 ^ 1023)%Z) by (apply abs_lt_of_range; done).
  destruct (int_truediv_returns n (_n_sentences doc) 1023 Ha ltac:(lia) ltac:(lia) ltac:(lia))
    as (r & Hr & _).
  destruct (float_of_int_returns n 1023 Ha ltac:(lia) ltac:(lia)) as (c & Hc & _).
  exists r, c. split; [done|]. split; [done|]. split.
  - apply (int_truediv_mono 0 (_n_sentences doc) n (_n_sentences doc)); try lia; [|done].
    apply int_truediv_zero. lia.
  - rewrite <- int_truediv_one in Hc.
    apply (int_truediv_mono n (_n_sentences doc) n 1); try done; try lia. nia.
Qed.

Lemma X16_rix_bounds_witness :
  exists r c,
    _rix scenario_doc 6 = Return r /\ Py.float_of_int 6 = Return c /\
    (0 <=? r) = true /\ (r <=? c) = true.
Proof.
  apply (X16_rix_bounds scenario_doc 6); cbn; lia.
Defined.

(** ** Not a number *)

(** X17: a [sentence_length_mean] that is NaN is not rejected: for counts
    in the range of list lengths and nonzero [n_sentences] and [n_tokens],
    [readability] returns its mapping, in which the six scores that read
    [sentence_length_mean] are NaN. *)
Theorem X17_nan_propagates {libm : Py.Libm} (doc : Doc) :
  is_nan (sentence_length_mean doc) = true ->
  Spec.counts_in_range doc -> _n_sentences doc <> 0%Z -> _n_tokens doc <> 0%Z ->
  exists m,
    readability doc = Return m /\
    forall key,
      In key [ "flesch_reading_ease"; "flesch_kincaid_grade"; "gunning_fog";
               "automated_readability_index"; "coleman_liau_index"; "lix" ]%string ->
      exists v, Spec.entry key (Return m) = Some v /\ is_nan v = true.
Proof.
  intros Hnan (Hns & Hnt & Hsy & Hto) Hns0 Hnt0.
  pose proof (hard_words_range doc) as Hhw. pose proof (long_words_range doc) as Hlw.
  destruct (int_truediv_returns (hard_words doc) (_n_sentences doc) 63
              ltac:(lia) ltac:(lia) ltac:(lia) Hns0) as (q3 & Hq3 & _).
  destruct (int_truediv_returns (hard_words doc) (_n_tokens doc) 63
              ltac:(lia) ltac:(lia) ltac:(lia) Hnt0) as (q4 & Hq4 & _).
  destruct (int_truediv_returns (long_words doc) (_n_tokens doc) 63
              ltac:(lia) ltac:(lia) ltac:(lia) Hnt0) as (q7 & Hq7 & _).
  destruct (int_truediv_returns (long_words doc) (_n_sentences doc) 63
              ltac:(lia) ltac:(lia) ltac:(lia) Hns0) as (q8 & Hq8 & _).
  destruct (float_of_int_returns (_n_sentences doc) 63 Hns ltac:(lia) ltac:(lia))
    as (n & Hn & _).
  assert (Hz : (sentence_length_mean doc =? 0) = false).
  { rewrite is_nan_spec in Hnan. rewrite FloatAxioms.eqb_spec.
    destruct (Prim2SF (sentence_length_mean doc)); done. }
  destruct (smog_finite doc (hard_words doc) ltac:(lia) Hns0) as (v3 & H3 & _).
  eexists. split.
  - unfold readability. apply scores_returns. do 8 eexists.
    split; [done|]. split; [done|]. split; [exact H3|].
    split; [unfold _gunning_fog; rewrite Hq4; done|]. split; [done|].
    split; [unfold _coleman_liau_index, Py.int_float_truediv, Py.float_truediv;
            rewrite Hn; cbn [mbind outcome_bind]; rewrite Hz; done|].
    split; [unfold _lix; rewrite Hq7; done|].
    split; [unfold _rix; exact Hq8|]. done.
  - intros key Hk. cbn [In] in Hk.
    destruct Hk as [<-|[<-|[<-|[<-|[<-|[<-|[]]]]]]]; eexists; (split; [reflexivity|]).
    + apply is_nan_sub_l, is_nan_sub_r, is_nan_mul_r. done.
    + apply is_nan_sub_l, is_nan_add_l, is_nan_mul_r. done.
    + apply is_nan_mul_r, is_nan_add_l. done.
    + apply is_nan_sub_l, is_nan_add_r, is_nan_mul_r. done.
    + apply is_nan_sub_l, is_nan_sub_r, is_nan_mul_r, is_nan_mul_l, is_nan_div_r. done.
    + apply is_nan_add_l. done.
Qed.

Lemma X17_nan_propagates_witness :
  exists m,
    readability (mkDoc nan 1.5 5.0 4 40 [] []) = Return m /\
    exists v, Spec.entry "lix" (Return m) = Some v /\ is_nan v = true.
Proof.
  destruct (X17_nan_propagates (mkDoc nan 1.5 5.0 4 40 [] [])) as (m & Hm & H);
    [reflexivity|unfold Spec.counts_in_range; vm_compute; done|discriminate|discriminate|].
  exists m. split; [exact Hm|]. apply H. cbn. auto 10.
Defined.

(** ** Proportions *)

(** X18: the count-based scores depend on the proportions only: with [k]
    times the long (hard) words over [k] times the sentences, [rix] is
    the same float (or the same exception) and so is [smog] from three
    sentences on; with [k] times the words over [k] times the tokens, at
    the same [sentence_length_mean], so are [lix] and [gunning_fog]. *)
Theorem X18_scale_invariant {libm : Py.Libm} (d d' : Doc) (k n : Z) :
  (0 < k)%Z ->
  (_n_sentences d' = (k * _n_sentences d)%Z ->
     _rix d' (k * n) = _rix d n /\
     ((3 <= _n_sentences d)%Z -> _smog d' (k * n) = _smog d n)) /\
  (_n_tokens d' = (k * _n_tokens d)%Z ->
   sentence_length_mean d' = sentence_length_mean d ->
     _lix d' (k * n) = _lix d n /\ _gunning_fog d' (k * n) = _gunning_fog d n).
Proof.
  intros Hk. split.
  - intros Hns. unfold _rix, _smog. rewrite Hns, int_truediv_scale by done.
    split; [done|]. intros H3.
    destruct (Z.leb_spec 3 (_n_sentences d)); [|lia].
    destruct (Z.leb_spec 3 (k * _n_sentences d)); [done|nia].
  - intros Hnt Hsl. unfold _lix, _gunning_fog. rewrite Hnt, Hsl, int_truediv_scale by done.
    done.
Qed.

Lemma X18_scale_invariant_witness :
  _rix (mkDoc 10.0 1.5 5.0 8 80 [] []) (2 * 6) = _rix scenario_doc 6 /\
  _smog (mkDoc 10.0 1.5 5.0 8 80 [] []) (2 * 4) = _smog scenario_doc 4 /\
  _lix (mkDoc 10.0 1.5 5.0 8 80 [] []) (2 * 6) = _lix scenario_doc 6.
Proof.
  destruct (X18_scale_invariant scenario_doc (mkDoc 10.0 1.5 5.0 8 80 [] []) 2 6 ltac:(lia))
    as [H1 H2].
  destruct (X18_scale_invariant scenario_doc (mkDoc 10.0 1.5 5.0 8 80 [] []) 2 4 ltac:(lia))
    as [H3 _].
  split; [apply H1; reflexivity|].
  split; [apply H3; [reflexivity|cbn; lia]|apply H2; reflexivity].
Defined.
